(** * Lock-striped atomic fallback runtime (compiler-rt [atomic.c]) and the
      OS version probe ([os_version_check.c]): a shallow embedding.

    Memory is a total map from addresses to bytes, the lock table a map from
    slot indices to a held flag, and every entry point of [atomic.c] is a
    state-passing function in a small outcome monad. *)

From Stdlib Require Import ZArith List Lia Bool.
From Stdlib Require Import Strings.Byte.
Import ListNotations.
Local Open Scope Z_scope.

(** ** Bytes and fixed-width unsigned integers *)

Definition byte_to_Z (b : byte) : Z := Z.of_N (Byte.to_N b).

Definition byte_of_Z (z : Z) : byte :=
  match Byte.of_N (Z.to_N (z mod 256)) with
  | Some b => b
  | None => x00
  end.

(** The operand types of the sized entry points:
    [uint8_t], [uint16_t], [uint32_t], [uint64_t], [__uint128_t]. *)
Inductive width : Type := W1 | W2 | W4 | W8 | W16.

Definition sizeof (w : width) : Z :=
  match w with W1 => 1 | W2 => 2 | W4 => 4 | W8 => 8 | W16 => 16 end.

Definition modulus (w : width) : Z := 2 ^ (8 * sizeof w).

(** Conversion of a C value to the unsigned type of width [w]. *)
Definition wrap (w : width) (v : Z) : Z := v mod modulus w.

Fixpoint le_combine (bs : list byte) : Z :=
  match bs with
  | [] => 0
  | b :: r => byte_to_Z b + 256 * le_combine r
  end.

Fixpoint le_split (n : nat) (v : Z) : list byte :=
  match n with
  | O => []
  | S k => byte_of_Z v :: le_split k (v / 256)
  end.

(** ** Memory *)

Definition memory : Type := Z -> byte.

Definition load_bytes (m : memory) (p : Z) (n : nat) : list byte :=
  map (fun i => m (p + Z.of_nat i)) (seq 0 n).

Definition in_range (p len a : Z) : bool := (p <=? a) && (a <? p + len).

Definition store_bytes (m : memory) (p : Z) (bs : list byte) : memory :=
  fun a =>
    if in_range p (Z.of_nat (length bs)) a
    then nth (Z.to_nat (a - p)) bs x00
    else m a.

(** Two byte ranges share no address. *)
Definition disjoint (p1 n1 p2 n2 : Z) : Prop :=
  n1 <= 0 \/ n2 <= 0 \/ p1 + n1 <= p2 \/ p2 + n2 <= p1.

(** ** Build configuration

    Everything [atomic.c] leaves to the preprocessor or to the target:
    the table size ([SPINLOCK_COUNT], overridable with [-D]), the width of
    [intptr_t], what [__c11_atomic_is_lock_free(n)] answers for 1, 2, 4 and 8
    bytes, whether [__SIZEOF_INT128__] is defined, which compiler family
    selects the [#if] branches, and the byte order in which the target lays
    out an integer. *)
Record Target : Type := {
  SPINLOCK_COUNT : Z;
  INTPTR_BITS : Z;
  IS_LOCK_FREE_1 : bool;
  IS_LOCK_FREE_2 : bool;
  IS_LOCK_FREE_4 : bool;
  IS_LOCK_FREE_8 : bool;
  SIZEOF_INT128 : bool;
  GNUC_NOT_CLANG : bool;      (* [defined(__GNUC__) && !defined(__clang__)] *)
  BIG_ENDIAN : bool
}.

(** [#define IS_LOCK_FREE_16 0] *)
Definition IS_LOCK_FREE_16 : bool := false.

(** ** Machine state and the outcome monad *)

(** Lock-table events, recorded in program order. *)
Inductive event : Type :=
| Acquire (slot : Z)
| Release (slot : Z).

Record State : Type := {
  mem : memory;
  locks : Z -> bool;          (* [locks i = true]: slot [i] is held *)
  trace : list event;
  spurious : list bool        (* fate of the coming weak compare-exchange
                                 attempts: [true] loses its reservation *)
}.

(** A call returns a value and a state, never returns because it spins on a
    held lock that nobody releases, or has no defined behaviour. *)
Inductive outcome (A : Type) : Type :=
| Ret (a : A) (s : State)
| Spin
| Undefined.
Arguments Ret {A} a s.
Arguments Spin {A}.
Arguments Undefined {A}.

Definition M (A : Type) : Type := State -> outcome A.

Definition ret {A : Type} (a : A) : M A := fun s => Ret a s.

Definition bind {A B : Type} (c : M A) (k : A -> M B) : M B :=
  fun s =>
    match c s with
    | Ret a s' => k a s'
    | Spin => Spin
    | Undefined => Undefined
    end.

Notation "x <- c ;; k" := (bind c (fun x => k))
  (at level 61, c at next level, right associativity).
Notation "c ;;; k" := (bind c (fun _ => k))
  (at level 61, right associativity).

Definition set_mem (m : memory) (s : State) : State :=
  {| mem := m; locks := locks s; trace := trace s; spurious := spurious s |}.

Definition upd (f : Z -> bool) (i : Z) (b : bool) : Z -> bool :=
  fun j => if j =? i then b else f j.

(** ** The platform lock

    The three [Lock] implementations (FreeBSD [_usem], [OSSpinLock], and the
    portable compare-and-swap spin) share one interface: [lock] returns once
    the slot has been taken and [unlock] marks it free.  The retry loop of
    [lock] is not unrolled: an attempt that fails is retried inside it, so a
    call on a free slot returns with the slot taken, and a call on a held
    slot, with nobody there to release it, does not return. *)
Definition lock (l : Z) : M unit := fun s =>
  if locks s l then Spin
  else Ret tt {| mem := mem s; locks := upd (locks s) l true;
                 trace := trace s ++ [Acquire l]; spurious := spurious s |}.

Definition unlock (l : Z) : M unit := fun s =>
  Ret tt {| mem := mem s; locks := upd (locks s) l false;
            trace := trace s ++ [Release l]; spurious := spurious s |}.

(** ** libc byte copies

    [size] arrives as an [int] and is converted to [size_t]: a negative one
    has no defined behaviour.  An overlapping [memcpy] is given the meaning
    of copying the source bytes as they were before the call. *)
Definition memcpy (dest src size : Z) : M unit := fun s =>
  if size <? 0 then Undefined
  else Ret tt (set_mem (store_bytes (mem s) dest
                          (load_bytes (mem s) src (Z.to_nat size))) s).

Fixpoint compare_bytes (xs ys : list byte) : Z :=
  match xs, ys with
  | x :: xs', y :: ys' =>
      if byte_to_Z x <? byte_to_Z y then -1
      else if byte_to_Z y <? byte_to_Z x then 1
      else compare_bytes xs' ys'
  | _, _ => 0
  end.

Definition memcmp (p q size : Z) : M Z := fun s =>
  if size <? 0 then Undefined
  else Ret (compare_bytes (load_bytes (mem s) p (Z.to_nat size))
                          (load_bytes (mem s) q (Z.to_nat size))) s.

(** The five read-modify-write operators of [ATOMIC_RMW]. *)
Inductive rmw : Type := Add | Sub | And | Or | Xor.

(** [tmp op val] converted back to the operand type. *)
Definition apply_op (o : rmw) (w : width) (a b : Z) : Z :=
  wrap w (match o with
          | Add => a + b
          | Sub => a - b
          | And => Z.land a b
          | Or => Z.lor a b
          | Xor => Z.lxor a b
          end).

Section Runtime.

Variable cfg : Target.

(** ** Typed accesses *)

Definition encode_bytes (n : nat) (v : Z) : list byte :=
  let bs := le_split n v in
  if BIG_ENDIAN cfg then rev bs else bs.

Definition encode (w : width) (v : Z) : list byte :=
  encode_bytes (Z.to_nat (sizeof w)) v.

Definition decode (bs : list byte) : Z :=
  le_combine (if BIG_ENDIAN cfg then rev bs else bs).

(** The object of type [w] at address [p], as a value. *)
Definition read_uint (w : width) (m : memory) (p : Z) : Z :=
  decode (load_bytes m p (Z.to_nat (sizeof w))).

Definition write_uint (w : width) (m : memory) (p : Z) (v : Z) : memory :=
  store_bytes m p (encode w v).

(** [*p] as an rvalue and [*p = v], for [p] of type [w *]. *)
Definition deref (w : width) (p : Z) : M Z := fun s =>
  Ret (read_uint w (mem s) p) s.

Definition assign (w : width) (p v : Z) : M unit := fun s =>
  Ret tt (set_mem (write_uint w (mem s) p v) s).

(** ** Lock table and pointer hash *)

(** [static const long SPINLOCK_MASK = SPINLOCK_COUNT - 1;] *)
Definition SPINLOCK_MASK : Z := SPINLOCK_COUNT cfg - 1.

(** [(intptr_t)ptr]: the address reinterpreted as a signed word. *)
Definition intptr_of (ptr : Z) : Z :=
  let u := ptr mod 2 ^ INTPTR_BITS cfg in
  if u <? 2 ^ (INTPTR_BITS cfg - 1) then u else u - 2 ^ INTPTR_BITS cfg.

(** [lock_for_pointer], returning the index of the slot in [locks]. *)
Definition lock_for_pointer (ptr : Z) : Z :=
  let hash := intptr_of ptr in
  let hash := Z.shiftr hash 4 in
  let low := Z.land hash SPINLOCK_MASK in
  let hash := Z.shiftr hash 16 in
  let hash := Z.lxor hash low in
  Z.land hash SPINLOCK_MASK.

(** ** Compiler builtins

    The lock-free branches call builtins of the compiler, which are not part
    of the source: [__c11_atomic_load], [__c11_atomic_store],
    [__c11_atomic_exchange], [__c11_atomic_compare_exchange_strong],
    [__c11_atomic_fetch_add] and friends under clang, and [__atomic_load_n],
    [__atomic_store_n], [__atomic_exchange_n], [__atomic_compare_exchange_n],
    [__atomic_fetch_add], ... under GCC.  Each is one indivisible access to
    the object of the given type; the memory-order arguments are opaque
    tags. *)

(** Modelled from the spec: the native atomic load of the lock-free path
    ([__c11_atomic_load] / [__atomic_load_n]). *)
Definition builtin_atomic_load (w : width) (p model : Z) : M Z := fun s =>
  Ret (read_uint w (mem s) p) s.

(** Modelled from the spec: the native atomic store
    ([__c11_atomic_store] / [__atomic_store_n]). *)
Definition builtin_atomic_store (w : width) (p v model : Z) : M unit := fun s =>
  Ret tt (set_mem (write_uint w (mem s) p v) s).

(** Modelled from the spec: the native atomic exchange
    ([__c11_atomic_exchange] / [__atomic_exchange_n]). *)
Definition builtin_atomic_exchange (w : width) (p v model : Z) : M Z := fun s =>
  Ret (read_uint w (mem s) p) (set_mem (write_uint w (mem s) p v) s).

(** Modelled from the spec: a compare-exchange that never fails
    spuriously.  The values are compared; on a match [desired] is stored,
    otherwise the current value is written to [expected]. *)
Definition strong_compare_exchange (w : width) (p expected desired : Z) : M bool :=
  fun s =>
    let cur := read_uint w (mem s) p in
    if cur =? read_uint w (mem s) expected
    then Ret true (set_mem (write_uint w (mem s) p desired) s)
    else Ret false (set_mem (write_uint w (mem s) expected cur) s).

(** Modelled from the spec: the native compare-exchange with GCC's [weak]
    flag ([__atomic_compare_exchange_n]; [__c11_atomic_compare_exchange_strong]
    is the case [weak = false]).  A compare-exchange asked to be weak may
    fail although the values agree; whether the coming attempt does is read
    from [spurious].  A failed attempt writes the current value to
    [expected] like any other failure. *)
Definition builtin_atomic_compare_exchange
    (w : width) (p expected desired : Z) (weak : bool) (success failure : Z)
    : M bool := fun s =>
  if weak then
    match spurious s with
    | [] => strong_compare_exchange w p expected desired s
    | lost :: rest =>
        let s1 := {| mem := mem s; locks := locks s; trace := trace s;
                     spurious := rest |} in
        if lost
        then Ret false (set_mem (write_uint w (mem s1) expected
                                   (read_uint w (mem s1) p)) s1)
        else strong_compare_exchange w p expected desired s1
    end
  else strong_compare_exchange w p expected desired s.

(** Modelled from the spec: the native fetch-and-op
    ([__c11_atomic_fetch_add] / [__atomic_fetch_add], and likewise for sub,
    and, or, xor). *)
Definition builtin_atomic_fetch (o : rmw) (w : width) (p v model : Z) : M Z :=
  fun s =>
    let old := read_uint w (mem s) p in
    Ret old (set_mem (write_uint w (mem s) p (apply_op o w old v)) s).

(** ** Lock-free dispatch *)

(** [LOCK_FREE_CASES()]: the type handed to [LOCK_FREE_ACTION], if the
    [switch] reaches one.  The action of [case 16] is commented out in the
    source, so that case falls through whatever [IS_LOCK_FREE_16] says. *)
Definition LOCK_FREE_CASES (size : Z) : option width :=
  if size =? 1 then (if IS_LOCK_FREE_1 cfg then Some W1 else None)
  else if size =? 2 then (if IS_LOCK_FREE_2 cfg then Some W2 else None)
  else if size =? 4 then (if IS_LOCK_FREE_4 cfg then Some W4 else None)
  else if size =? 8 then (if IS_LOCK_FREE_8 cfg then Some W8 else None)
  else if size =? 16 then (if IS_LOCK_FREE_16 then None else None)
  else None.

(** The [lockfree] argument that [OPTIMISED_CASES] passes for each width. *)
Definition lockfree (w : width) : bool :=
  match w with
  | W1 => IS_LOCK_FREE_1 cfg
  | W2 => IS_LOCK_FREE_2 cfg
  | W4 => IS_LOCK_FREE_4 cfg
  | W8 => IS_LOCK_FREE_8 cfg
  | W16 => IS_LOCK_FREE_16
  end.

(** The widths for which [OPTIMISED_CASES] instantiates [OPTIMISED_CASE]. *)
Definition OPTIMISED_CASES : list width :=
  if SIZEOF_INT128 cfg then [W1; W2; W4; W8; W16] else [W1; W2; W4; W8].

(** ** Generic entry points (runtime [size]) *)

Definition __atomic_load_c (size src dest model : Z) : M unit :=
  match LOCK_FREE_CASES size with
  | Some ty =>
      v <- builtin_atomic_load ty src model ;;
      assign ty dest v
  | None =>
      let l := lock_for_pointer src in
      lock l ;;;
      memcpy dest src size ;;;
      unlock l
  end.

Definition __atomic_store_c (size dest src model : Z) : M unit :=
  match LOCK_FREE_CASES size with
  | Some ty =>
      v <- deref ty src ;;
      builtin_atomic_store ty dest v model
  | None =>
      let l := lock_for_pointer dest in
      lock l ;;;
      memcpy dest src size ;;;
      unlock l
  end.

Definition __atomic_compare_exchange_c
    (size ptr expected desired success failure : Z) : M Z :=
  match LOCK_FREE_CASES size with
  | Some ty =>
      d <- deref ty desired ;;
      b <- (if GNUC_NOT_CLANG cfg
            then builtin_atomic_compare_exchange ty ptr expected d true
                   success failure
            else builtin_atomic_compare_exchange ty ptr expected d false
                   success failure) ;;
      ret (if b then 1 else 0)
  | None =>
      let l := lock_for_pointer ptr in
      lock l ;;;
      c <- memcmp ptr expected size ;;
      if c =? 0 then
        memcpy ptr desired size ;;;
        unlock l ;;;
        ret 1
      else
        memcpy expected ptr size ;;;
        unlock l ;;;
        ret 0
  end.

Definition __atomic_exchange_c (size ptr val old model : Z) : M unit :=
  match LOCK_FREE_CASES size with
  | Some ty =>
      v <- deref ty val ;;
      r <- builtin_atomic_exchange ty ptr v model ;;
      assign ty old r
  | None =>
      let l := lock_for_pointer ptr in
      lock l ;;;
      memcpy old ptr size ;;;
      memcpy ptr val size ;;;
      unlock l
  end.

(** ** Sized entry points

    [__atomic_load_N w] stands for the function [__atomic_load_##n] that
    [OPTIMISED_CASE(n, lockfree, type)] defines for the type of width [w]. *)

Definition __atomic_load_N (w : width) (src model : Z) : M Z :=
  if lockfree w then builtin_atomic_load w src model
  else
    let l := lock_for_pointer src in
    lock l ;;;
    val <- deref w src ;;
    unlock l ;;;
    ret val.

Definition __atomic_store_N (w : width) (dest val model : Z) : M unit :=
  if lockfree w then builtin_atomic_store w dest val model
  else
    let l := lock_for_pointer dest in
    lock l ;;;
    assign w dest val ;;;
    unlock l.

Definition __atomic_exchange_N (w : width) (dest val model : Z) : M Z :=
  if lockfree w then builtin_atomic_exchange w dest val model
  else
    let l := lock_for_pointer dest in
    lock l ;;;
    tmp <- deref w dest ;;
    assign w dest val ;;;
    unlock l ;;;
    ret tmp.

Definition __atomic_compare_exchange_N
    (w : width) (ptr expected desired success failure : Z) : M bool :=
  if lockfree w then
    (if GNUC_NOT_CLANG cfg
     then builtin_atomic_compare_exchange w ptr expected desired true
            success failure
     else builtin_atomic_compare_exchange w ptr expected desired false
            success failure)
  else
    let l := lock_for_pointer ptr in
    lock l ;;;
    a <- deref w ptr ;;
    b <- deref w expected ;;
    if a =? b then
      assign w ptr desired ;;;
      unlock l ;;;
      ret true
    else
      cur <- deref w ptr ;;
      assign w expected cur ;;;
      unlock l ;;;
      ret false.

(** [ATOMIC_RMW(n, lockfree, type, opname, op)]:
    [__atomic_fetch_##opname##_##n]. *)
Definition __atomic_fetch_N (o : rmw) (w : width) (ptr val model : Z) : M Z :=
  if lockfree w then builtin_atomic_fetch o w ptr val model
  else
    let l := lock_for_pointer ptr in
    lock l ;;;
    tmp <- deref w ptr ;;
    assign w ptr (apply_op o w tmp val) ;;;
    unlock l ;;;
    ret tmp.

End Runtime.

(** ** The public surface as one type of calls *)

Inductive call : Type :=
| Load_c (size src dest model : Z)
| Store_c (size dest src model : Z)
| Compare_exchange_c (size ptr expected desired success failure : Z)
| Exchange_c (size ptr val old model : Z)
| Load_N (w : width) (src model : Z)
| Store_N (w : width) (dest val model : Z)
| Exchange_N (w : width) (dest val model : Z)
| Compare_exchange_N (w : width) (ptr expected desired success failure : Z)
| Fetch_N (o : rmw) (w : width) (ptr val model : Z).

Inductive value : Type :=
| VVoid
| VInt (z : Z)
| VBool (b : bool).

Definition run (cfg : Target) (c : call) : M value :=
  match c with
  | Load_c size src dest model =>
      __atomic_load_c cfg size src dest model ;;; ret VVoid
  | Store_c size dest src model =>
      __atomic_store_c cfg size dest src model ;;; ret VVoid
  | Compare_exchange_c size ptr expected desired success failure =>
      r <- __atomic_compare_exchange_c cfg size ptr expected desired
             success failure ;;
      ret (VInt r)
  | Exchange_c size ptr val old model =>
      __atomic_exchange_c cfg size ptr val old model ;;; ret VVoid
  | Load_N w src model =>
      r <- __atomic_load_N cfg w src model ;; ret (VInt r)
  | Store_N w dest val model =>
      __atomic_store_N cfg w dest val model ;;; ret VVoid
  | Exchange_N w dest val model =>
      r <- __atomic_exchange_N cfg w dest val model ;; ret (VInt r)
  | Compare_exchange_N w ptr expected desired success failure =>
      r <- __atomic_compare_exchange_N cfg w ptr expected desired
             success failure ;;
      ret (VBool r)
  | Fetch_N o w ptr val model =>
      r <- __atomic_fetch_N cfg o w ptr val model ;; ret (VInt r)
  end.

(** The address of the atomic object a call operates on (the pointer handed
    to [lock_for_pointer]) and the object's size in bytes. *)
Definition target (c : call) : Z :=
  match c with
  | Load_c _ src _ _ => src
  | Store_c _ dest _ _ => dest
  | Compare_exchange_c _ ptr _ _ _ _ => ptr
  | Exchange_c _ ptr _ _ _ => ptr
  | Load_N _ src _ => src
  | Store_N _ dest _ _ => dest
  | Exchange_N _ dest _ _ => dest
  | Compare_exchange_N _ ptr _ _ _ _ => ptr
  | Fetch_N _ _ ptr _ _ => ptr
  end.

Definition call_size (c : call) : Z :=
  match c with
  | Load_c size _ _ _ => size
  | Store_c size _ _ _ => size
  | Compare_exchange_c size _ _ _ _ _ => size
  | Exchange_c size _ _ _ _ => size
  | Load_N w _ _ => sizeof w
  | Store_N w _ _ _ => sizeof w
  | Exchange_N w _ _ _ => sizeof w
  | Compare_exchange_N w _ _ _ _ _ => sizeof w
  | Fetch_N _ w _ _ _ => sizeof w
  end.

(** The result buffers a call is handed besides the atomic object: [dest]
    of a generic load, [old] of a generic exchange, [expected] of a
    compare-exchange. *)
Definition result_buffers (c : call) : list Z :=
  match c with
  | Load_c _ _ dest _ => [dest]
  | Compare_exchange_c _ _ expected _ _ _ => [expected]
  | Exchange_c _ _ _ old _ => [old]
  | Compare_exchange_N _ _ expected _ _ _ => [expected]
  | _ => []
  end.

(** The capability query of the dispatch: the answer of the platform
    primitive for a size of 1, 2, 4 or 8 bytes. *)
Definition is_lock_free (cfg : Target) (size : Z) : bool :=
  if size =? 1 then IS_LOCK_FREE_1 cfg
  else if size =? 2 then IS_LOCK_FREE_2 cfg
  else if size =? 4 then IS_LOCK_FREE_4 cfg
  else if size =? 8 then IS_LOCK_FREE_8 cfg
  else false.

Definition slot_of (e : event) : Z :=
  match e with Acquire i => i | Release i => i end.

Definition all_unlocked : Z -> bool := fun _ => false.

(** The state a critical section on slot [l] leaves behind when it ends
    with memory [m]. *)
Definition after_cs (l : Z) (m : memory) (s : State) : State :=
  {| mem := m;
     locks := upd (upd (locks s) l true) l false;
     trace := (trace s ++ [Acquire l]) ++ [Release l];
     spurious := spurious s |}.

(** The five operators on mathematical integers, before any reduction. *)
Definition op_Z (o : rmw) (a b : Z) : Z :=
  match o with
  | Add => a + b
  | Sub => a - b
  | And => Z.land a b
  | Or => Z.lor a b
  | Xor => Z.lxor a b
  end.

(** An address lies outside the atomic object of a call and outside its
    result buffers. *)
Definition outside (c : call) (a : Z) : Prop :=
  ~ (target c <= a < target c + call_size c)
  /\ Forall (fun b => ~ (b <= a < b + call_size c)) (result_buffers c).

(** The lock events of one critical section on the slot of [ptr], none when
    the size is dispatched to a native instruction. *)
Definition cs_events (cfg : Target) (size ptr : Z) : list event :=
  if is_lock_free cfg size then []
  else [Acquire (lock_for_pointer cfg ptr); Release (lock_for_pointer cfg ptr)].

(** The compare-exchange builtin behaves as the strong one unless it is asked
    to be weak and the coming attempt is doomed. *)
Definition no_spurious_failure (weak : bool) (s : State) : Prop :=
  weak = false \/ spurious s = [] \/ exists rest, spurious s = false :: rest.

Definition width_of_size (size : Z) : option width :=
  if size =? 1 then Some W1
  else if size =? 2 then Some W2
  else if size =? 4 then Some W4
  else if size =? 8 then Some W8
  else if size =? 16 then Some W16
  else None.

(** What [LOCK_FREE_ACTION] (generic entry points) and the [if (lockfree)]
    branch (sized ones) do: the call expressed with builtins only. *)
Definition native (cfg : Target) (c : call) : M value :=
  let weak := GNUC_NOT_CLANG cfg in
  match c with
  | Load_c size src dest model =>
      match width_of_size size with
      | Some ty =>
          v <- builtin_atomic_load cfg ty src model ;;
          assign cfg ty dest v ;;; ret VVoid
      | None => fun _ => Undefined
      end
  | Store_c size dest src model =>
      match width_of_size size with
      | Some ty =>
          v <- deref cfg ty src ;;
          builtin_atomic_store cfg ty dest v model ;;; ret VVoid
      | None => fun _ => Undefined
      end
  | Compare_exchange_c size ptr expected desired success failure =>
      match width_of_size size with
      | Some ty =>
          d <- deref cfg ty desired ;;
          b <- builtin_atomic_compare_exchange cfg ty ptr expected d weak
                 success failure ;;
          ret (VInt (if b then 1 else 0))
      | None => fun _ => Undefined
      end
  | Exchange_c size ptr val old model =>
      match width_of_size size with
      | Some ty =>
          v <- deref cfg ty val ;;
          r <- builtin_atomic_exchange cfg ty ptr v model ;;
          assign cfg ty old r ;;; ret VVoid
      | None => fun _ => Undefined
      end
  | Load_N w src model =>
      r <- builtin_atomic_load cfg w src model ;; ret (VInt r)
  | Store_N w dest val model =>
      builtin_atomic_store cfg w dest val model ;;; ret VVoid
  | Exchange_N w dest val model =>
      r <- builtin_atomic_exchange cfg w dest val model ;; ret (VInt r)
  | Compare_exchange_N w ptr expected desired success failure =>
      r <- builtin_atomic_compare_exchange cfg w ptr expected desired weak
             success failure ;;
      ret (VBool r)
  | Fetch_N o w ptr val model =>
      r <- builtin_atomic_fetch cfg o w ptr val model ;; ret (VInt r)
  end.

(** ** The generic fetch-op of the public surface *)

(** Modelled from the spec: [fetch_add|sub|and|or|xor(size, ptr, operand,
    order) -> old_value] with a runtime byte size.  [atomic.c] defines the
    fetch family per width only ([ATOMIC_RMW]); this is the generic form as
    the design words it: when the size is lock-free forward to the native
    instruction, otherwise, under the one lock slot of the address,
    interpret the [size] bytes as an unsigned integer of that width,
    compute [old op operand] with wraparound matching the width, write the
    result and return the prior value. *)
Definition spec_fetch_op (cfg : Target) (o : rmw) (size ptr operand order : Z)
    : M Z := fun s =>
  if size <? 0 then Undefined
  else
    let n := Z.to_nat size in
    let read_modify_write : M Z := fun s1 =>
      let old := decode cfg (load_bytes (mem s1) ptr n) in
      let new := op_Z o old operand mod 2 ^ (8 * size) in
      Ret old (set_mem (store_bytes (mem s1) ptr (encode_bytes cfg n new)) s1) in
    if is_lock_free cfg size then read_modify_write s
    else
      let l := lock_for_pointer cfg ptr in
      (lock l ;;; old <- read_modify_write ;; unlock l ;;; ret old) s.

(** Two states hold the same bytes, the same lock flags, the same lock
    events and the same pending compare-exchange fates. *)
Definition same_state (s1 s2 : State) : Prop :=
  (forall a, mem s1 a = mem s2 a)
  /\ (forall i, locks s1 i = locks s2 i)
  /\ trace s1 = trace s2
  /\ spurious s1 = spurious s2.

(** ** The hash as the design states it

    Shift the address right by the four alignment bits, take the low
    [log2 N] bits as the primary index, take the range sixteen bits further
    up, fold it in with XOR and reduce into [[0, N)]. *)
Definition spec_lock_index (N addr : Z) : Z :=
  let shifted := addr / 2 ^ 4 in
  let primary := shifted mod N in
  let higher := shifted / 2 ^ 16 in
  (Z.lxor higher primary) mod N.

(** ** Sample targets and states *)

(** A 64-bit little-endian clang build with the default table. *)
Definition clang_x86_64 : Target :=
  {| SPINLOCK_COUNT := Z.shiftl 1 10; INTPTR_BITS := 64;
     IS_LOCK_FREE_1 := true; IS_LOCK_FREE_2 := true;
     IS_LOCK_FREE_4 := true; IS_LOCK_FREE_8 := true;
     SIZEOF_INT128 := true; GNUC_NOT_CLANG := false; BIG_ENDIAN := false |}.

(** A 32-bit big-endian GCC build: no native 8-byte atomics, no
    [__uint128_t]. *)
Definition gcc_ppc32 : Target :=
  {| SPINLOCK_COUNT := Z.shiftl 1 10; INTPTR_BITS := 32;
     IS_LOCK_FREE_1 := true; IS_LOCK_FREE_2 := true;
     IS_LOCK_FREE_4 := true; IS_LOCK_FREE_8 := false;
     SIZEOF_INT128 := false; GNUC_NOT_CLANG := true; BIG_ENDIAN := true |}.

(** A target without any native atomics: every call takes the lock. *)
Definition no_native : Target :=
  {| SPINLOCK_COUNT := Z.shiftl 1 10; INTPTR_BITS := 64;
     IS_LOCK_FREE_1 := false; IS_LOCK_FREE_2 := false;
     IS_LOCK_FREE_4 := false; IS_LOCK_FREE_8 := false;
     SIZEOF_INT128 := true; GNUC_NOT_CLANG := false; BIG_ENDIAN := false |}.

Definition zero_memory : memory := fun _ => x00.

(** Freshly started process: zeroed memory, every slot unlocked. *)
Definition initial_state : State :=
  {| mem := zero_memory; locks := all_unlocked; trace := []; spurious := [] |}.

(** Eight bytes [11 22 33 44 55 66 77 88] at address 0, zeroes elsewhere. *)
Definition sample_memory : memory :=
  store_bytes zero_memory 0 [x11; x22; x33; x44; x55; x66; x77; x88].

Definition sample_state : State :=
  {| mem := sample_memory; locks := all_unlocked; trace := []; spurious := [] |}.

(** Eight zero bytes at [ptr] and at [expected], a fresh value at [desired],
    and a weak compare-exchange about to lose its reservation. *)
Definition doomed_state : State :=
  {| mem := store_bytes zero_memory 32 [x00; x00; x00; x2a];
     locks := all_unlocked; trace := []; spurious := [true] |}.

(** ** Threads on the locked path of [__atomic_fetch_add_##n]

    A thread calls [fetch_add(ptr, 1)] a number of times.  Between two
    scheduling points it performs one step of the locked branch of
    [ATOMIC_RMW]: an attempt of [lock(l)] (which makes no progress while the
    slot is held), [tmp = *ptr], [*ptr = tmp + val], or [unlock(l)] followed
    by the return. *)

Inductive point : Type :=
| AtLock
| AtRead
| AtWrite (tmp : Z)
| AtUnlock (tmp : Z).

Record thread : Type := {
  todo : nat;        (* calls still to complete, the current one included *)
  now : point
}.

Definition thread_next (cfg : Target) (w : width) (ptr : Z) (t : thread)
    : M thread :=
  let l := lock_for_pointer cfg ptr in
  match todo t with
  | O => ret t
  | S k =>
      match now t with
      | AtLock =>
          lock l ;;;
          ret {| todo := S k; now := AtRead |}
      | AtRead =>
          tmp <- deref cfg w ptr ;;
          ret {| todo := S k; now := AtWrite tmp |}
      | AtWrite tmp =>
          assign cfg w ptr (apply_op Add w tmp 1) ;;;
          ret {| todo := S k; now := AtUnlock tmp |}
      | AtUnlock tmp =>
          unlock l ;;;
          ret {| todo := k; now := AtLock |}
      end
  end.

Fixpoint replace_nth {A : Type} (i : nat) (x : A) (l : list A) : list A :=
  match l, i with
  | [], _ => []
  | _ :: r, O => x :: r
  | y :: r, S j => y :: replace_nth j x r
  end.

(** The scheduler lets thread [i] take one step; a thread that cannot move
    (finished, absent, or spinning on the held slot) leaves everything as it
    is. *)
Definition sched_step (cfg : Target) (w : width) (ptr : Z) (i : nat)
    (c : list thread * State) : list thread * State :=
  match nth_error (fst c) i with
  | Some t =>
      match thread_next cfg w ptr t (snd c) with
      | Ret t' s' => (replace_nth i t' (fst c), s')
      | _ => c
      end
  | None => c
  end.

(** An interleaving is the sequence of thread indices the scheduler picks. *)
Definition run_schedule (cfg : Target) (w : width) (ptr : Z)
    (sched : list nat) (c : list thread * State) : list thread * State :=
  fold_left (fun c i => sched_step cfg w ptr i c) sched c.

(** [N] threads, each about to make [M] calls. *)
Definition spawn (N M : nat) : list thread :=
  repeat {| todo := M; now := AtLock |} N.

Definition finished (ts : list thread) : bool :=
  forallb (fun t => Nat.eqb (todo t) 0) ts.

Fixpoint total (f : thread -> nat) (ts : list thread) : nat :=
  match ts with
  | [] => O
  | t :: r => (f t + total f r)%nat
  end.

(** Increments a thread has already written to memory, out of [M] calls. *)
Definition written (M : nat) (t : thread) : nat :=
  (M - todo t + match now t with AtUnlock _ => 1 | _ => 0 end)%nat.

(** 1 when the thread is inside its critical section. *)
Definition in_cs (t : thread) : nat :=
  match now t with AtLock => 0 | _ => 1 end%nat.

(** Steps a thread still has to take. *)
Definition steps_left (t : thread) : nat :=
  (4 * todo t - match now t with
                | AtLock => 0 | AtRead => 1 | AtWrite _ => 2 | AtUnlock _ => 3
                end)%nat.

(** What holds of one thread when the location holds [v]: it has at most
    [M] calls left, is outside the critical section once done, and a value
    it has read and not yet written back is the current one. *)
Definition thread_ok (M : nat) (v : Z) (t : thread) : Prop :=
  (todo t <= M)%nat
  /\ (todo t = O -> now t = AtLock)
  /\ (forall tmp, now t = AtWrite tmp -> tmp = v).

(** The invariant of the interleaved runs: the location holds the initial
    value plus every increment written so far, reduced to the width, and the
    slot is held exactly when one thread is inside its critical section. *)
Definition fetch_add_invariant (cfg : Target) (w : width) (ptr : Z)
    (M : nat) (v0 : Z) (c : list thread * State) : Prop :=
  Forall (thread_ok M (read_uint cfg w (mem (snd c)) ptr)) (fst c)
  /\ read_uint cfg w (mem (snd c)) ptr
     = (v0 + Z.of_nat (total (written M) (fst c))) mod modulus w
  /\ total in_cs (fst c)
     = (if locks (snd c) (lock_for_pointer cfg ptr) then 1 else 0)%nat.

(** Two threads taking turns: thread 0 completes a call while thread 1
    spins on the slot, then thread 1 completes one; [rounds] times over. *)
Definition taking_turns (rounds : nat) : list nat :=
  concat (repeat [0; 1; 0; 1; 0; 1; 0; 1; 1; 1; 1]%nat rounds).

(** ** OS version probe ([os_version_check.c]) *)

Module OSVersion.

(** [GlobalMajor], [GlobalMinor], [GlobalSubminor] and the
    [dispatch_once] counter. *)
Record Globals : Type := {
  GlobalMajor : Z;
  GlobalMinor : Z;
  GlobalSubminor : Z;
  DispatchOnceCounter : bool
}.

(** Static storage starts zeroed. *)
Definition startup : Globals :=
  {| GlobalMajor := 0; GlobalMinor := 0; GlobalSubminor := 0;
     DispatchOnceCounter := false |}.

(** [sscanf(VersionStr, "%d.%d.%d", ...)] assigns the fields it manages to
    convert, left to right, and leaves the others alone. *)
Definition store_scanned (fields : list Z) (g : Globals) : Globals :=
  match fields with
  | [] => g
  | [a] =>
      {| GlobalMajor := a; GlobalMinor := GlobalMinor g;
         GlobalSubminor := GlobalSubminor g;
         DispatchOnceCounter := DispatchOnceCounter g |}
  | [a; b] =>
      {| GlobalMajor := a; GlobalMinor := b;
         GlobalSubminor := GlobalSubminor g;
         DispatchOnceCounter := DispatchOnceCounter g |}
  | a :: b :: c :: _ =>
      {| GlobalMajor := a; GlobalMinor := b; GlobalSubminor := c;
         DispatchOnceCounter := DispatchOnceCounter g |}
  end.

(** [parseSystemVersionPList].  The host is what the function meets at run
    time: [None] when a symbol lookup, the property list or the
    ["ProductVersion"] string is missing and the function returns early,
    [Some fields] for the integers [sscanf] converts. *)
Definition parseSystemVersionPList (host : option (list Z)) (g : Globals) : Globals :=
  match host with
  | None => g
  | Some fields => store_scanned fields g
  end.

(** The population step: [dispatch_once_f] when the deployment target is at
    least 10.6, the [GlobalMajor == 0] test otherwise. *)
Definition populate (min_required_1060 : bool) (host : option (list Z))
    (g : Globals) : Globals :=
  if min_required_1060 then
    if DispatchOnceCounter g then g
    else
      let g' := parseSystemVersionPList host g in
      {| GlobalMajor := GlobalMajor g'; GlobalMinor := GlobalMinor g';
         GlobalSubminor := GlobalSubminor g'; DispatchOnceCounter := true |}
  else if GlobalMajor g =? 0 then parseSystemVersionPList host g
  else g.

Definition __isOSVersionAtLeast (min_required_1060 : bool)
    (host : option (list Z)) (Major Minor Subminor : Z) (g : Globals)
    : Z * Globals :=
  let g := populate min_required_1060 host g in
  (if Major <? GlobalMajor g then 1
   else if GlobalMajor g <? Major then 0
   else if Minor <? GlobalMinor g then 1
   else if GlobalMinor g <? Minor then 0
   else if Subminor <=? GlobalSubminor g then 1 else 0,
   g).

(** Lexicographic order on version triples. *)
Definition lex_le (a b : Z * Z * Z) : Prop :=
  let '(a1, a2, a3) := a in
  let '(b1, b2, b3) := b in
  a1 < b1 \/ (a1 = b1 /\ (a2 < b2 \/ (a2 = b2 /\ a3 <= b3))).

(** The cached host version. *)
Definition cached (g : Globals) : Z * Z * Z :=
  (GlobalMajor g, GlobalMinor g, GlobalSubminor g).

End OSVersion.

(** ** Programs of calls *)

(** A single thread issuing the calls of [cs] one after the other. *)
Fixpoint run_all (cfg : Target) (cs : list call) : M (list value) :=
  match cs with
  | [] => ret []
  | c :: rest =>
      r <- run cfg c ;;
      rs <- run_all cfg rest ;;
      ret (r :: rs)
  end.

(** A lock trace made of complete critical sections: every acquire is
    followed at once by the release of the same slot. *)
Fixpoint critical_sections (evs : list event) : bool :=
  match evs with
  | [] => true
  | Acquire i :: Release j :: rest => (i =? j) && critical_sections rest
  | _ => false
  end.

(** ** Clocks ([chrono.cpp])

    The duration types come from the [<chrono>] header, which is not part of
    the source; they are used with their standard meaning.  A duration is a
    signed 64-bit count ([long long]) of ticks; [seconds(x) + microseconds(y)]
    is computed in microseconds, [seconds(x) + nanoseconds(y)] in
    nanoseconds; [duration_cast] to a coarser unit divides, truncating
    towards zero; [system_clock] counts microseconds and [steady_clock]
    nanoseconds. *)

Module Chrono.

Definition INT64_MIN : Z := - 2 ^ 63.
Definition INT64_MAX : Z := 2 ^ 63 - 1.

(** A clock read yields a tick count, overflows the signed count (no defined
    behaviour), divides by zero, or reports the failure of the system call
    through [__throw_system_error]. *)
Inductive reading : Type :=
| Ticks (count : Z)
| Overflow
| DivideByZero
| SystemError.

(** A [long long] result: defined when it is representable. *)
Definition checked (z : Z) : reading :=
  if (INT64_MIN <=? z) && (z <=? INT64_MAX) then Ticks z else Overflow.

Definition and_then (r : reading) (k : Z -> reading) : reading :=
  match r with
  | Ticks z => k z
  | other => other
  end.

(** [seconds(sec) + microseconds(usec)]. *)
Definition seconds_plus_microseconds (sec usec : Z) : reading :=
  and_then (checked (sec * 1000000)) (fun a => checked (a + usec)).

(** [seconds(sec) + nanoseconds(nsec)]. *)
Definition seconds_plus_nanoseconds (sec nsec : Z) : reading :=
  and_then (checked (sec * 1000000000)) (fun a => checked (a + nsec)).

(** [system_clock::now()] where [CLOCK_REALTIME] is defined; [rc] is what
    [clock_gettime] returned and [tv_sec], [tv_nsec] what it stored. *)
Definition system_clock_now (rc tv_sec tv_nsec : Z) : reading :=
  if rc =? 0
  then seconds_plus_microseconds tv_sec (Z.quot tv_nsec 1000)
  else SystemError.

(** [system_clock::now()] through [gettimeofday]. *)
Definition system_clock_now_gettimeofday (tv_sec tv_usec : Z) : reading :=
  seconds_plus_microseconds tv_sec tv_usec.

(** Conversion of a [long long] to [time_t], a signed integer of
    [time_t_bits] bits (32 or 64 depending on the target). *)
Definition time_t_of (time_t_bits z : Z) : Z :=
  let u := z mod 2 ^ time_t_bits in
  if u <? 2 ^ (time_t_bits - 1) then u else u - 2 ^ time_t_bits.

(** [system_clock::to_time_t]: [duration_cast<seconds>] of the microsecond
    count, converted to [time_t]. *)
Definition to_time_t (time_t_bits t : Z) : Z :=
  time_t_of time_t_bits (Z.quot t 1000000).

(** [system_clock::from_time_t]: [seconds(t)] as a microsecond count. *)
Definition from_time_t (t : Z) : reading := checked (t * 1000000).

(** [steady_clock::now()] through [clock_gettime(CLOCK_MONOTONIC)] or
    [clock_gettime(CLOCK_MONOTONIC_RAW)]. *)
Definition steady_clock_now (rc tv_sec tv_nsec : Z) : reading :=
  if rc =? 0
  then seconds_plus_nanoseconds tv_sec tv_nsec
  else SystemError.

(** [steady_clock::now()] of the Windows branch:
    [counter.QuadPart * nano::den / freq.QuadPart]. *)
Definition steady_clock_now_win32 (freq counter : Z) : reading :=
  and_then (checked (counter * 1000000000))
    (fun product => if freq =? 0 then DivideByZero else Ticks (Z.quot product freq)).

(** The nanosecond field of a [timespec] as the system fills it in. *)
Definition valid_nsec (tv_nsec : Z) : Prop := 0 <= tv_nsec < 1000000000.

(** [x] is a value of the type [time_t]. *)
Definition is_time_t (time_t_bits x : Z) : Prop :=
  - 2 ^ (time_t_bits - 1) <= x < 2 ^ (time_t_bits - 1).

End Chrono.

(** ** Facts about bytes and encodings *)

Lemma byte_to_Z_range (b : byte) : 0 <= byte_to_Z b < 256.
Proof.
  unfold byte_to_Z. pose proof (Byte.to_N_bounded b) as H.
  split; [apply N2Z.is_nonneg|]. apply N2Z.inj_le in H. simpl in H. lia.
Qed.

Lemma byte_to_of_Z (z : Z) : byte_to_Z (byte_of_Z z) = z mod 256.
Proof.
  unfold byte_of_Z, byte_to_Z.
  assert (Hr : 0 <= z mod 256 < 256) by (apply Z.mod_pos_bound; lia).
  destruct (Byte.of_N (Z.to_N (z mod 256))) as [b|] eqn:E.
  - apply Byte.to_of_N in E. rewrite E. rewrite Z2N.id; lia.
  - apply Byte.of_N_None_iff in E. lia.
Qed.

Lemma byte_of_to_Z (b : byte) : byte_of_Z (byte_to_Z b) = b.
Proof.
  unfold byte_of_Z. pose proof (byte_to_Z_range b) as Hr.
  rewrite Z.mod_small by lia. unfold byte_to_Z.
  rewrite N2Z.id, Byte.of_to_N. reflexivity.
Qed.

Lemma le_split_length (n : nat) (v : Z) : length (le_split n v) = n.
Proof. revert v; induction n; intros; simpl; auto. Qed.

Lemma le_combine_range (bs : list byte) :
  0 <= le_combine bs < 2 ^ (8 * Z.of_nat (length bs)).
Proof.
  induction bs as [|b r IH].
  - simpl. lia.
  - cbn [le_combine length]. pose proof (byte_to_Z_range b) as Hb.
    rewrite Nat2Z.inj_succ.
    replace (8 * Z.succ (Z.of_nat (length r))) with (8 + 8 * Z.of_nat (length r)) by lia.
    rewrite Z.pow_add_r by lia. change (2 ^ 8) with 256. nia.
Qed.

Lemma le_split_combine (bs : list byte) :
  le_split (length bs) (le_combine bs) = bs.
Proof.
  induction bs as [|b r IH]; [reflexivity|].
  cbn [length le_split le_combine]. pose proof (byte_to_Z_range b) as Hb. f_equal.
  - rewrite <- (byte_of_to_Z b) at 2. unfold byte_of_Z.
    replace ((byte_to_Z b + 256 * le_combine r) mod 256) with (byte_to_Z b mod 256); auto.
    rewrite (Z.mul_comm 256), Z.mod_add by lia. reflexivity.
  - replace ((byte_to_Z b + 256 * le_combine r) / 256) with (le_combine r); auto.
    rewrite (Z.mul_comm 256), Z.div_add by lia.
    rewrite Z.div_small by lia. lia.
Qed.

Lemma le_combine_split (n : nat) (v : Z) :
  le_combine (le_split n v) = v mod 2 ^ (8 * Z.of_nat n).
Proof.
  revert v; induction n as [|n IH]; intros v.
  - simpl. rewrite Z.mod_1_r. reflexivity.
  - cbn [le_split le_combine]. rewrite IH, byte_to_of_Z, Nat2Z.inj_succ.
    replace (8 * Z.succ (Z.of_nat n)) with (8 + 8 * Z.of_nat n) by lia.
    rewrite Z.pow_add_r by lia. change (2 ^ 8) with 256.
    rewrite Z.rem_mul_r by lia. reflexivity.
Qed.

Lemma load_bytes_length (m : memory) (p : Z) (n : nat) :
  length (load_bytes m p n) = n.
Proof. unfold load_bytes. rewrite length_map, length_seq. reflexivity. Qed.

Lemma load_bytes_ext (m1 m2 : memory) (p : Z) (n : nat) :
  (forall a, p <= a < p + Z.of_nat n -> m1 a = m2 a) ->
  load_bytes m1 p n = load_bytes m2 p n.
Proof.
  intros H. unfold load_bytes. apply map_ext_in. intros i Hi.
  apply in_seq in Hi. apply H. lia.
Qed.

Lemma store_bytes_outside (m : memory) (p : Z) (bs : list byte) (a : Z) :
  ~ (p <= a < p + Z.of_nat (length bs)) -> store_bytes m p bs a = m a.
Proof.
  intros H. unfold store_bytes, in_range.
  destruct (p <=? a) eqn:E1; destruct (a <? p + Z.of_nat (length bs)) eqn:E2;
    simpl; auto. exfalso. apply H. lia.
Qed.

Lemma store_bytes_inside (m : memory) (p : Z) (bs : list byte) (i : nat) :
  (i < length bs)%nat -> store_bytes m p bs (p + Z.of_nat i) = nth i bs x00.
Proof.
  intros H. unfold store_bytes, in_range.
  replace (p <=? p + Z.of_nat i) with true by (symmetry; apply Z.leb_le; lia).
  replace (p + Z.of_nat i <? p + Z.of_nat (length bs)) with true
    by (symmetry; apply Z.ltb_lt; lia).
  simpl. replace (p + Z.of_nat i - p) with (Z.of_nat i) by lia.
  rewrite Nat2Z.id. reflexivity.
Qed.

Lemma load_store_same (m : memory) (p : Z) (bs : list byte) :
  load_bytes (store_bytes m p bs) p (length bs) = bs.
Proof.
  apply nth_ext with (d := x00) (d' := x00).
  - apply load_bytes_length.
  - intros i Hi. rewrite load_bytes_length in Hi. unfold load_bytes.
    rewrite nth_indep with (d' := (fun i => store_bytes m p bs (p + Z.of_nat i)) O)
      by (rewrite length_map, length_seq; exact Hi).
    rewrite (map_nth (fun i => store_bytes m p bs (p + Z.of_nat i))).
    rewrite seq_nth by exact Hi. simpl. apply store_bytes_inside. exact Hi.
Qed.

Lemma load_store_same_n (m : memory) (p : Z) (bs : list byte) (n : nat) :
  length bs = n -> load_bytes (store_bytes m p bs) p n = bs.
Proof. intros <-. apply load_store_same. Qed.

Lemma load_store_other (m : memory) (p q : Z) (bs : list byte) (n : nat) :
  disjoint q (Z.of_nat n) p (Z.of_nat (length bs)) ->
  load_bytes (store_bytes m p bs) q n = load_bytes m q n.
Proof.
  intros H. apply load_bytes_ext. intros a Ha.
  apply store_bytes_outside. unfold disjoint in H. lia.
Qed.

(** ** Typed accesses: round trips and frames *)

Section AccessFacts.

Variable cfg : Target.

Lemma sizeof_pos (w : width) : 0 < sizeof w.
Proof. destruct w; reflexivity. Qed.

Lemma modulus_eq (w : width) :
  modulus w = 2 ^ (8 * Z.of_nat (Z.to_nat (sizeof w))).
Proof. unfold modulus. rewrite Z2Nat.id; [reflexivity | destruct w; simpl; lia]. Qed.

Lemma encode_length (w : width) (v : Z) :
  length (encode cfg w v) = Z.to_nat (sizeof w).
Proof.
  unfold encode, encode_bytes. destruct (BIG_ENDIAN cfg);
    [rewrite length_rev|]; apply le_split_length.
Qed.

Lemma encode_length_Z (w : width) (v : Z) :
  Z.of_nat (length (encode cfg w v)) = sizeof w.
Proof. rewrite encode_length, Z2Nat.id; [reflexivity | destruct w; simpl; lia]. Qed.

Lemma decode_encode (w : width) (v : Z) : decode cfg (encode cfg w v) = wrap w v.
Proof.
  unfold decode, encode, encode_bytes, wrap. rewrite modulus_eq.
  destruct (BIG_ENDIAN cfg); [rewrite rev_involutive|]; apply le_combine_split.
Qed.

Lemma encode_decode (w : width) (bs : list byte) :
  length bs = Z.to_nat (sizeof w) -> encode cfg w (decode cfg bs) = bs.
Proof.
  intros H. unfold decode, encode, encode_bytes. destruct (BIG_ENDIAN cfg).
  - rewrite <- H, <- length_rev, le_split_combine. apply rev_involutive.
  - rewrite <- H. apply le_split_combine.
Qed.

Lemma decode_range (w : width) (bs : list byte) :
  length bs = Z.to_nat (sizeof w) -> 0 <= decode cfg bs < modulus w.
Proof.
  intros H. rewrite modulus_eq, <- H. unfold decode.
  destruct (BIG_ENDIAN cfg).
  - rewrite <- length_rev. apply le_combine_range.
  - apply le_combine_range.
Qed.

Lemma decode_inj (w : width) (xs ys : list byte) :
  length xs = Z.to_nat (sizeof w) -> length ys = Z.to_nat (sizeof w) ->
  decode cfg xs = decode cfg ys -> xs = ys.
Proof.
  intros Hx Hy H. rewrite <- (encode_decode w xs Hx), <- (encode_decode w ys Hy).
  rewrite H. reflexivity.
Qed.

Lemma read_uint_range (w : width) (m : memory) (p : Z) :
  0 <= read_uint cfg w m p < modulus w.
Proof. apply decode_range, load_bytes_length. Qed.

Lemma read_write_same (w : width) (m : memory) (p v : Z) :
  read_uint cfg w (write_uint cfg w m p v) p = wrap w v.
Proof.
  unfold read_uint, write_uint. rewrite <- (encode_length w v) at 1.
  rewrite load_store_same. apply decode_encode.
Qed.

Lemma write_uint_outside (w : width) (m : memory) (p v a : Z) :
  ~ (p <= a < p + sizeof w) -> write_uint cfg w m p v a = m a.
Proof.
  intros H. unfold write_uint. apply store_bytes_outside.
  rewrite encode_length_Z. exact H.
Qed.

Lemma compare_bytes_eq (xs ys : list byte) :
  length xs = length ys -> (compare_bytes xs ys = 0 <-> xs = ys).
Proof.
  revert ys; induction xs as [|x xs IH]; intros [|y ys] Hl; simpl in *;
    try discriminate; [tauto|].
  pose proof (byte_to_Z_range x). pose proof (byte_to_Z_range y).
  destruct (byte_to_Z x <? byte_to_Z y) eqn:E1;
    [apply Z.ltb_lt in E1; split; [discriminate | intros [= -> _]; lia]|].
  destruct (byte_to_Z y <? byte_to_Z x) eqn:E2;
    [apply Z.ltb_lt in E2; split; [discriminate | intros [= -> _]; lia]|].
  apply Z.ltb_ge in E1, E2.
  assert (x = y) by (rewrite <- (byte_of_to_Z x), <- (byte_of_to_Z y); f_equal; lia).
  subst y. rewrite IH by lia. split; [intros ->; reflexivity | intros [= ->]; reflexivity].
Qed.

End AccessFacts.

(** ** The pointer hash *)

Section HashFacts.

Variable cfg : Target.
Variable k : Z.
Hypothesis k_nonneg : 0 <= k.
Hypothesis count_pow2 : SPINLOCK_COUNT cfg = 2 ^ k.

Lemma mask_ones : SPINLOCK_MASK cfg = Z.ones k.
Proof. unfold SPINLOCK_MASK. rewrite count_pow2, Z.ones_equiv. lia. Qed.

Lemma lock_for_pointer_range (ptr : Z) :
  0 <= lock_for_pointer cfg ptr < SPINLOCK_COUNT cfg.
Proof.
  unfold lock_for_pointer. rewrite mask_ones, !Z.land_ones by exact k_nonneg.
  rewrite count_pow2. apply Z.mod_pos_bound. apply Z.pow_pos_nonneg; lia.
Qed.

Lemma lock_for_pointer_spec (ptr : Z) :
  lock_for_pointer cfg ptr
  = spec_lock_index (SPINLOCK_COUNT cfg) (intptr_of cfg ptr).
Proof.
  unfold lock_for_pointer, spec_lock_index.
  rewrite mask_ones, !Z.land_ones by exact k_nonneg.
  rewrite !Z.shiftr_div_pow2 by lia. rewrite count_pow2. reflexivity.
Qed.

Lemma lock_for_pointer_bits (ptr i : Z) :
  0 <= i ->
  Z.testbit (lock_for_pointer cfg ptr) i
  = (i <? k) && xorb (Z.testbit (intptr_of cfg ptr) (i + 4))
                     (Z.testbit (intptr_of cfg ptr) (i + 20)).
Proof.
  intros Hi. unfold lock_for_pointer. rewrite mask_ones.
  rewrite Z.land_spec, Z.lxor_spec, Z.land_spec, !Z.shiftr_spec by lia.
  rewrite Z.testbit_ones by exact k_nonneg.
  replace (0 <=? i) with true by (symmetry; apply Z.leb_le; exact Hi).
  replace (i + 16 + 4) with (i + 20) by lia.
  destruct (Z.testbit (intptr_of cfg ptr) (i + 4)),
           (Z.testbit (intptr_of cfg ptr) (i + 20)), (i <? k); reflexivity.
Qed.

Lemma intptr_of_bits (ptr j : Z) :
  0 <= j < INTPTR_BITS cfg ->
  Z.testbit (intptr_of cfg ptr) j = Z.testbit ptr j.
Proof.
  intros Hj. unfold intptr_of.
  assert (Hpos : 0 < 2 ^ INTPTR_BITS cfg) by (apply Z.pow_pos_nonneg; lia).
  destruct (_ <? _).
  - apply Z.mod_pow2_bits_low. lia.
  - rewrite <- (Z.mod_pow2_bits_low _ (INTPTR_BITS cfg)) by lia.
    replace (ptr mod 2 ^ INTPTR_BITS cfg - 2 ^ INTPTR_BITS cfg)
      with (ptr mod 2 ^ INTPTR_BITS cfg + (-1) * 2 ^ INTPTR_BITS cfg) by lia.
    rewrite Z.mod_add by lia. rewrite Z.mod_mod by lia.
    apply Z.mod_pow2_bits_low. lia.
Qed.

Lemma lock_for_pointer_address_bits (ptr i : Z) :
  k + 20 <= INTPTR_BITS cfg -> 0 <= i ->
  Z.testbit (lock_for_pointer cfg ptr) i
  = (i <? k) && xorb (Z.testbit ptr (i + 4)) (Z.testbit ptr (i + 20)).
Proof.
  intros Hk Hi. rewrite lock_for_pointer_bits by exact Hi.
  destruct (i <? k) eqn:E; [|reflexivity]. apply Z.ltb_lt in E.
  rewrite !intptr_of_bits by lia. reflexivity.
Qed.

End HashFacts.

(** C5. For every address, [lock_for_pointer] is a total function of the
    address alone whose result is a slot index in [[0, N)]: the address
    shifted right by 4 bits, its low [log2 N] bits as primary index, XOR-ed
    with the range 16 bits further up and masked into the table; bit [i] of
    the index is bit [i+4] XOR bit [i+20] of the address. *)
Theorem lock_for_pointer_hash (cfg : Target) (k ptr : Z) :
  0 <= k ->
  SPINLOCK_COUNT cfg = 2 ^ k ->
  0 <= lock_for_pointer cfg ptr < SPINLOCK_COUNT cfg
  /\ lock_for_pointer cfg ptr
     = spec_lock_index (SPINLOCK_COUNT cfg) (intptr_of cfg ptr)
  /\ (forall i, 0 <= i ->
        Z.testbit (lock_for_pointer cfg ptr) i
        = (i <? k) && xorb (Z.testbit (intptr_of cfg ptr) (i + 4))
                           (Z.testbit (intptr_of cfg ptr) (i + 20)))
  /\ (k + 20 <= INTPTR_BITS cfg ->
      forall i, 0 <= i ->
        Z.testbit (lock_for_pointer cfg ptr) i
        = (i <? k) && xorb (Z.testbit ptr (i + 4)) (Z.testbit ptr (i + 20))).
Proof.
  intros Hk HN. split; [|split; [|split]].
  - apply (lock_for_pointer_range cfg k Hk HN).
  - apply (lock_for_pointer_spec cfg k Hk HN).
  - intros i Hi. apply (lock_for_pointer_bits cfg k Hk HN). exact Hi.
  - intros Hb i Hi. apply (lock_for_pointer_address_bits cfg k Hk HN); assumption.
Qed.

Lemma lock_for_pointer_hash_witness :
  0 <= lock_for_pointer clang_x86_64 74565 < SPINLOCK_COUNT clang_x86_64
  /\ lock_for_pointer clang_x86_64 74565
     = spec_lock_index (SPINLOCK_COUNT clang_x86_64) (intptr_of clang_x86_64 74565)
  /\ (forall i, 0 <= i ->
        Z.testbit (lock_for_pointer clang_x86_64 74565) i
        = (i <? 10) && xorb (Z.testbit (intptr_of clang_x86_64 74565) (i + 4))
                            (Z.testbit (intptr_of clang_x86_64 74565) (i + 20)))
  /\ (10 + 20 <= INTPTR_BITS clang_x86_64 ->
      forall i, 0 <= i ->
        Z.testbit (lock_for_pointer clang_x86_64 74565) i
        = (i <? 10) && xorb (Z.testbit 74565 (i + 4)) (Z.testbit 74565 (i + 20))).
Proof.
  apply (lock_for_pointer_hash clang_x86_64 10 74565); [lia | reflexivity].
Defined.

(** The address 0x12345 uses slot 0x234; so does every address of its
    16-byte line, and an address 2^20 further up is folded elsewhere. *)
Example lock_for_pointer_samples :
  lock_for_pointer clang_x86_64 0x12345 = 0x234
  /\ lock_for_pointer clang_x86_64 0x1234f = 0x234
  /\ lock_for_pointer clang_x86_64 (0x12345 + 2 ^ 20) = 0x235
  /\ lock_for_pointer gcc_ppc32 (2 ^ 32 - 16) = 0.
Proof. repeat split. Qed.

(** ** Dispatch *)

Section DispatchFacts.

Variable cfg : Target.

Lemma LOCK_FREE_CASES_Some (size : Z) (ty : width) :
  LOCK_FREE_CASES cfg size = Some ty ->
  size = sizeof ty /\ lockfree cfg ty = true
  /\ is_lock_free cfg size = true /\ In size [1; 2; 4; 8].
Proof.
  unfold LOCK_FREE_CASES, is_lock_free, IS_LOCK_FREE_16.
  destruct (size =? 1) eqn:E1; [apply Z.eqb_eq in E1; subst;
    destruct (IS_LOCK_FREE_1 cfg) eqn:L; intros [= <-]; simpl; rewrite ?L; repeat split; lia|].
  destruct (size =? 2) eqn:E2; [apply Z.eqb_eq in E2; subst;
    destruct (IS_LOCK_FREE_2 cfg) eqn:L; intros [= <-]; simpl; rewrite ?L; repeat split; lia|].
  destruct (size =? 4) eqn:E4; [apply Z.eqb_eq in E4; subst;
    destruct (IS_LOCK_FREE_4 cfg) eqn:L; intros [= <-]; simpl; rewrite ?L; repeat split; lia|].
  destruct (size =? 8) eqn:E8; [apply Z.eqb_eq in E8; subst;
    destruct (IS_LOCK_FREE_8 cfg) eqn:L; intros [= <-]; simpl; rewrite ?L; repeat split; lia|].
  destruct (size =? 16); discriminate.
Qed.

Lemma LOCK_FREE_CASES_None (size : Z) :
  LOCK_FREE_CASES cfg size = None <-> is_lock_free cfg size = false.
Proof.
  unfold LOCK_FREE_CASES, is_lock_free, IS_LOCK_FREE_16.
  destruct (size =? 1); [destruct (IS_LOCK_FREE_1 cfg); split; congruence|].
  destruct (size =? 2); [destruct (IS_LOCK_FREE_2 cfg); split; congruence|].
  destruct (size =? 4); [destruct (IS_LOCK_FREE_4 cfg); split; congruence|].
  destruct (size =? 8); [destruct (IS_LOCK_FREE_8 cfg); split; congruence|].
  destruct (size =? 16); tauto.
Qed.

Lemma LOCK_FREE_CASES_sizeof (w : width) :
  LOCK_FREE_CASES cfg (sizeof w) = if lockfree cfg w then Some w else None.
Proof.
  destruct w; unfold LOCK_FREE_CASES, lockfree, IS_LOCK_FREE_16; simpl;
    try reflexivity;
    match goal with |- context [if ?b then _ else _] => destruct b; reflexivity end.
Qed.

Lemma OPTIMISED_CASES_widths (w : width) :
  In w (OPTIMISED_CASES cfg) <-> (w = W16 -> SIZEOF_INT128 cfg = true).
Proof.
  unfold OPTIMISED_CASES.
  destruct (SIZEOF_INT128 cfg), w; simpl; intuition congruence.
Qed.

Lemma is_lock_free_sizeof (w : width) :
  is_lock_free cfg (sizeof w) = lockfree cfg w.
Proof. destruct w; reflexivity. Qed.

Lemma is_lock_free_outside (size : Z) :
  ~ In size [1; 2; 4; 8] -> is_lock_free cfg size = false.
Proof.
  intros H. unfold is_lock_free.
  destruct (size =? 1) eqn:E1; [apply Z.eqb_eq in E1; simpl in H; lia|].
  destruct (size =? 2) eqn:E2; [apply Z.eqb_eq in E2; simpl in H; lia|].
  destruct (size =? 4) eqn:E4; [apply Z.eqb_eq in E4; simpl in H; lia|].
  destruct (size =? 8) eqn:E8; [apply Z.eqb_eq in E8; simpl in H; lia|].
  reflexivity.
Qed.

End DispatchFacts.

(** ** What each entry point computes, per path *)

Ltac take_lock H :=
  unfold bind, lock, unlock, memcpy, memcmp, deref, assign, ret;
  rewrite ?H; cbn [mem locks trace spurious set_mem].

Ltac size_ok :=
  repeat match goal with
  | |- context [?z <? 0] =>
      replace (z <? 0) with false by (symmetry; apply Z.ltb_ge; lia)
  end.

Section PathFacts.

Variable cfg : Target.

Local Abbreviation slot p := (lock_for_pointer cfg p).

Lemma load_c_fast size src dest model ty s :
  LOCK_FREE_CASES cfg size = Some ty ->
  __atomic_load_c cfg size src dest model s
  = Ret tt (set_mem (write_uint cfg ty (mem s) dest (read_uint cfg ty (mem s) src)) s).
Proof. intros H. unfold __atomic_load_c. rewrite H. reflexivity. Qed.

Lemma load_c_slow size src dest model s :
  LOCK_FREE_CASES cfg size = None -> 0 <= size -> locks s (slot src) = false ->
  __atomic_load_c cfg size src dest model s
  = Ret tt (after_cs (slot src)
              (store_bytes (mem s) dest (load_bytes (mem s) src (Z.to_nat size))) s).
Proof.
  intros H Hs Hl. unfold __atomic_load_c. rewrite H. take_lock Hl. size_ok.
  reflexivity.
Qed.

Lemma store_c_fast size dest src model ty s :
  LOCK_FREE_CASES cfg size = Some ty ->
  __atomic_store_c cfg size dest src model s
  = Ret tt (set_mem (write_uint cfg ty (mem s) dest (read_uint cfg ty (mem s) src)) s).
Proof. intros H. unfold __atomic_store_c. rewrite H. reflexivity. Qed.

Lemma store_c_slow size dest src model s :
  LOCK_FREE_CASES cfg size = None -> 0 <= size -> locks s (slot dest) = false ->
  __atomic_store_c cfg size dest src model s
  = Ret tt (after_cs (slot dest)
              (store_bytes (mem s) dest (load_bytes (mem s) src (Z.to_nat size))) s).
Proof.
  intros H Hs Hl. unfold __atomic_store_c. rewrite H. take_lock Hl. size_ok.
  reflexivity.
Qed.

Lemma exchange_c_fast size ptr val old model ty s :
  LOCK_FREE_CASES cfg size = Some ty ->
  __atomic_exchange_c cfg size ptr val old model s
  = Ret tt (set_mem
              (write_uint cfg ty
                 (write_uint cfg ty (mem s) ptr (read_uint cfg ty (mem s) val))
                 old (read_uint cfg ty (mem s) ptr)) s).
Proof. intros H. unfold __atomic_exchange_c. rewrite H. reflexivity. Qed.

Lemma exchange_c_slow size ptr val old model s :
  LOCK_FREE_CASES cfg size = None -> 0 <= size -> locks s (slot ptr) = false ->
  __atomic_exchange_c cfg size ptr val old model s
  = Ret tt (after_cs (slot ptr)
              (let m1 := store_bytes (mem s) old
                           (load_bytes (mem s) ptr (Z.to_nat size)) in
               store_bytes m1 ptr (load_bytes m1 val (Z.to_nat size))) s).
Proof.
  intros H Hs Hl. unfold __atomic_exchange_c. rewrite H. take_lock Hl. size_ok.
  cbn [mem set_mem]. size_ok. reflexivity.
Qed.

Lemma compare_exchange_c_slow size ptr expected desired success failure s :
  LOCK_FREE_CASES cfg size = None -> 0 <= size -> locks s (slot ptr) = false ->
  __atomic_compare_exchange_c cfg size ptr expected desired success failure s
  = if compare_bytes (load_bytes (mem s) ptr (Z.to_nat size))
                     (load_bytes (mem s) expected (Z.to_nat size)) =? 0
    then Ret 1 (after_cs (slot ptr)
                  (store_bytes (mem s) ptr
                     (load_bytes (mem s) desired (Z.to_nat size))) s)
    else Ret 0 (after_cs (slot ptr)
                  (store_bytes (mem s) expected
                     (load_bytes (mem s) ptr (Z.to_nat size))) s).
Proof.
  intros H Hs Hl. unfold __atomic_compare_exchange_c. rewrite H. take_lock Hl.
  size_ok.
  destruct (compare_bytes _ _ =? 0); take_lock Hl; size_ok; reflexivity.
Qed.

Lemma load_N_fast w src model s :
  lockfree cfg w = true ->
  __atomic_load_N cfg w src model s = Ret (read_uint cfg w (mem s) src) s.
Proof. intros H. unfold __atomic_load_N. rewrite H. reflexivity. Qed.

Lemma load_N_slow w src model s :
  lockfree cfg w = false -> locks s (slot src) = false ->
  __atomic_load_N cfg w src model s
  = Ret (read_uint cfg w (mem s) src) (after_cs (slot src) (mem s) s).
Proof.
  intros H Hl. unfold __atomic_load_N. rewrite H. take_lock Hl. reflexivity.
Qed.

Lemma store_N_fast w dest val model s :
  lockfree cfg w = true ->
  __atomic_store_N cfg w dest val model s
  = Ret tt (set_mem (write_uint cfg w (mem s) dest val) s).
Proof. intros H. unfold __atomic_store_N. rewrite H. reflexivity. Qed.

Lemma store_N_slow w dest val model s :
  lockfree cfg w = false -> locks s (slot dest) = false ->
  __atomic_store_N cfg w dest val model s
  = Ret tt (after_cs (slot dest) (write_uint cfg w (mem s) dest val) s).
Proof.
  intros H Hl. unfold __atomic_store_N. rewrite H. take_lock Hl. reflexivity.
Qed.

Lemma exchange_N_fast w dest val model s :
  lockfree cfg w = true ->
  __atomic_exchange_N cfg w dest val model s
  = Ret (read_uint cfg w (mem s) dest)
        (set_mem (write_uint cfg w (mem s) dest val) s).
Proof. intros H. unfold __atomic_exchange_N. rewrite H. reflexivity. Qed.

Lemma exchange_N_slow w dest val model s :
  lockfree cfg w = false -> locks s (slot dest) = false ->
  __atomic_exchange_N cfg w dest val model s
  = Ret (read_uint cfg w (mem s) dest)
        (after_cs (slot dest) (write_uint cfg w (mem s) dest val) s).
Proof.
  intros H Hl. unfold __atomic_exchange_N. rewrite H. take_lock Hl. reflexivity.
Qed.

Lemma compare_exchange_N_slow w ptr expected desired success failure s :
  lockfree cfg w = false -> locks s (slot ptr) = false ->
  __atomic_compare_exchange_N cfg w ptr expected desired success failure s
  = if read_uint cfg w (mem s) ptr =? read_uint cfg w (mem s) expected
    then Ret true (after_cs (slot ptr) (write_uint cfg w (mem s) ptr desired) s)
    else Ret false (after_cs (slot ptr)
                      (write_uint cfg w (mem s) expected
                         (read_uint cfg w (mem s) ptr)) s).
Proof.
  intros H Hl. unfold __atomic_compare_exchange_N. rewrite H. take_lock Hl.
  destruct (_ =? _); reflexivity.
Qed.

Lemma fetch_N_fast o w ptr val model s :
  lockfree cfg w = true ->
  __atomic_fetch_N cfg o w ptr val model s
  = Ret (read_uint cfg w (mem s) ptr)
        (set_mem (write_uint cfg w (mem s) ptr
                    (apply_op o w (read_uint cfg w (mem s) ptr) val)) s).
Proof. intros H. unfold __atomic_fetch_N. rewrite H. reflexivity. Qed.

Lemma fetch_N_slow o w ptr val model s :
  lockfree cfg w = false -> locks s (slot ptr) = false ->
  __atomic_fetch_N cfg o w ptr val model s
  = Ret (read_uint cfg w (mem s) ptr)
        (after_cs (slot ptr)
           (write_uint cfg w (mem s) ptr
              (apply_op o w (read_uint cfg w (mem s) ptr) val)) s).
Proof.
  intros H Hl. unfold __atomic_fetch_N. rewrite H. take_lock Hl. reflexivity.
Qed.

Lemma after_cs_locks l m s i :
  locks s l = false -> locks (after_cs l m s) i = locks s i.
Proof.
  intros H. unfold after_cs, upd; simpl.
  destruct (i =? l) eqn:E; [apply Z.eqb_eq in E; subst; auto | reflexivity].
Qed.

End PathFacts.

Section RoundTrip.

Variable cfg : Target.

Local Abbreviation slot p := (lock_for_pointer cfg p).
Local Abbreviation len w := (Z.to_nat (sizeof w)).

Lemma wrap_small (w : width) (v : Z) : 0 <= v < modulus w -> wrap w v = v.
Proof. intros H. unfold wrap. apply Z.mod_small. exact H. Qed.

Lemma load_write_uint (w : width) (m : memory) (p v : Z) :
  load_bytes (write_uint cfg w m p v) p (len w) = encode cfg w v.
Proof.
  unfold write_uint. rewrite <- (encode_length cfg w v) at 1.
  apply load_store_same.
Qed.

Lemma encode_read_uint (w : width) (m : memory) (p : Z) :
  encode cfg w (read_uint cfg w m p) = load_bytes m p (len w).
Proof. unfold read_uint. apply encode_decode, load_bytes_length. Qed.

Lemma store_then_load_c (w : width) (ptr src dest model1 model2 : Z) (s : State) :
  locks s (slot ptr) = false ->
  exists s1 s2,
    __atomic_store_c cfg (sizeof w) ptr src model1 s = Ret tt s1
    /\ __atomic_load_c cfg (sizeof w) ptr dest model2 s1 = Ret tt s2
    /\ load_bytes (mem s2) dest (len w) = load_bytes (mem s) src (len w).
Proof.
  intros Hl. pose proof (sizeof_pos w) as Hp.
  pose proof (LOCK_FREE_CASES_sizeof cfg w) as Hc.
  destruct (lockfree cfg w) eqn:Hf.
  - rewrite (store_c_fast cfg _ _ _ _ w s Hc).
    eexists; eexists; split; [reflexivity|].
    rewrite (load_c_fast cfg _ _ _ _ w _ Hc). split; [reflexivity|].
    cbn [mem set_mem]. rewrite load_write_uint, read_write_same.
    rewrite wrap_small by apply read_uint_range. apply encode_read_uint.
  - rewrite (store_c_slow cfg _ _ _ _ s Hc) by (auto; lia).
    eexists; eexists; split; [reflexivity|].
    rewrite (load_c_slow cfg _ _ _ _ _ Hc);
      [| lia | rewrite after_cs_locks; auto].
    split; [reflexivity|]. cbn [mem after_cs].
    rewrite !load_store_same_n by apply load_bytes_length. reflexivity.
Qed.

Lemma store_then_load_N (w : width) (ptr X model1 model2 : Z) (s : State) :
  locks s (slot ptr) = false ->
  exists s1 s2,
    __atomic_store_N cfg w ptr X model1 s = Ret tt s1
    /\ __atomic_load_N cfg w ptr model2 s1 = Ret (wrap w X) s2.
Proof.
  intros Hl. destruct (lockfree cfg w) eqn:Hf.
  - rewrite (store_N_fast cfg _ _ _ _ s Hf).
    eexists; eexists; split; [reflexivity|].
    rewrite (load_N_fast cfg _ _ _ _ Hf). cbn [mem set_mem].
    rewrite read_write_same. reflexivity.
  - rewrite (store_N_slow cfg _ _ _ _ s Hf Hl).
    eexists; eexists; split; [reflexivity|].
    rewrite (load_N_slow cfg _ _ _ _ Hf) by (rewrite after_cs_locks; auto).
    cbn [mem after_cs]. rewrite read_write_same. reflexivity.
Qed.

End RoundTrip.

(** C2. For every width in {1,2,4,8,16} and every value X, a store of X to
    [ptr] followed by a load of [ptr] gives back exactly X, on the lock-free
    path as on the locked one: through the generic entry points the bytes
    arriving in [dest] are the bytes that were in [src], and through the
    sized ones the load returns X. *)
Theorem store_load_round_trip
    (cfg : Target) (w : width) (ptr src dest model1 model2 : Z) (s : State) :
  locks s (lock_for_pointer cfg ptr) = false ->
  (exists s1 s2,
     __atomic_store_c cfg (sizeof w) ptr src model1 s = Ret tt s1
     /\ __atomic_load_c cfg (sizeof w) ptr dest model2 s1 = Ret tt s2
     /\ load_bytes (mem s2) dest (Z.to_nat (sizeof w))
        = load_bytes (mem s) src (Z.to_nat (sizeof w))
     /\ read_uint cfg w (mem s2) dest = read_uint cfg w (mem s) src)
  /\ (forall X, 0 <= X < modulus w ->
      exists s1 s2,
        __atomic_store_N cfg w ptr X model1 s = Ret tt s1
        /\ __atomic_load_N cfg w ptr model2 s1 = Ret X s2).
Proof.
  intros Hl. split.
  - destruct (store_then_load_c cfg w ptr src dest model1 model2 s Hl)
      as (s1 & s2 & H1 & H2 & H3).
    exists s1, s2. repeat split; auto. unfold read_uint. rewrite H3. reflexivity.
  - intros X HX.
    destruct (store_then_load_N cfg w ptr X model1 model2 s Hl)
      as (s1 & s2 & H1 & H2).
    exists s1, s2. rewrite (wrap_small w X HX) in H2. auto.
Qed.

Lemma store_load_round_trip_witness :
  (exists s1 s2,
     __atomic_store_c gcc_ppc32 (sizeof W8) 64 0 5 sample_state = Ret tt s1
     /\ __atomic_load_c gcc_ppc32 (sizeof W8) 64 128 5 s1 = Ret tt s2
     /\ load_bytes (mem s2) 128 (Z.to_nat (sizeof W8))
        = load_bytes (mem sample_state) 0 (Z.to_nat (sizeof W8))
     /\ read_uint gcc_ppc32 W8 (mem s2) 128
        = read_uint gcc_ppc32 W8 (mem sample_state) 0)
  /\ (forall X, 0 <= X < modulus W8 ->
      exists s1 s2,
        __atomic_store_N gcc_ppc32 W8 64 X 5 sample_state = Ret tt s1
        /\ __atomic_load_N gcc_ppc32 W8 64 5 s1 = Ret X s2).
Proof.
  apply (store_load_round_trip gcc_ppc32 W8 64 0 128 5 5 sample_state).
  reflexivity.
Defined.

(** ** Fetch-and-op *)

Lemma apply_op_mod (o : rmw) (w : width) (a b : Z) :
  apply_op o w a b = op_Z o a b mod 2 ^ (8 * sizeof w).
Proof. destruct o; reflexivity. Qed.

Lemma fetch_N_spec (cfg : Target) (o : rmw) (w : width) (ptr val model : Z) (s : State) :
  locks s (lock_for_pointer cfg ptr) = false ->
  exists s',
    __atomic_fetch_N cfg o w ptr val model s = Ret (read_uint cfg w (mem s) ptr) s'
    /\ mem s' = write_uint cfg w (mem s) ptr
                  (apply_op o w (read_uint cfg w (mem s) ptr) val)
    /\ (forall i, locks s' i = locks s i)
    /\ spurious s' = spurious s.
Proof.
  intros Hl. destruct (lockfree cfg w) eqn:Hf.
  - rewrite (fetch_N_fast cfg _ _ _ _ _ s Hf). eexists; split; [reflexivity|].
    cbn [mem locks spurious set_mem]. auto.
  - rewrite (fetch_N_slow cfg _ _ _ _ _ s Hf Hl). eexists; split; [reflexivity|].
    split; [reflexivity|]. split; [|reflexivity].
    intros i. apply after_cs_locks. exact Hl.
Qed.

(** C3. For every width and every op among add, sub, and, or, xor, the
    fetch-op reads the bytes at [ptr] as an unsigned integer of that width,
    returns that prior value and leaves (old op operand) modulo 2^(8*size)
    in its place, touching no other byte; fetch_add of 5 on an 8-byte zero
    location returns 0 and leaves 5; fetch_add of 1 on the largest value of
    the width leaves 0. *)
Theorem fetch_op_wraps (cfg : Target) (ptr model : Z) (s : State) :
  locks s (lock_for_pointer cfg ptr) = false ->
  (forall (o : rmw) (w : width) (val : Z),
     exists s',
       __atomic_fetch_N cfg o w ptr val model s
       = Ret (read_uint cfg w (mem s) ptr) s'
       /\ 0 <= read_uint cfg w (mem s) ptr < 2 ^ (8 * sizeof w)
       /\ read_uint cfg w (mem s') ptr
          = op_Z o (read_uint cfg w (mem s) ptr) val mod 2 ^ (8 * sizeof w)
       /\ (forall a, ~ (ptr <= a < ptr + sizeof w) -> mem s' a = mem s a))
  /\ (read_uint cfg W8 (mem s) ptr = 0 ->
      exists s',
        __atomic_fetch_N cfg Add W8 ptr 5 model s = Ret 0 s'
        /\ read_uint cfg W8 (mem s') ptr = 5)
  /\ (forall w : width,
      read_uint cfg w (mem s) ptr = 2 ^ (8 * sizeof w) - 1 ->
      exists s',
        __atomic_fetch_N cfg Add w ptr 1 model s = Ret (2 ^ (8 * sizeof w) - 1) s'
        /\ read_uint cfg w (mem s') ptr = 0).
Proof.
  intros Hl.
  assert (G : forall o w val, exists s',
       __atomic_fetch_N cfg o w ptr val model s
       = Ret (read_uint cfg w (mem s) ptr) s'
       /\ 0 <= read_uint cfg w (mem s) ptr < 2 ^ (8 * sizeof w)
       /\ read_uint cfg w (mem s') ptr
          = op_Z o (read_uint cfg w (mem s) ptr) val mod 2 ^ (8 * sizeof w)
       /\ (forall a, ~ (ptr <= a < ptr + sizeof w) -> mem s' a = mem s a)).
  { intros o w val.
    destruct (fetch_N_spec cfg o w ptr val model s Hl) as (s' & Hr & Hm & _).
    exists s'. split; [exact Hr|]. split; [apply read_uint_range|].
    rewrite Hm. split.
    - rewrite read_write_same, <- apply_op_mod. unfold wrap, apply_op, wrap.
      apply Z.mod_mod. unfold modulus. apply Z.pow_nonzero; [lia|].
      pose proof (sizeof_pos w). lia.
    - intros a Ha. apply write_uint_outside. exact Ha. }
  split; [exact G|]. split.
  - intros H0. destruct (G Add W8 5) as (s' & Hr & _ & Hv & _).
    exists s'. rewrite H0 in Hr, Hv. split; [exact Hr|]. rewrite Hv. reflexivity.
  - intros w Hmax. destruct (G Add w 1) as (s' & Hr & _ & Hv & _).
    exists s'. rewrite Hmax in Hr, Hv. split; [exact Hr|]. rewrite Hv.
    cbn [op_Z]. replace (2 ^ (8 * sizeof w) - 1 + 1) with (2 ^ (8 * sizeof w)) by lia.
    apply Z.mod_same. apply Z.pow_nonzero; [lia|].
    pose proof (sizeof_pos w). lia.
Qed.

Lemma fetch_op_wraps_witness :
  exists s',
    __atomic_fetch_N no_native Add W8 0 5 5 initial_state = Ret 0 s'
    /\ read_uint no_native W8 (mem s') 0 = 5.
Proof.
  apply (fetch_op_wraps no_native 0 5 initial_state); reflexivity.
Defined.

(** ** Exchange *)

Section Exchange.

Variable cfg : Target.

Local Abbreviation slot p := (lock_for_pointer cfg p).

Lemma load_store_disjoint (m : memory) (p q size : Z) (bs : list byte) :
  0 <= size -> length bs = Z.to_nat size -> disjoint q size p size ->
  load_bytes (store_bytes m p bs) q (Z.to_nat size) = load_bytes m q (Z.to_nat size).
Proof.
  intros Hs Hb Hd. apply load_store_other. rewrite Hb, Z2Nat.id by exact Hs.
  exact Hd.
Qed.

Lemma disjoint_sym (p1 n1 p2 n2 : Z) : disjoint p1 n1 p2 n2 -> disjoint p2 n2 p1 n1.
Proof. unfold disjoint. lia. Qed.

Lemma exchange_c_spec (size ptr val old model : Z) (s : State) :
  0 <= size ->
  locks s (slot ptr) = false ->
  disjoint old size ptr size ->
  disjoint old size val size ->
  exists s',
    __atomic_exchange_c cfg size ptr val old model s = Ret tt s'
    /\ load_bytes (mem s') old (Z.to_nat size) = load_bytes (mem s) ptr (Z.to_nat size)
    /\ load_bytes (mem s') ptr (Z.to_nat size) = load_bytes (mem s) val (Z.to_nat size)
    /\ (forall a, ~ (ptr <= a < ptr + size) -> ~ (old <= a < old + size) ->
          mem s' a = mem s a)
    /\ trace s' = trace s ++ cs_events cfg size ptr.
Proof.
  intros Hs Hl Hop Hov. unfold cs_events.
  destruct (LOCK_FREE_CASES cfg size) as [ty|] eqn:Hc.
  - destruct (LOCK_FREE_CASES_Some cfg size ty Hc) as (Hsz & _ & Hlf & _).
    rewrite (exchange_c_fast cfg _ _ _ _ _ ty s Hc), Hlf.
    eexists; split; [reflexivity|]. cbn [mem trace set_mem]. subst size.
    split; [|split; [|split]].
    + rewrite load_write_uint. apply encode_read_uint.
    + unfold write_uint at 1.
      rewrite load_store_disjoint;
        [| exact Hs | apply encode_length | apply disjoint_sym; exact Hop].
      rewrite load_write_uint. apply encode_read_uint.
    + intros a Ha Ho. rewrite !write_uint_outside by assumption. reflexivity.
    + rewrite app_nil_r. reflexivity.
  - pose proof (proj1 (LOCK_FREE_CASES_None cfg size) Hc) as Hlf.
    rewrite (exchange_c_slow cfg _ _ _ _ _ s Hc Hs Hl), Hlf.
    eexists; split; [reflexivity|]. cbn [mem trace after_cs].
    split; [|split; [|split]].
    + rewrite load_store_disjoint;
        [| exact Hs | apply load_bytes_length | exact Hop].
      apply load_store_same_n, load_bytes_length.
    + rewrite load_store_same_n by apply load_bytes_length.
      apply load_store_disjoint;
        [exact Hs | apply load_bytes_length | apply disjoint_sym; exact Hov].
    + intros a Ha Ho.
      rewrite !store_bytes_outside;
        [reflexivity | | ]; rewrite load_bytes_length, Z2Nat.id by exact Hs;
        assumption.
    + rewrite <- app_assoc. reflexivity.
Qed.

Lemma exchange_N_spec (w : width) (ptr v model : Z) (s : State) :
  locks s (slot ptr) = false ->
  exists s',
    __atomic_exchange_N cfg w ptr v model s = Ret (read_uint cfg w (mem s) ptr) s'
    /\ mem s' = write_uint cfg w (mem s) ptr v
    /\ (forall i, locks s' i = locks s i)
    /\ trace s' = trace s ++ cs_events cfg (sizeof w) ptr.
Proof.
  intros Hl. unfold cs_events. rewrite is_lock_free_sizeof.
  destruct (lockfree cfg w) eqn:Hf.
  - rewrite (exchange_N_fast cfg _ _ _ _ s Hf). eexists; split; [reflexivity|].
    cbn [mem locks trace set_mem]. rewrite app_nil_r. auto.
  - rewrite (exchange_N_slow cfg _ _ _ _ s Hf Hl). eexists; split; [reflexivity|].
    cbn [mem trace after_cs]. split; [reflexivity|]. split.
    + intros i. apply after_cs_locks. exact Hl.
    + rewrite <- app_assoc. reflexivity.
Qed.

End Exchange.

(** Exchange with separate buffers.  When [old] overlaps neither [ptr] nor
    [val], the generic exchange leaves the prior bytes of [ptr] in [old] and
    the bytes of [val] in [ptr], and records one acquire and one release of
    the slot of [ptr] on the locked path and no lock event on the lock-free
    one; the sized exchange returns the prior value and stores the new one;
    for size 8 and initial bytes all zero, exchanging in 0x1122334455667788
    returns 0 and leaves 0x1122334455667788. *)
Theorem exchange_returns_old
    (cfg : Target) (ptr model : Z) (s : State) :
  locks s (lock_for_pointer cfg ptr) = false ->
  (forall size val old,
     0 <= size -> disjoint old size ptr size -> disjoint old size val size ->
     exists s',
       __atomic_exchange_c cfg size ptr val old model s = Ret tt s'
       /\ load_bytes (mem s') old (Z.to_nat size)
          = load_bytes (mem s) ptr (Z.to_nat size)
       /\ load_bytes (mem s') ptr (Z.to_nat size)
          = load_bytes (mem s) val (Z.to_nat size)
       /\ (forall a, ~ (ptr <= a < ptr + size) -> ~ (old <= a < old + size) ->
             mem s' a = mem s a)
       /\ trace s' = trace s ++ cs_events cfg size ptr)
  /\ (forall w v,
      exists s',
        __atomic_exchange_N cfg w ptr v model s
        = Ret (read_uint cfg w (mem s) ptr) s'
        /\ read_uint cfg w (mem s') ptr = v mod 2 ^ (8 * sizeof w)
        /\ (forall a, ~ (ptr <= a < ptr + sizeof w) -> mem s' a = mem s a)
        /\ trace s' = trace s ++ cs_events cfg (sizeof w) ptr)
  /\ (read_uint cfg W8 (mem s) ptr = 0 ->
      (exists s',
         __atomic_exchange_N cfg W8 ptr 0x1122334455667788 model s = Ret 0 s'
         /\ read_uint cfg W8 (mem s') ptr = 0x1122334455667788)
      /\ (forall val old,
            read_uint cfg W8 (mem s) val = 0x1122334455667788 ->
            disjoint old 8 ptr 8 -> disjoint old 8 val 8 ->
            exists s',
              __atomic_exchange_c cfg 8 ptr val old model s = Ret tt s'
              /\ read_uint cfg W8 (mem s') old = 0
              /\ read_uint cfg W8 (mem s') ptr = 0x1122334455667788)).
Proof.
  intros Hl.
  assert (GN : forall w v, exists s',
        __atomic_exchange_N cfg w ptr v model s
        = Ret (read_uint cfg w (mem s) ptr) s'
        /\ read_uint cfg w (mem s') ptr = v mod 2 ^ (8 * sizeof w)
        /\ (forall a, ~ (ptr <= a < ptr + sizeof w) -> mem s' a = mem s a)
        /\ trace s' = trace s ++ cs_events cfg (sizeof w) ptr).
  { intros w v.
    destruct (exchange_N_spec cfg w ptr v model s Hl) as (s' & Hr & Hm & _ & Ht).
    exists s'. rewrite Hm. repeat split; auto.
    - apply read_write_same.
    - intros a Ha. apply write_uint_outside. exact Ha. }
  split; [|split; [exact GN|]].
  - intros size val old Hs Hop Hov.
    apply exchange_c_spec; assumption.
  - intros H0. split.
    + destruct (GN W8 0x1122334455667788) as (s' & Hr & Hv & _).
      exists s'. rewrite H0 in Hr. split; [exact Hr|]. rewrite Hv. reflexivity.
    + intros val old Hval Hop Hov.
      destruct (exchange_c_spec cfg 8 ptr val old model s) as (s' & Hr & Ho & Hp & _);
        [lia | exact Hl | exact Hop | exact Hov |].
      exists s'. split; [exact Hr|]. unfold read_uint in *.
      change (Z.to_nat (sizeof W8)) with (Z.to_nat 8).
      rewrite Ho, Hp. auto.
Qed.

Lemma exchange_returns_old_witness :
  exists s',
    __atomic_exchange_N gcc_ppc32 W8 64 0x1122334455667788 5 initial_state
    = Ret 0 s'
    /\ read_uint gcc_ppc32 W8 (mem s') 64 = 0x1122334455667788.
Proof.
  apply (exchange_returns_old gcc_ppc32 64 5 initial_state); reflexivity.
Defined.

(** C7 (failing input). The scenario of the design, size 8, [ptr] all zero,
    value 0x1122334455667788, with the value passed in place: [val] and
    [old] are the same buffer, which does not overlap [ptr].  On the locked
    path (a target without native 8-byte atomics) the generic exchange
    copies the old contents of [ptr] over the buffer before it copies the
    buffer into [ptr]: it hands back 0 and leaves [ptr] holding 0, the new
    value never being written.  The lock-free branch of the same function,
    which reads [*val] before the exchange, hands back 0 and does store the
    value. *)
Theorem exchange_c_in_place_loses_value :
  read_uint gcc_ppc32 W8 (mem sample_state) 64 = 0
  /\ read_uint gcc_ppc32 W8 (mem sample_state) 0 = 0x1122334455667788
  /\ disjoint 0 8 64 8
  /\ is_lock_free gcc_ppc32 8 = false
  /\ (exists s',
        __atomic_exchange_c gcc_ppc32 8 64 0 0 5 sample_state = Ret tt s'
        /\ read_uint gcc_ppc32 W8 (mem s') 0 = 0
        /\ read_uint gcc_ppc32 W8 (mem s') 64 = 0
        /\ read_uint gcc_ppc32 W8 (mem s') 64 <> 0x1122334455667788)
  /\ is_lock_free clang_x86_64 8 = true
  /\ (exists s',
        __atomic_exchange_c clang_x86_64 8 64 0 0 5 sample_state = Ret tt s'
        /\ read_uint clang_x86_64 W8 (mem s') 0 = 0
        /\ read_uint clang_x86_64 W8 (mem s') 64
           = read_uint clang_x86_64 W8 (mem sample_state) 0).
Proof.
  split; [reflexivity|]. split; [reflexivity|].
  split; [unfold disjoint; lia|]. split; [reflexivity|]. split.
  - rewrite (exchange_c_slow gcc_ppc32 8 64 0 0 5 sample_state
               eq_refl ltac:(lia) eq_refl).
    eexists. split; [reflexivity|]. split; [reflexivity|].
    split; [reflexivity|]. vm_compute. discriminate.
  - split; [reflexivity|].
    rewrite (exchange_c_fast clang_x86_64 8 64 0 0 5 W8 sample_state eq_refl).
    eexists. split; [reflexivity|]. split; reflexivity.
Qed.


(** ** Compare-exchange *)

Section CompareExchange.

Variable cfg : Target.

Local Abbreviation slot p := (lock_for_pointer cfg p).

Lemma compare_exchange_c_fast size ptr expected desired success failure ty s :
  LOCK_FREE_CASES cfg size = Some ty ->
  __atomic_compare_exchange_c cfg size ptr expected desired success failure s
  = match builtin_atomic_compare_exchange cfg ty ptr expected
            (read_uint cfg ty (mem s) desired) (GNUC_NOT_CLANG cfg)
            success failure s with
    | Ret b s' => Ret (if b then 1 else 0) s'
    | Spin => Spin
    | Undefined => Undefined
    end.
Proof.
  intros H. unfold __atomic_compare_exchange_c. rewrite H.
  unfold bind, deref, ret. destruct (GNUC_NOT_CLANG cfg); reflexivity.
Qed.

Lemma compare_exchange_N_fast w ptr expected desired success failure s :
  lockfree cfg w = true ->
  __atomic_compare_exchange_N cfg w ptr expected desired success failure s
  = builtin_atomic_compare_exchange cfg w ptr expected desired
      (GNUC_NOT_CLANG cfg) success failure s.
Proof.
  intros H. unfold __atomic_compare_exchange_N. rewrite H.
  destruct (GNUC_NOT_CLANG cfg); reflexivity.
Qed.

Lemma builtin_compare_exchange_strong w p expected desired weak success failure s :
  no_spurious_failure weak s ->
  exists s1,
    mem s1 = mem s /\ locks s1 = locks s /\ trace s1 = trace s
    /\ builtin_atomic_compare_exchange cfg w p expected desired weak success failure s
       = strong_compare_exchange cfg w p expected desired s1.
Proof.
  intros H. unfold builtin_atomic_compare_exchange.
  destruct weak; [|exists s; auto].
  destruct H as [H | [H | [rest H]]]; [discriminate | |]; rewrite H.
  - exists s; auto.
  - exists {| mem := mem s; locks := locks s; trace := trace s; spurious := rest |}.
    repeat split; reflexivity.
Qed.

Lemma read_uint_eq_iff w (m : memory) (p q : Z) :
  read_uint cfg w m p = read_uint cfg w m q
  <-> load_bytes m p (Z.to_nat (sizeof w)) = load_bytes m q (Z.to_nat (sizeof w)).
Proof.
  unfold read_uint. split; [|intros ->; reflexivity].
  apply (decode_inj cfg w); apply load_bytes_length.
Qed.

Lemma strong_compare_exchange_spec w ptr expected desired s :
  disjoint ptr (sizeof w) expected (sizeof w) ->
  let n := Z.to_nat (sizeof w) in
  (load_bytes (mem s) ptr n = load_bytes (mem s) expected n ->
   exists s',
     strong_compare_exchange cfg w ptr expected desired s = Ret true s'
     /\ load_bytes (mem s') ptr n = encode cfg w desired
     /\ load_bytes (mem s') expected n = load_bytes (mem s) expected n
     /\ trace s' = trace s)
  /\ (load_bytes (mem s) ptr n <> load_bytes (mem s) expected n ->
      exists s',
        strong_compare_exchange cfg w ptr expected desired s = Ret false s'
        /\ load_bytes (mem s') ptr n = load_bytes (mem s) ptr n
        /\ load_bytes (mem s') expected n = load_bytes (mem s) ptr n
        /\ trace s' = trace s).
Proof.
  intros Hd n. pose proof (sizeof_pos w) as Hp.
  unfold strong_compare_exchange. split; intros He.
  - apply read_uint_eq_iff in He. apply Z.eqb_eq in He. rewrite He.
    eexists; split; [reflexivity|]. cbn [mem trace set_mem].
    split; [apply load_write_uint|]. split; [|reflexivity].
    unfold write_uint. apply load_store_disjoint;
      [lia | apply encode_length | apply disjoint_sym; exact Hd].
  - destruct (read_uint cfg w (mem s) ptr =? read_uint cfg w (mem s) expected) eqn:E.
    + apply Z.eqb_eq, read_uint_eq_iff in E. contradiction.
    + eexists; split; [reflexivity|]. cbn [mem trace set_mem].
      split; [|split; [|reflexivity]].
      * unfold write_uint. apply load_store_disjoint;
          [lia | apply encode_length | exact Hd].
      * rewrite load_write_uint. apply encode_read_uint.
Qed.

(** X6. Off the weak fast path (a locked size, or no attempt doomed to
    fail) the generic compare-exchange is the strong one the design
    describes: it succeeds exactly when the bytes at [ptr] equal those at
    [expected], then stores [desired] and leaves [expected] alone;
    otherwise it leaves [ptr] alone and copies its bytes to [expected]. *)
Lemma compare_exchange_c_strong_paths
    (size ptr expected desired success failure : Z) (s : State) :
  0 <= size ->
  locks s (slot ptr) = false ->
  disjoint ptr size expected size ->
  is_lock_free cfg size = false \/ no_spurious_failure (GNUC_NOT_CLANG cfg) s ->
  let n := Z.to_nat size in
  (load_bytes (mem s) ptr n = load_bytes (mem s) expected n ->
   exists s',
     __atomic_compare_exchange_c cfg size ptr expected desired success failure s
     = Ret 1 s'
     /\ load_bytes (mem s') ptr n = load_bytes (mem s) desired n
     /\ load_bytes (mem s') expected n = load_bytes (mem s) expected n)
  /\ (load_bytes (mem s) ptr n <> load_bytes (mem s) expected n ->
      exists s',
        __atomic_compare_exchange_c cfg size ptr expected desired success failure s
        = Ret 0 s'
        /\ load_bytes (mem s') ptr n = load_bytes (mem s) ptr n
        /\ load_bytes (mem s') expected n = load_bytes (mem s) ptr n).
Proof.
  intros Hs Hl Hd Hpath n.
  destruct (LOCK_FREE_CASES cfg size) as [ty|] eqn:Hc.
  - destruct (LOCK_FREE_CASES_Some cfg size ty Hc) as (Hsz & _ & Hlf & _).
    destruct Hpath as [Hno | Hns]; [congruence|].
    rewrite (compare_exchange_c_fast _ _ _ _ _ _ ty s Hc).
    destruct (builtin_compare_exchange_strong ty ptr expected
                (read_uint cfg ty (mem s) desired) (GNUC_NOT_CLANG cfg)
                success failure s Hns) as (s1 & Hm & _ & _ & ->).
    subst size n.
    destruct (strong_compare_exchange_spec ty ptr expected
                (read_uint cfg ty (mem s) desired) s1 Hd) as [Hyes Hnot].
    rewrite Hm in Hyes, Hnot.
    split; intros He.
    + destruct (Hyes He) as (s' & -> & H1 & H2 & _). exists s'.
      split; [reflexivity|]. rewrite H1, H2.
      split; [apply encode_read_uint | reflexivity].
    + destruct (Hnot He) as (s' & -> & H1 & H2 & _). exists s'. auto.
  - rewrite (compare_exchange_c_slow cfg _ _ _ _ _ _ s Hc Hs Hl). subst n.
    split; intros He.
    + replace (compare_bytes _ _ =? 0) with true
        by (symmetry; apply Z.eqb_eq, compare_bytes_eq;
            [rewrite !load_bytes_length; reflexivity | exact He]).
      eexists; split; [reflexivity|]. cbn [mem after_cs]. split.
      * apply load_store_same_n, load_bytes_length.
      * apply load_store_disjoint;
          [exact Hs | apply load_bytes_length | apply disjoint_sym; exact Hd].
    + replace (compare_bytes _ _ =? 0) with false.
      2:{ symmetry. apply Z.eqb_neq. intros E. apply He.
          apply compare_bytes_eq in E; [exact E|].
          rewrite !load_bytes_length; reflexivity. }
      eexists; split; [reflexivity|]. cbn [mem after_cs]. split.
      * apply load_store_disjoint;
          [exact Hs | apply load_bytes_length | exact Hd].
      * apply load_store_same_n, load_bytes_length.
Qed.

(** A weak compare-exchange whose attempt is doomed reports failure whatever
    the bytes are. *)
Lemma compare_exchange_c_weak_fails
    (size ptr expected desired success failure : Z) (ty : width)
    (rest : list bool) (s : State) :
  GNUC_NOT_CLANG cfg = true ->
  LOCK_FREE_CASES cfg size = Some ty ->
  spurious s = true :: rest ->
  exists s',
    __atomic_compare_exchange_c cfg size ptr expected desired success failure s
    = Ret 0 s'
    /\ mem s' = write_uint cfg ty (mem s) expected (read_uint cfg ty (mem s) ptr).
Proof.
  intros Hg Hc Hsp. rewrite (compare_exchange_c_fast _ _ _ _ _ _ ty s Hc), Hg.
  unfold builtin_atomic_compare_exchange. rewrite Hsp.
  eexists; split; reflexivity.
Qed.

End CompareExchange.

(** C1 (failing input). On a GCC build the lock-free branch asks the builtin
    for a weak compare-exchange: with the four bytes at [ptr] equal to the
    four bytes at [expected] and the attempt losing its reservation, the
    generic and the sized entry point both report failure and leave [ptr]
    as it was, where a strong compare-exchange must succeed and store
    [desired]. *)
Theorem compare_exchange_weak_on_gcc :
  load_bytes (mem doomed_state) 0 4 = load_bytes (mem doomed_state) 16 4
  /\ (exists s',
        __atomic_compare_exchange_c gcc_ppc32 4 0 16 32 5 5 doomed_state
        = Ret 0 s'
        /\ load_bytes (mem s') 0 4 = load_bytes (mem doomed_state) 0 4
        /\ load_bytes (mem s') 0 4 <> load_bytes (mem doomed_state) 32 4)
  /\ (exists s',
        __atomic_compare_exchange_N gcc_ppc32 W4 0 16 42 5 5 doomed_state
        = Ret false s'
        /\ read_uint gcc_ppc32 W4 (mem s') 0 = 0).
Proof.
  split; [reflexivity|]. split.
  - eexists. split; [reflexivity|]. split; [reflexivity|].
    vm_compute. discriminate.
  - eexists. split; reflexivity.
Qed.

(** ** Every call, path by path *)

Section Calls.

Variable cfg : Target.

Local Abbreviation slot p := (lock_for_pointer cfg p).

Lemma width_of_size_sizeof (w : width) : width_of_size (sizeof w) = Some w.
Proof. destruct w; reflexivity. Qed.

Lemma builtin_compare_exchange_frame w p expected desired weak success failure s :
  exists b s',
    builtin_atomic_compare_exchange cfg w p expected desired weak success failure s
    = Ret b s'
    /\ locks s' = locks s /\ trace s' = trace s
    /\ (forall a, ~ (p <= a < p + sizeof w) ->
                  ~ (expected <= a < expected + sizeof w) -> mem s' a = mem s a).
Proof.
  unfold builtin_atomic_compare_exchange, strong_compare_exchange.
  destruct weak; [destruct (spurious s) as [|[|] rest]|];
    cbn [mem locks trace spurious set_mem];
    try (destruct (_ =? _));
    eexists; eexists; (split; [reflexivity|]); cbn [mem locks trace set_mem];
    (split; [reflexivity|]); (split; [reflexivity|]);
    intros a Hp He; rewrite ?write_uint_outside by assumption; reflexivity.
Qed.

(** A call whose size is dispatched to the builtins: it returns whatever the
    lock table holds, records no lock event, leaves every slot as it was and
    is the builtin sequence. *)
Lemma run_fast (c : call) (s : State) :
  is_lock_free cfg (call_size c) = true ->
  exists r s',
    run cfg c s = Ret r s'
    /\ run cfg c s = native cfg c s
    /\ locks s' = locks s
    /\ trace s' = trace s
    /\ (forall a, outside c a -> mem s' a = mem s a).
Proof.
  intros Hf. destruct c; cbn [call_size] in Hf; unfold outside;
    cbn [run native target call_size result_buffers].
  - destruct (LOCK_FREE_CASES cfg size) as [ty|] eqn:Hc;
      [|apply LOCK_FREE_CASES_None in Hc; congruence].
    destruct (LOCK_FREE_CASES_Some cfg size ty Hc) as (-> & _).
    rewrite width_of_size_sizeof. unfold bind.
    rewrite (load_c_fast cfg _ _ _ _ ty s Hc).
    do 2 eexists. split; [reflexivity|]. split; [reflexivity|].
    cbn [mem locks trace set_mem]. repeat split.
    intros a [_ Hb]. apply Forall_inv in Hb. apply write_uint_outside. exact Hb.
  - destruct (LOCK_FREE_CASES cfg size) as [ty|] eqn:Hc;
      [|apply LOCK_FREE_CASES_None in Hc; congruence].
    destruct (LOCK_FREE_CASES_Some cfg size ty Hc) as (-> & _).
    rewrite width_of_size_sizeof. unfold bind.
    rewrite (store_c_fast cfg _ _ _ _ ty s Hc).
    do 2 eexists. split; [reflexivity|]. split; [reflexivity|].
    cbn [mem locks trace set_mem]. repeat split.
    intros a [Ht _]. apply write_uint_outside. exact Ht.
  - destruct (LOCK_FREE_CASES cfg size) as [ty|] eqn:Hc;
      [|apply LOCK_FREE_CASES_None in Hc; congruence].
    destruct (LOCK_FREE_CASES_Some cfg size ty Hc) as (-> & _).
    rewrite width_of_size_sizeof. unfold bind.
    rewrite (compare_exchange_c_fast cfg _ _ _ _ _ _ ty s Hc).
    unfold deref, ret.
    destruct (builtin_compare_exchange_frame ty ptr expected
                (read_uint cfg ty (mem s) desired) (GNUC_NOT_CLANG cfg)
                success failure s) as (b & s' & -> & Hl & Ht & Hm).
    do 2 eexists. split; [reflexivity|]. split; [reflexivity|].
    repeat split; auto.
    intros a [Hp Hb]. apply Forall_inv in Hb. apply Hm; assumption.
  - destruct (LOCK_FREE_CASES cfg size) as [ty|] eqn:Hc;
      [|apply LOCK_FREE_CASES_None in Hc; congruence].
    destruct (LOCK_FREE_CASES_Some cfg size ty Hc) as (-> & _).
    rewrite width_of_size_sizeof. unfold bind.
    rewrite (exchange_c_fast cfg _ _ _ _ _ ty s Hc).
    do 2 eexists. split; [reflexivity|]. split; [reflexivity|].
    cbn [mem locks trace set_mem]. repeat split.
    intros a [Hp Hb]. apply Forall_inv in Hb.
    rewrite !write_uint_outside by assumption. reflexivity.
  - rewrite is_lock_free_sizeof in Hf. unfold bind.
    rewrite (load_N_fast cfg _ _ _ s Hf).
    do 2 eexists. split; [reflexivity|]. split; [reflexivity|]. repeat split.
  - rewrite is_lock_free_sizeof in Hf. unfold bind.
    rewrite (store_N_fast cfg _ _ _ _ s Hf).
    do 2 eexists. split; [reflexivity|]. split; [reflexivity|].
    cbn [mem locks trace set_mem]. repeat split.
    intros a [Ht _]. apply write_uint_outside. exact Ht.
  - rewrite is_lock_free_sizeof in Hf. unfold bind.
    rewrite (exchange_N_fast cfg _ _ _ _ s Hf).
    do 2 eexists. split; [reflexivity|]. split; [reflexivity|].
    cbn [mem locks trace set_mem]. repeat split.
    intros a [Ht _]. apply write_uint_outside. exact Ht.
  - rewrite is_lock_free_sizeof in Hf. unfold bind.
    rewrite (compare_exchange_N_fast cfg _ _ _ _ _ _ s Hf).
    destruct (builtin_compare_exchange_frame w ptr expected desired
                (GNUC_NOT_CLANG cfg) success failure s)
      as (b & s' & -> & Hl & Ht & Hm).
    do 2 eexists. split; [reflexivity|]. split; [reflexivity|].
    repeat split; auto.
    intros a [Hp Hb]. apply Forall_inv in Hb. apply Hm; assumption.
  - rewrite is_lock_free_sizeof in Hf. unfold bind.
    rewrite (fetch_N_fast cfg _ _ _ _ _ s Hf).
    do 2 eexists. split; [reflexivity|]. split; [reflexivity|].
    cbn [mem locks trace set_mem]. repeat split.
    intros a [Ht _]. apply write_uint_outside. exact Ht.
Qed.

Ltac slow_dispatch Hf :=
  cbn [call_size target] in *;
  cbn [run];
  unfold __atomic_load_c, __atomic_store_c, __atomic_compare_exchange_c,
    __atomic_exchange_c, __atomic_load_N, __atomic_store_N,
    __atomic_exchange_N, __atomic_compare_exchange_N, __atomic_fetch_N;
  first
    [ rewrite (proj2 (LOCK_FREE_CASES_None cfg _) Hf)
    | rewrite is_lock_free_sizeof in Hf; rewrite Hf ].

(** A call on the locked path never returns while the slot stays held. *)
Lemma run_blocked (c : call) (s : State) :
  is_lock_free cfg (call_size c) = false ->
  locks s (slot (target c)) = true ->
  run cfg c s = Spin.
Proof.
  intros Hf Hl. destruct c; slow_dispatch Hf;
    unfold bind, lock; rewrite Hl; reflexivity.
Qed.

Lemma run_negative_size (c : call) (s : State) :
  is_lock_free cfg (call_size c) = false ->
  locks s (slot (target c)) = false ->
  call_size c < 0 ->
  run cfg c s = Undefined.
Proof.
  intros Hf Hl Hn.
  destruct c; try (pose proof (sizeof_pos w); cbn [call_size] in Hn; lia);
    slow_dispatch Hf; take_lock Hl;
    replace (size <? 0) with true by (symmetry; apply Z.ltb_lt; exact Hn);
    reflexivity.
Qed.

Lemma run_slow (c : call) (s : State) :
  is_lock_free cfg (call_size c) = false ->
  locks s (slot (target c)) = false ->
  0 <= call_size c ->
  exists r s',
    run cfg c s = Ret r s'
    /\ (forall i, locks s' i = locks s i)
    /\ trace s' = trace s ++ [Acquire (slot (target c)); Release (slot (target c))]
    /\ spurious s' = spurious s
    /\ (forall a, outside c a -> mem s' a = mem s a).
Proof.
  intros Hf Hl Hs.
  assert (Hlocks : forall m i, locks (after_cs (slot (target c)) m s) i = locks s i)
    by (intros; apply after_cs_locks; exact Hl).
  assert (Htrace : forall m, trace (after_cs (slot (target c)) m s)
            = trace s ++ [Acquire (slot (target c)); Release (slot (target c))])
    by (intros; cbn [trace after_cs]; rewrite <- app_assoc; reflexivity).
  unfold outside.
  destruct c; cbn [call_size target result_buffers run] in *; unfold bind at 1.
  - rewrite (load_c_slow cfg _ _ _ _ s (proj2 (LOCK_FREE_CASES_None cfg _) Hf) Hs Hl).
    do 2 eexists. split; [reflexivity|]. repeat split; auto.
    intros a [_ Hb]. apply Forall_inv in Hb. cbn [mem after_cs].
    apply store_bytes_outside. rewrite load_bytes_length, Z2Nat.id; assumption.
  - rewrite (store_c_slow cfg _ _ _ _ s (proj2 (LOCK_FREE_CASES_None cfg _) Hf) Hs Hl).
    do 2 eexists. split; [reflexivity|]. repeat split; auto.
    intros a [Ht _]. cbn [mem after_cs].
    apply store_bytes_outside. rewrite load_bytes_length, Z2Nat.id; assumption.
  - rewrite (compare_exchange_c_slow cfg _ _ _ _ _ _ s
               (proj2 (LOCK_FREE_CASES_None cfg _) Hf) Hs Hl).
    destruct (compare_bytes _ _ =? 0);
      (do 2 eexists; split; [reflexivity|]; repeat split; auto;
       intros a [Ht Hb]; apply Forall_inv in Hb; cbn [mem after_cs];
       apply store_bytes_outside; rewrite load_bytes_length, Z2Nat.id; assumption).
  - rewrite (exchange_c_slow cfg _ _ _ _ _ s
               (proj2 (LOCK_FREE_CASES_None cfg _) Hf) Hs Hl).
    do 2 eexists. split; [reflexivity|]. repeat split; auto.
    intros a [Ht Hb]. apply Forall_inv in Hb. cbn [mem after_cs].
    rewrite !store_bytes_outside;
      [reflexivity | |]; rewrite load_bytes_length, Z2Nat.id; assumption.
  - rewrite is_lock_free_sizeof in Hf. rewrite (load_N_slow cfg _ _ _ s Hf Hl).
    do 2 eexists. split; [reflexivity|]. repeat split; auto.
  - rewrite is_lock_free_sizeof in Hf. rewrite (store_N_slow cfg _ _ _ _ s Hf Hl).
    do 2 eexists. split; [reflexivity|]. repeat split; auto.
    intros a [Ht _]. cbn [mem after_cs]. apply write_uint_outside. exact Ht.
  - rewrite is_lock_free_sizeof in Hf. rewrite (exchange_N_slow cfg _ _ _ _ s Hf Hl).
    do 2 eexists. split; [reflexivity|]. repeat split; auto.
    intros a [Ht _]. cbn [mem after_cs]. apply write_uint_outside. exact Ht.
  - rewrite is_lock_free_sizeof in Hf.
    rewrite (compare_exchange_N_slow cfg _ _ _ _ _ _ s Hf Hl).
    destruct (_ =? _);
      (do 2 eexists; split; [reflexivity|]; repeat split; auto;
       intros a [Ht Hb]; apply Forall_inv in Hb; cbn [mem after_cs];
       apply write_uint_outside; assumption).
  - rewrite is_lock_free_sizeof in Hf. rewrite (fetch_N_slow cfg _ _ _ _ _ s Hf Hl).
    do 2 eexists. split; [reflexivity|]. repeat split; auto.
    intros a [Ht _]. cbn [mem after_cs]. apply write_uint_outside. exact Ht.
Qed.

End Calls.

(** C4. For sizes 1, 2, 4 and 8 every operation whose size is lock-free is
    the native builtin sequence: it returns whatever the lock table holds,
    records no lock event and leaves the table as it was.  When the size is
    not lock-free, or lies outside {1,2,4,8}, the operation takes the slot of
    its pointer: it never returns while that slot is held, and otherwise it
    acquires and releases exactly that slot.  A 16-byte operation takes the
    lock on every target. *)
Theorem lock_free_dispatch (cfg : Target) (c : call) (s : State) :
  let size := call_size c in
  let l := lock_for_pointer cfg (target c) in
  let locked_path :=
    (locks s l = true -> run cfg c s = Spin)
    /\ (locks s l = false -> 0 <= size ->
        exists r s',
          run cfg c s = Ret r s'
          /\ trace s' = trace s ++ [Acquire l; Release l]
          /\ (forall i, locks s' i = locks s i)) in
  (In size [1; 2; 4; 8] -> is_lock_free cfg size = true ->
   exists r s',
     run cfg c s = Ret r s'
     /\ run cfg c s = native cfg c s
     /\ locks s' = locks s
     /\ trace s' = trace s)
  /\ (is_lock_free cfg size = false \/ ~ In size [1; 2; 4; 8] -> locked_path)
  /\ (size = 16 -> locked_path).
Proof.
  intros size l locked_path.
  assert (Slow : is_lock_free cfg size = false -> locked_path).
  { intros Hf. split.
    - intros Hl. apply run_blocked; assumption.
    - intros Hl Hs.
      destruct (run_slow cfg c s Hf Hl Hs) as (r & s' & Hr & Hlk & Ht & _).
      exists r, s'. auto. }
  split; [|split].
  - intros _ Hf.
    destruct (run_fast cfg c s Hf) as (r & s' & Hr & Hn & Hl & Ht & _).
    exists r, s'. auto.
  - intros [Hf | Hout]; apply Slow; [exact Hf|].
    apply is_lock_free_outside. exact Hout.
  - intros H16. apply Slow. unfold size in *. rewrite H16. reflexivity.
Qed.

Lemma lock_free_dispatch_witness :
  (exists r s',
     run clang_x86_64 (Fetch_N Add W4 0 1 5) sample_state = Ret r s'
     /\ run clang_x86_64 (Fetch_N Add W4 0 1 5) sample_state
        = native clang_x86_64 (Fetch_N Add W4 0 1 5) sample_state
     /\ locks s' = locks sample_state
     /\ trace s' = trace sample_state)
  /\ (exists r s',
        run clang_x86_64 (Load_c 16 0 32 5) sample_state = Ret r s'
        /\ trace s'
           = trace sample_state
             ++ [Acquire (lock_for_pointer clang_x86_64 0);
                 Release (lock_for_pointer clang_x86_64 0)]
        /\ (forall i, locks s' i = locks sample_state i)).
Proof.
  split.
  - apply (lock_free_dispatch clang_x86_64 (Fetch_N Add W4 0 1 5) sample_state);
      [simpl; lia | reflexivity].
  - apply (lock_free_dispatch clang_x86_64 (Load_c 16 0 32 5) sample_state);
      [reflexivity | reflexivity | simpl; lia].
Defined.

(** C8 (as stated, refuted). A 16-byte generic load from address 0 into the
    buffer at address 32 changes the byte at 32, and a failing 16-byte
    compare-exchange on address 0 with [expected] at 32 does too; 32 is no
    byte of the atomic object at [[0, 16)]. *)
Lemma load_c_writes_dest :
  (exists s',
     run no_native (Load_c 16 0 32 5) sample_state = Ret VVoid s'
     /\ ~ (target (Load_c 16 0 32 5) <= 32
           < target (Load_c 16 0 32 5) + call_size (Load_c 16 0 32 5))
     /\ mem s' 32 <> mem sample_state 32)
  /\ (exists s',
        run no_native (Compare_exchange_c 16 0 32 64 5 5) sample_state
        = Ret (VInt 0) s'
        /\ ~ (target (Compare_exchange_c 16 0 32 64 5 5) <= 32
              < target (Compare_exchange_c 16 0 32 64 5 5)
                + call_size (Compare_exchange_c 16 0 32 64 5 5))
        /\ mem s' 32 <> mem sample_state 32).
Proof.
  split; eexists; (split; [reflexivity|]); (split; [simpl; lia|]);
    vm_compute; discriminate.
Qed.

(** C8 (amended). A public operation that returns has changed no byte
    outside the atomic object and the result buffers it was handed ([dest]
    of a load, [old] of an exchange, [expected] of a compare-exchange), has
    left every lock slot as it found it, and has recorded lock events on the
    slot of its pointer only. *)
Theorem mutation_confined
    (cfg : Target) (c : call) (s : State) (r : value) (s' : State) :
  run cfg c s = Ret r s' ->
  (forall a, outside c a -> mem s' a = mem s a)
  /\ (forall i, locks s' i = locks s i)
  /\ (exists evs,
        trace s' = trace s ++ evs
        /\ Forall (fun e => slot_of e = lock_for_pointer cfg (target c)) evs).
Proof.
  intros Hrun. destruct (is_lock_free cfg (call_size c)) eqn:Hf.
  - destruct (run_fast cfg c s Hf) as (r0 & s0 & Hr & _ & Hl & Ht & Hm).
    rewrite Hr in Hrun. injection Hrun as <- <-.
    split; [exact Hm|]. split; [intros i; rewrite Hl; reflexivity|].
    exists []. rewrite app_nil_r. split; [exact Ht | constructor].
  - destruct (locks s (lock_for_pointer cfg (target c))) eqn:Hl.
    + rewrite (run_blocked cfg c s Hf Hl) in Hrun. discriminate.
    + destruct (Z.lt_ge_cases (call_size c) 0) as [Hn | Hs].
      * rewrite (run_negative_size cfg c s Hf Hl Hn) in Hrun. discriminate.
      * destruct (run_slow cfg c s Hf Hl Hs) as (r0 & s0 & Hr & Hlk & Ht & _ & Hm).
        rewrite Hr in Hrun. injection Hrun as <- <-.
        split; [exact Hm|]. split; [exact Hlk|].
        eexists. split; [exact Ht|]. repeat constructor.
Qed.

Lemma mutation_confined_witness :
  let s' := after_cs (lock_for_pointer no_native 0)
              (store_bytes sample_memory 32 (load_bytes sample_memory 0 16))
              sample_state in
  (forall a, outside (Load_c 16 0 32 5) a -> mem s' a = mem sample_state a)
  /\ (forall i, locks s' i = locks sample_state i)
  /\ (exists evs,
        trace s' = trace sample_state ++ evs
        /\ Forall (fun e => slot_of e
                            = lock_for_pointer no_native (target (Load_c 16 0 32 5)))
             evs).
Proof.
  apply (mutation_confined no_native (Load_c 16 0 32 5) sample_state VVoid).
  reflexivity.
Defined.

(** ** OS version probe *)

(** C10. For every queried triple, [__isOSVersionAtLeast] returns 1 exactly
    when (Major, Minor, Subminor) is lexicographically at most the cached
    host version triple, as the globals hold it once the call has populated
    them, and returns 0 otherwise. *)
Theorem isOSVersionAtLeast_lexicographic
    (min_required_1060 : bool) (host : option (list Z))
    (Major Minor Subminor : Z) (g : OSVersion.Globals) :
  let '(r, g') :=
    OSVersion.__isOSVersionAtLeast min_required_1060 host Major Minor Subminor g in
  g' = OSVersion.populate min_required_1060 host g
  /\ (r = 1 <-> OSVersion.lex_le (Major, Minor, Subminor) (OSVersion.cached g'))
  /\ (r = 0 <-> ~ OSVersion.lex_le (Major, Minor, Subminor) (OSVersion.cached g')).
Proof.
  unfold OSVersion.__isOSVersionAtLeast, OSVersion.lex_le, OSVersion.cached.
  set (g' := OSVersion.populate min_required_1060 host g).
  split; [reflexivity|].
  destruct (Major <? OSVersion.GlobalMajor g') eqn:E1;
    [apply Z.ltb_lt in E1; split; split; intros; try lia|].
  apply Z.ltb_ge in E1.
  destruct (OSVersion.GlobalMajor g' <? Major) eqn:E2;
    [apply Z.ltb_lt in E2; split; split; intros; try lia|].
  apply Z.ltb_ge in E2.
  destruct (Minor <? OSVersion.GlobalMinor g') eqn:E3;
    [apply Z.ltb_lt in E3; split; split; intros; try lia|].
  apply Z.ltb_ge in E3.
  destruct (OSVersion.GlobalMinor g' <? Minor) eqn:E4;
    [apply Z.ltb_lt in E4; split; split; intros; try lia|].
  apply Z.ltb_ge in E4.
  destruct (Subminor <=? OSVersion.GlobalSubminor g') eqn:E5;
    [apply Z.leb_le in E5 | apply Z.leb_gt in E5]; split; split; intros; try lia.
Qed.

Example isOSVersionAtLeast_10_15_on_11_2 :
  fst (OSVersion.__isOSVersionAtLeast true (Some [11; 2; 3]) 10 15 7
         OSVersion.startup) = 1
  /\ fst (OSVersion.__isOSVersionAtLeast true (Some [11; 2; 3]) 11 3 0
            OSVersion.startup) = 0.
Proof. split; reflexivity. Qed.

(** ** Sized entry points against the generic ones *)

Section Equivalence.

Variable cfg : Target.
Variable w : width.
Variable ptr : Z.
Variable s : State.
Hypothesis slot_free : locks s (lock_for_pointer cfg ptr) = false.

Local Abbreviation slot p := (lock_for_pointer cfg p).
Local Abbreviation n := (Z.to_nat (sizeof w)).

Lemma same_state_refl (t : State) : same_state t t.
Proof. repeat split. Qed.

Lemma store_bytes_comm (m : memory) (p q : Z) (xs ys : list byte) (a : Z) :
  disjoint p (Z.of_nat (length xs)) q (Z.of_nat (length ys)) ->
  store_bytes (store_bytes m p xs) q ys a = store_bytes (store_bytes m q ys) p xs a.
Proof.
  intros Hd. unfold store_bytes, in_range, disjoint in *.
  destruct (q <=? a) eqn:E1; destruct (a <? q + Z.of_nat (length ys)) eqn:E2;
    destruct (p <=? a) eqn:E3; destruct (a <? p + Z.of_nat (length xs)) eqn:E4;
    simpl; try reflexivity.
  apply Z.leb_le in E1, E3. apply Z.ltb_lt in E2, E4. lia.
Qed.

Lemma load_N_matches (dest model : Z) :
  exists r s1 s2,
    __atomic_load_N cfg w ptr model s = Ret r s1
    /\ __atomic_load_c cfg (sizeof w) ptr dest model s = Ret tt s2
    /\ same_state s2 (set_mem (write_uint cfg w (mem s1) dest r) s1).
Proof.
  pose proof (sizeof_pos w) as Hp.
  pose proof (LOCK_FREE_CASES_sizeof cfg w) as Hc.
  destruct (lockfree cfg w) eqn:Hf.
  - rewrite (load_N_fast cfg _ _ _ s Hf), (load_c_fast cfg _ _ _ _ w s Hc).
    do 3 eexists. split; [reflexivity|]. split; [reflexivity|].
    apply same_state_refl.
  - rewrite (load_N_slow cfg _ _ _ s Hf slot_free).
    rewrite (load_c_slow cfg _ _ _ _ s Hc) by (auto; lia).
    do 3 eexists. split; [reflexivity|]. split; [reflexivity|].
    unfold same_state. cbn [mem locks trace spurious set_mem after_cs].
    unfold write_uint. rewrite encode_read_uint. repeat split.
Qed.

Lemma store_N_matches (src model : Z) :
  exists s1 s2,
    __atomic_store_N cfg w ptr (read_uint cfg w (mem s) src) model s = Ret tt s1
    /\ __atomic_store_c cfg (sizeof w) ptr src model s = Ret tt s2
    /\ same_state s2 s1.
Proof.
  pose proof (sizeof_pos w) as Hp.
  pose proof (LOCK_FREE_CASES_sizeof cfg w) as Hc.
  destruct (lockfree cfg w) eqn:Hf.
  - rewrite (store_N_fast cfg _ _ _ _ s Hf), (store_c_fast cfg _ _ _ _ w s Hc).
    do 2 eexists. split; [reflexivity|]. split; [reflexivity|].
    apply same_state_refl.
  - rewrite (store_N_slow cfg _ _ _ _ s Hf slot_free).
    rewrite (store_c_slow cfg _ _ _ _ s Hc) by (auto; lia).
    do 2 eexists. split; [reflexivity|]. split; [reflexivity|].
    unfold same_state. cbn [mem locks trace spurious set_mem after_cs].
    unfold write_uint. rewrite encode_read_uint. repeat split.
Qed.

Lemma exchange_N_matches (val old model : Z) :
  disjoint old (sizeof w) ptr (sizeof w) ->
  disjoint old (sizeof w) val (sizeof w) ->
  exists r s1 s2,
    __atomic_exchange_N cfg w ptr (read_uint cfg w (mem s) val) model s = Ret r s1
    /\ __atomic_exchange_c cfg (sizeof w) ptr val old model s = Ret tt s2
    /\ same_state s2 (set_mem (write_uint cfg w (mem s1) old r) s1).
Proof.
  intros Hop Hov. pose proof (sizeof_pos w) as Hp.
  pose proof (LOCK_FREE_CASES_sizeof cfg w) as Hc.
  destruct (lockfree cfg w) eqn:Hf.
  - rewrite (exchange_N_fast cfg _ _ _ _ s Hf), (exchange_c_fast cfg _ _ _ _ _ w s Hc).
    do 3 eexists. split; [reflexivity|]. split; [reflexivity|].
    apply same_state_refl.
  - rewrite (exchange_N_slow cfg _ _ _ _ s Hf slot_free).
    rewrite (exchange_c_slow cfg _ _ _ _ _ s Hc) by (auto; lia).
    do 3 eexists. split; [reflexivity|]. split; [reflexivity|].
    unfold same_state. cbn [mem locks trace spurious set_mem after_cs].
    repeat split. intros a. cbv zeta.
    rewrite load_store_disjoint;
      [| lia | apply load_bytes_length | apply disjoint_sym; exact Hov].
    unfold write_uint. rewrite !encode_read_uint.
    apply store_bytes_comm. rewrite !load_bytes_length, Z2Nat.id by lia.
    exact Hop.
Qed.

Lemma compare_exchange_N_matches (expected desired success failure : Z) :
  exists b s1 s2,
    __atomic_compare_exchange_N cfg w ptr expected
      (read_uint cfg w (mem s) desired) success failure s = Ret b s1
    /\ __atomic_compare_exchange_c cfg (sizeof w) ptr expected desired
         success failure s = Ret (if b then 1 else 0) s2
    /\ same_state s2 s1.
Proof.
  pose proof (sizeof_pos w) as Hp.
  pose proof (LOCK_FREE_CASES_sizeof cfg w) as Hc.
  destruct (lockfree cfg w) eqn:Hf.
  - rewrite (compare_exchange_N_fast cfg _ _ _ _ _ _ s Hf).
    rewrite (compare_exchange_c_fast cfg _ _ _ _ _ _ w s Hc).
    destruct (builtin_compare_exchange_frame cfg w ptr expected
                (read_uint cfg w (mem s) desired) (GNUC_NOT_CLANG cfg)
                success failure s) as (b & s' & -> & _).
    exists b, s', s'. split; [reflexivity|]. split; [reflexivity|].
    apply same_state_refl.
  - rewrite (compare_exchange_N_slow cfg _ _ _ _ _ _ s Hf slot_free).
    rewrite (compare_exchange_c_slow cfg _ _ _ _ _ _ s Hc) by (auto; lia).
    destruct (read_uint cfg w (mem s) ptr =? read_uint cfg w (mem s) expected) eqn:E.
    + apply Z.eqb_eq, read_uint_eq_iff in E. rewrite E.
      replace (compare_bytes _ _ =? 0) with true
        by (symmetry; apply Z.eqb_eq, compare_bytes_eq; reflexivity).
      do 3 eexists. split; [reflexivity|]. split; [reflexivity|].
      unfold write_uint. rewrite encode_read_uint. apply same_state_refl.
    + replace (compare_bytes _ _ =? 0) with false.
      2:{ symmetry. apply Z.eqb_neq. intros C. apply Z.eqb_neq in E. apply E.
          apply read_uint_eq_iff. apply compare_bytes_eq in C; [exact C|].
          rewrite !load_bytes_length. reflexivity. }
      do 3 eexists. split; [reflexivity|]. split; [reflexivity|].
      unfold write_uint. rewrite encode_read_uint. apply same_state_refl.
Qed.

Lemma fetch_N_matches (o : rmw) (val model : Z) :
  exists r s1 s2,
    __atomic_fetch_N cfg o w ptr val model s = Ret r s1
    /\ spec_fetch_op cfg o (sizeof w) ptr val model s = Ret r s2
    /\ same_state s2 s1.
Proof.
  pose proof (sizeof_pos w) as Hp. unfold spec_fetch_op.
  replace (sizeof w <? 0) with false by (symmetry; apply Z.ltb_ge; lia).
  rewrite is_lock_free_sizeof.
  destruct (lockfree cfg w) eqn:Hf.
  - rewrite (fetch_N_fast cfg _ _ _ _ _ s Hf).
    do 3 eexists. split; [reflexivity|]. split; [reflexivity|].
    apply same_state_refl.
  - rewrite (fetch_N_slow cfg _ _ _ _ _ s Hf slot_free).
    take_lock slot_free.
    do 3 eexists. split; [reflexivity|]. split; [reflexivity|].
    apply same_state_refl.
Qed.

End Equivalence.

(** Sized entry points against the generic ones, separate buffers.  For
    each width, when the slot is free and, for the exchange, [old] overlaps
    neither [ptr] nor [val], the sized entry point does what the generic
    call with that literal size does, the generic form passing through
    buffers what the sized form takes and returns by value: both return,
    with the same result, the same lock flags and lock events, and the same
    final bytes (the generic load and exchange additionally hold the result
    in their output buffer). *)
Theorem sized_matches_generic (cfg : Target) (w : width) (ptr : Z) (s : State) :
  locks s (lock_for_pointer cfg ptr) = false ->
  (forall dest model,
     exists r s1 s2,
       __atomic_load_N cfg w ptr model s = Ret r s1
       /\ __atomic_load_c cfg (sizeof w) ptr dest model s = Ret tt s2
       /\ same_state s2 (set_mem (write_uint cfg w (mem s1) dest r) s1))
  /\ (forall src model,
      exists s1 s2,
        __atomic_store_N cfg w ptr (read_uint cfg w (mem s) src) model s
        = Ret tt s1
        /\ __atomic_store_c cfg (sizeof w) ptr src model s = Ret tt s2
        /\ same_state s2 s1)
  /\ (forall val old model,
      disjoint old (sizeof w) ptr (sizeof w) ->
      disjoint old (sizeof w) val (sizeof w) ->
      exists r s1 s2,
        __atomic_exchange_N cfg w ptr (read_uint cfg w (mem s) val) model s
        = Ret r s1
        /\ __atomic_exchange_c cfg (sizeof w) ptr val old model s = Ret tt s2
        /\ same_state s2 (set_mem (write_uint cfg w (mem s1) old r) s1))
  /\ (forall expected desired success failure,
      exists b s1 s2,
        __atomic_compare_exchange_N cfg w ptr expected
          (read_uint cfg w (mem s) desired) success failure s = Ret b s1
        /\ __atomic_compare_exchange_c cfg (sizeof w) ptr expected desired
             success failure s = Ret (if b then 1 else 0) s2
        /\ same_state s2 s1)
  /\ (forall o val model,
      exists r s1 s2,
        __atomic_fetch_N cfg o w ptr val model s = Ret r s1
        /\ spec_fetch_op cfg o (sizeof w) ptr val model s = Ret r s2
        /\ same_state s2 s1).
Proof.
  intros Hl. repeat split.
  - intros. apply load_N_matches. exact Hl.
  - intros. apply store_N_matches. exact Hl.
  - intros. apply exchange_N_matches; assumption.
  - intros. apply compare_exchange_N_matches. exact Hl.
  - intros. apply fetch_N_matches. exact Hl.
Qed.

Lemma sized_matches_generic_witness :
  exists r s1 s2,
    __atomic_fetch_N gcc_ppc32 Sub W8 0 1 5 sample_state = Ret r s1
    /\ spec_fetch_op gcc_ppc32 Sub (sizeof W8) 0 1 5 sample_state = Ret r s2
    /\ same_state s2 s1.
Proof.
  apply (sized_matches_generic gcc_ppc32 W8 0 sample_state). reflexivity.
Defined.

(** C6 (failing input). An exchange with the value passed in place ([val]
    and [old] the same buffer at 0, [ptr] at 64) on the locked path.  The
    sized entry point, given the value the buffer holds, returns the prior
    value and leaves the new value at [ptr]; the generic call with the
    literal size hands back the same prior value in the buffer but leaves
    [ptr] with its prior contents.  This holds for 8 bytes on a target
    without native 8-byte atomics and for 16 bytes, which take the lock on
    every target. *)
Theorem sized_exchange_differs_from_generic_in_place :
  (exists r s1 s2,
     __atomic_exchange_N gcc_ppc32 W8 64
       (read_uint gcc_ppc32 W8 (mem sample_state) 0) 5 sample_state = Ret r s1
     /\ __atomic_exchange_c gcc_ppc32 (sizeof W8) 64 0 0 5 sample_state = Ret tt s2
     /\ read_uint gcc_ppc32 W8 (mem s2) 0 = r
     /\ read_uint gcc_ppc32 W8 (mem s1) 64 = 0x1122334455667788
     /\ read_uint gcc_ppc32 W8 (mem s2) 64 = 0
     /\ mem s2 64 <> mem s1 64)
  /\ (exists r s1 s2,
        __atomic_exchange_N clang_x86_64 W16 64
          (read_uint clang_x86_64 W16 (mem sample_state) 0) 5 sample_state
        = Ret r s1
        /\ __atomic_exchange_c clang_x86_64 (sizeof W16) 64 0 0 5 sample_state
           = Ret tt s2
        /\ read_uint clang_x86_64 W16 (mem s2) 0 = r
        /\ read_uint clang_x86_64 W16 (mem s1) 64
           = read_uint clang_x86_64 W16 (mem sample_state) 0
        /\ read_uint clang_x86_64 W16 (mem s2) 64 = 0
        /\ mem s2 64 <> mem s1 64).
Proof.
  split.
  - rewrite (exchange_N_slow gcc_ppc32 W8 64 _ 5 sample_state eq_refl eq_refl).
    rewrite (exchange_c_slow gcc_ppc32 (sizeof W8) 64 0 0 5 sample_state
               eq_refl ltac:(simpl; lia) eq_refl).
    do 3 eexists. split; [reflexivity|]. split; [reflexivity|].
    split; [reflexivity|]. split; [reflexivity|]. split; [reflexivity|].
    vm_compute. discriminate.
  - rewrite (exchange_N_slow clang_x86_64 W16 64 _ 5 sample_state eq_refl eq_refl).
    rewrite (exchange_c_slow clang_x86_64 (sizeof W16) 64 0 0 5 sample_state
               eq_refl ltac:(simpl; lia) eq_refl).
    do 3 eexists. split; [reflexivity|]. split; [reflexivity|].
    split; [reflexivity|]. split; [reflexivity|]. split; [reflexivity|].
    vm_compute. discriminate.
Qed.


(** ** Interleaved threads on one locked location *)

Lemma total_app (f : thread -> nat) (a b : list thread) :
  total f (a ++ b) = (total f a + total f b)%nat.
Proof. induction a as [|x a IH]; simpl; [reflexivity | rewrite IH; lia]. Qed.

Lemma total_zero (f : thread -> nat) (ts : list thread) :
  total f ts = O -> Forall (fun t => f t = O) ts.
Proof.
  induction ts as [|t r IH]; simpl; intros H; constructor; [lia | apply IH; lia].
Qed.

Lemma total_pos_split (f : thread -> nat) (ts : list thread) :
  (0 < total f ts)%nat ->
  exists pre t post, ts = pre ++ t :: post /\ (0 < f t)%nat.
Proof.
  induction ts as [|t r IH]; simpl; intros H; [lia|].
  destruct (f t) eqn:E.
  - destruct IH as (pre & t' & post & -> & Hf); [lia|].
    exists (t :: pre), t', post. split; [reflexivity | exact Hf].
  - exists [], t, r. split; [reflexivity | lia].
Qed.

Lemma replace_nth_app {A : Type} (pre post : list A) (x y : A) :
  replace_nth (length pre) y (pre ++ x :: post) = pre ++ y :: post.
Proof. induction pre as [|z pre IH]; simpl; [reflexivity | rewrite IH; reflexivity]. Qed.

Lemma replace_nth_length {A : Type} (i : nat) (y : A) (l : list A) :
  length (replace_nth i y l) = length l.
Proof.
  revert i; induction l as [|z l IH]; intros [|i]; simpl; auto.
Qed.

Lemma nth_error_middle {A : Type} (pre post : list A) (x : A) :
  nth_error (pre ++ x :: post) (length pre) = Some x.
Proof. induction pre as [|z pre IH]; simpl; [reflexivity | exact IH]. Qed.

Section Interleavings.

Variable cfg : Target.
Variable w : width.
Variable ptr : Z.
Variable M : nat.
Variable v0 : Z.

Local Abbreviation slot := (lock_for_pointer cfg ptr).
Local Abbreviation Inv := (fetch_add_invariant cfg w ptr M v0).

Lemma thread_ok_outside_cs (v v' : Z) (t : thread) :
  in_cs t = O -> thread_ok M v t -> thread_ok M v' t.
Proof.
  unfold in_cs, thread_ok. intros Hc (H1 & H2 & H3). repeat split; auto.
  intros tmp E. rewrite E in Hc. discriminate.
Qed.

Lemma Forall_ok_outside_cs (v v' : Z) (ts : list thread) :
  total in_cs ts = O -> Forall (thread_ok M v) ts -> Forall (thread_ok M v') ts.
Proof.
  intros Hz Hok. apply total_zero in Hz.
  rewrite Forall_forall in *. intros t Ht.
  apply (thread_ok_outside_cs v); auto.
Qed.

Lemma modulus_pos : 0 < modulus w.
Proof. unfold modulus. apply Z.pow_pos_nonneg; [lia|]. pose proof (sizeof_pos w). lia. Qed.

(** One step of one thread keeps the invariant, and uses up one of the
    thread's remaining steps unless the thread has finished. *)
Lemma step_preserves (pre post : list thread) (t t' : thread) (s s' : State) :
  Inv (pre ++ t :: post, s) ->
  thread_next cfg w ptr t s = Ret t' s' ->
  Inv (pre ++ t' :: post, s')
  /\ (todo t <> O -> steps_left t = S (steps_left t')).
Proof.
  unfold fetch_add_invariant. cbn [fst snd].
  rewrite !Forall_app, !total_app. cbn [total].
  intros ((Hpre & Hall) & Hval & Hcs) Hstep.
  apply Forall_cons_iff in Hall. destruct Hall as [Ht Hpost].
  destruct t as [k p]. destruct Ht as (HM & Hdone & Htmp). cbn [todo now] in *.
  unfold thread_next in Hstep. cbn [todo now] in Hstep.
  destruct k as [|k].
  - injection Hstep as <- <-. cbn [todo now].
    split; [|congruence]. repeat split; auto.
    apply Forall_cons_iff. split; [repeat split; auto | exact Hpost].
  - destruct p as [| |tmp|tmp]; unfold bind, lock, unlock, deref, assign, ret in Hstep.
    + destruct (locks s slot) eqn:Hl; [discriminate|].
      injection Hstep as <- <-. cbn [mem locks todo now] in *.
      unfold written, in_cs, steps_left in *; cbn [todo now] in *;
      fold in_cs in *; fold (written M) in *.
      split; [|lia]. split; [|split].
      * split; [exact Hpre|]. apply Forall_cons_iff. split; [|exact Hpost].
        repeat split; [exact HM | discriminate | discriminate].
      * exact Hval.
      * unfold upd. rewrite Z.eqb_refl. lia.
    + injection Hstep as <- <-.
      unfold written, in_cs, steps_left in *; cbn [todo now] in *;
      fold in_cs in *; fold (written M) in *.
      split; [|lia]. split; [|split].
      * split; [exact Hpre|]. apply Forall_cons_iff. split; [|exact Hpost].
        repeat split; [exact HM | discriminate | intros ? [= <-]; reflexivity].
      * exact Hval.
      * exact Hcs.
    + injection Hstep as <- <-. cbn [mem locks set_mem todo now] in *.
      unfold written, in_cs, steps_left in *; cbn [todo now] in *;
      fold in_cs in *; fold (written M) in *.
      assert (Hothers : total in_cs pre = O /\ total in_cs post = O)
        by (destruct (locks s slot); lia).
      destruct Hothers as [Hp0 Hq0].
      rewrite read_write_same.
      split; [|lia]. split; [|split].
      * split; [apply (Forall_ok_outside_cs _ _ _ Hp0 Hpre)|].
        apply Forall_cons_iff.
        split; [|apply (Forall_ok_outside_cs _ _ _ Hq0 Hpost)].
        repeat split; [exact HM | discriminate | discriminate].
      * rewrite (Htmp tmp eq_refl), Hval. unfold apply_op, wrap.
        pose proof modulus_pos as Hm.
        rewrite Z.mod_mod by lia. rewrite Z.add_mod_idemp_l by lia.
        f_equal. lia.
      * exact Hcs.
    + injection Hstep as <- <-. cbn [mem locks todo now] in *.
      unfold written, in_cs, steps_left in *; cbn [todo now] in *;
      fold in_cs in *; fold (written M) in *.
      split; [|lia]. split; [|split].
      * split; [exact Hpre|]. apply Forall_cons_iff. split; [|exact Hpost].
        unfold thread_ok; cbn [todo now].
        split; [lia | split; [reflexivity | discriminate]].
      * rewrite Hval. do 3 f_equal. lia.
      * unfold upd. rewrite Z.eqb_refl. destruct (locks s slot); lia.
Qed.

Lemma sched_step_middle (pre post : list thread) (t t' : thread) (s s' : State) :
  thread_next cfg w ptr t s = Ret t' s' ->
  sched_step cfg w ptr (length pre) (pre ++ t :: post, s) = (pre ++ t' :: post, s').
Proof.
  intros H. unfold sched_step. cbn [fst snd].
  rewrite nth_error_middle, H, replace_nth_app. reflexivity.
Qed.

Lemma sched_step_invariant (i : nat) (c : list thread * State) :
  Inv c -> Inv (sched_step cfg w ptr i c) /\ length (fst (sched_step cfg w ptr i c)) = length (fst c).
Proof.
  intros HI. destruct c as [ts s]. unfold sched_step. cbn [fst snd].
  destruct (nth_error ts i) as [t|] eqn:En; [|auto].
  destruct (thread_next cfg w ptr t s) as [t' s'| |] eqn:Es; [|auto|auto].
  cbn [fst]. rewrite replace_nth_length. split; [|reflexivity].
  destruct (nth_error_split ts i En) as (pre & post & -> & <-).
  rewrite replace_nth_app. apply (step_preserves pre post t t' s s' HI Es).
Qed.

Lemma run_schedule_invariant (sched : list nat) (c : list thread * State) :
  Inv c ->
  Inv (run_schedule cfg w ptr sched c)
  /\ length (fst (run_schedule cfg w ptr sched c)) = length (fst c).
Proof.
  revert c; induction sched as [|i sched IH]; intros c HI; [auto|].
  cbn [run_schedule fold_left].
  destruct (sched_step_invariant i c HI) as [HI' Hlen].
  destruct (IH _ HI') as [HI'' Hlen'].
  split; [exact HI''|]. unfold run_schedule in Hlen'. rewrite Hlen'. exact Hlen.
Qed.

Lemma finished_written (v : Z) (ts : list thread) :
  Forall (thread_ok M v) ts -> finished ts = true ->
  total (written M) ts = (length ts * M)%nat.
Proof.
  induction ts as [|t r IH]; [reflexivity|].
  intros Hok Hfin. apply Forall_cons_iff in Hok. destruct Hok as [(_ & Hd & _) Hr].
  cbn [finished forallb] in Hfin. apply andb_prop in Hfin. destruct Hfin as [H0 Hfr].
  apply Nat.eqb_eq in H0. cbn [total length]. rewrite (IH Hr Hfr).
  unfold written. rewrite (Hd H0), H0. lia.
Qed.

Lemma finished_steps_left (ts : list thread) :
  total steps_left ts = O -> finished ts = true.
Proof.
  induction ts as [|t r IH]; [reflexivity|]. cbn [total finished forallb].
  intros H. apply andb_true_intro. split; [|apply IH; lia].
  apply Nat.eqb_eq. unfold steps_left in H. destruct (now t); lia.
Qed.

(** No deadlock: while a thread has steps left, some thread can take one. *)
Lemma some_thread_moves (ts : list thread) (s : State) (k : nat) :
  Inv (ts, s) -> total steps_left ts = S k ->
  exists i, total steps_left (fst (sched_step cfg w ptr i (ts, s))) = k.
Proof.
  intros HI Hk.
  assert (Hcand : exists pre t post t' s',
            ts = pre ++ t :: post /\ todo t <> O
            /\ thread_next cfg w ptr t s = Ret t' s').
  { destruct HI as (Hok & _ & Hcs). cbn [fst snd] in *.
    destruct (locks s slot) eqn:Hl.
    - destruct (total_pos_split in_cs ts) as (pre & t & post & -> & Hin); [lia|].
      apply Forall_app in Hok. destruct Hok as [_ Hok].
      apply Forall_cons_iff in Hok. destruct Hok as [(_ & Hd & _) _].
      assert (Hnz : todo t <> O)
        by (intros E; unfold in_cs in Hin; rewrite (Hd E) in Hin; lia).
      destruct t as [[|j] p]; [contradiction|].
      unfold in_cs in Hin. cbn [now] in Hin.
      destruct p; [lia| | |]; do 5 eexists;
        (split; [reflexivity|]); (split; [exact Hnz|]); reflexivity.
    - destruct (total_pos_split steps_left ts) as (pre & t & post & -> & Hin); [lia|].
      rewrite total_app in Hcs. cbn [total] in Hcs.
      assert (Hnz : todo t <> O)
        by (intros E; unfold steps_left in Hin; rewrite E in Hin; lia).
      destruct t as [[|j] p]; [contradiction|].
      unfold in_cs in Hcs. cbn [now] in Hcs.
      destruct p; [|lia|lia|lia]. do 5 eexists.
      split; [reflexivity|]. split; [exact Hnz|].
      unfold thread_next. cbn [todo now]. unfold bind, lock. rewrite Hl.
      reflexivity. }
  destruct Hcand as (pre & t & post & t' & s' & -> & Hnz & Hstep).
  exists (length pre). rewrite (sched_step_middle pre post t t' s s' Hstep).
  destruct (step_preserves pre post t t' s s' HI Hstep) as [_ Hless].
  cbn [fst]. rewrite total_app in *. cbn [total] in *. specialize (Hless Hnz). lia.
Qed.

(** Some interleaving runs every thread to completion. *)
Lemma some_schedule_completes (k : nat) :
  forall c, Inv c -> total steps_left (fst c) = k ->
  exists sched, finished (fst (run_schedule cfg w ptr sched c)) = true.
Proof.
  induction k as [|k IH]; intros [ts s] HI Hk; cbn [fst] in Hk.
  - exists []. apply finished_steps_left. exact Hk.
  - destruct (some_thread_moves ts s k HI Hk) as [i Hi].
    destruct (IH _ (proj1 (sched_step_invariant i _ HI)) Hi) as [sched Hs].
    exists (i :: sched). exact Hs.
Qed.

End Interleavings.

Lemma total_repeat (f : thread -> nat) (t : thread) (n : nat) :
  total f (repeat t n) = (n * f t)%nat.
Proof. induction n as [|n IH]; simpl; [reflexivity | rewrite IH; lia]. Qed.

Lemma spawn_invariant (cfg : Target) (w : width) (ptr : Z) (N M : nat) (s0 : State) :
  locks s0 (lock_for_pointer cfg ptr) = false ->
  fetch_add_invariant cfg w ptr M (read_uint cfg w (mem s0) ptr) (spawn N M, s0).
Proof.
  intros Hl. unfold fetch_add_invariant, spawn. cbn [fst snd].
  rewrite !total_repeat, Hl. unfold written, in_cs. cbn [todo now].
  split; [|split].
  - apply Forall_forall. intros t Ht. apply repeat_spec in Ht. subst t.
    unfold thread_ok. cbn [todo now]. repeat split; auto. discriminate.
  - replace (N * (M - M + 0))%nat with O by lia. rewrite Z.add_0_r.
    symmetry. apply Z.mod_small. apply read_uint_range.
  - lia.
Qed.

(** The four steps of a thread are the locked branch of the sized
    fetch-add. *)
Lemma thread_call_is_fetch_add
    (cfg : Target) (w : width) (ptr model : Z) (k : nat) (s : State) :
  lockfree cfg w = false ->
  locks s (lock_for_pointer cfg ptr) = false ->
  exists tmp s',
    __atomic_fetch_N cfg Add w ptr 1 model s = Ret tmp s'
    /\ run_schedule cfg w ptr [0; 0; 0; 0]%nat
         ([{| todo := S k; now := AtLock |}], s)
       = ([{| todo := k; now := AtLock |}], s').
Proof.
  intros Hf Hl. rewrite (fetch_N_slow cfg _ _ _ _ _ s Hf Hl).
  do 2 eexists. split; [reflexivity|].
  unfold run_schedule, sched_step, thread_next.
  cbn [fold_left fst snd nth_error todo now].
  unfold bind, lock. rewrite Hl. reflexivity.
Qed.

(** C9 (as stated, refuted). Two threads each adding 1 to a one-byte
    location 128 times, on a target that forces the locked path, finish
    with the location holding 0, not 2 * 128. *)
Lemma fetch_add_threads_overflow :
  let c := run_schedule no_native W1 0 (taking_turns 128)
             (spawn 2 128, initial_state) in
  finished (fst c) = true
  /\ read_uint no_native W1 (mem (snd c)) 0 = 0
  /\ read_uint no_native W1 (mem (snd c)) 0 <> Z.of_nat 2 * Z.of_nat 128.
Proof.
  vm_compute. repeat split; discriminate.
Qed.

(** C9 (amended). N threads each calling fetch_add(ptr, 1) M times on one
    location that is forced onto the locked path leave it, under every
    interleaving that runs them all to completion, holding the initial value
    plus N*M reduced modulo 2^(8*size); some interleaving does run them to
    completion; and the steps a thread takes are the locked branch of the
    sized fetch-add. *)
Theorem fetch_add_threads_total
    (cfg : Target) (w : width) (ptr : Z) (N M : nat) (s0 : State) :
  lockfree cfg w = false ->
  locks s0 (lock_for_pointer cfg ptr) = false ->
  (forall sched,
     finished (fst (run_schedule cfg w ptr sched (spawn N M, s0))) = true ->
     read_uint cfg w (mem (snd (run_schedule cfg w ptr sched (spawn N M, s0)))) ptr
     = (read_uint cfg w (mem s0) ptr + Z.of_nat N * Z.of_nat M)
       mod 2 ^ (8 * sizeof w))
  /\ (exists sched,
        finished (fst (run_schedule cfg w ptr sched (spawn N M, s0))) = true)
  /\ (forall k model s,
        locks s (lock_for_pointer cfg ptr) = false ->
        exists tmp s',
          __atomic_fetch_N cfg Add w ptr 1 model s = Ret tmp s'
          /\ run_schedule cfg w ptr [0; 0; 0; 0]%nat
               ([{| todo := S k; now := AtLock |}], s)
             = ([{| todo := k; now := AtLock |}], s')).
Proof.
  intros Hf Hl. pose proof (spawn_invariant cfg w ptr N M s0 Hl) as H0.
  split; [|split].
  - intros sched Hfin.
    destruct (run_schedule_invariant cfg w ptr M _ sched _ H0) as [HI Hlen].
    destruct HI as (Hok & Hval & _).
    rewrite Hval, (finished_written M _ _ Hok Hfin), Hlen.
    cbn [fst]. unfold spawn. rewrite repeat_length, Nat2Z.inj_mul. reflexivity.
  - apply (some_schedule_completes cfg w ptr M _ _ _ H0 eq_refl).
  - intros k model s Hs. apply thread_call_is_fetch_add; assumption.
Qed.

Lemma fetch_add_threads_total_witness :
  read_uint no_native W1
    (mem (snd (run_schedule no_native W1 0 (taking_turns 3)
                 (spawn 2 3, initial_state)))) 0
  = (read_uint no_native W1 (mem initial_state) 0 + Z.of_nat 2 * Z.of_nat 3)
    mod 2 ^ (8 * sizeof W1).
Proof.
  apply (fetch_add_threads_total no_native W1 0 2 3 initial_state);
    reflexivity.
Defined.

(** * Further properties of the runtime *)

(** ** Which addresses share a lock *)

Section HashCollisions.

Variable cfg : Target.

Lemma intptr_of_line (p q : Z) :
  5 <= INTPTR_BITS cfg ->
  0 <= p < 2 ^ INTPTR_BITS cfg ->
  0 <= q < 2 ^ INTPTR_BITS cfg ->
  p / 16 = q / 16 ->
  intptr_of cfg p / 16 = intptr_of cfg q / 16.
Proof.
  intros HB Hp Hq Hline. unfold intptr_of.
  rewrite !Z.mod_small by assumption.
  set (B := INTPTR_BITS cfg) in *.
  assert (Hhalf : 2 ^ (B - 1) = 16 * 2 ^ (B - 5)).
  { change 16 with (2 ^ 4). rewrite <- Z.pow_add_r by lia. f_equal. lia. }
  assert (Hfull : 2 ^ B = 16 * 2 ^ (B - 4)).
  { change 16 with (2 ^ 4). rewrite <- Z.pow_add_r by lia. f_equal. lia. }
  assert (Hm : 0 < 2 ^ (B - 5)) by (apply Z.pow_pos_nonneg; lia).
  pose proof (Z.div_mod p 16 ltac:(lia)) as Ep.
  pose proof (Z.div_mod q 16 ltac:(lia)) as Eq.
  pose proof (Z.mod_pos_bound p 16 ltac:(lia)) as Rp.
  pose proof (Z.mod_pos_bound q 16 ltac:(lia)) as Rq.
  assert (Hsame : (p <? 2 ^ (B - 1)) = (q <? 2 ^ (B - 1))).
  { rewrite Hhalf.
    destruct (p <? 16 * 2 ^ (B - 5)) eqn:E1;
      destruct (q <? 16 * 2 ^ (B - 5)) eqn:E2; try reflexivity;
      [apply Z.ltb_lt in E1; apply Z.ltb_ge in E2
      |apply Z.ltb_ge in E1; apply Z.ltb_lt in E2]; nia. }
  rewrite <- Hsame. destruct (p <? 2 ^ (B - 1)); [exact Hline|].
  rewrite Hfull.
  replace (p - 16 * 2 ^ (B - 4)) with (p + (- 2 ^ (B - 4)) * 16) by lia.
  replace (q - 16 * 2 ^ (B - 4)) with (q + (- 2 ^ (B - 4)) * 16) by lia.
  rewrite !Z.div_add by lia. lia.
Qed.

End HashCollisions.

(** X1. Two addresses of the same aligned 16-byte line use the same lock
    slot, whatever the table size: the hash discards the four low bits. *)
Theorem same_line_same_lock (cfg : Target) (p q : Z) :
  5 <= INTPTR_BITS cfg ->
  0 <= p < 2 ^ INTPTR_BITS cfg ->
  0 <= q < 2 ^ INTPTR_BITS cfg ->
  p / 16 = q / 16 ->
  lock_for_pointer cfg p = lock_for_pointer cfg q.
Proof.
  intros HB Hp Hq Hline. unfold lock_for_pointer.
  rewrite !(Z.shiftr_div_pow2 _ 4) by lia. change (2 ^ 4) with 16.
  rewrite (intptr_of_line cfg p q HB Hp Hq Hline). reflexivity.
Qed.

Lemma same_line_same_lock_witness :
  lock_for_pointer gcc_ppc32 (2 ^ 31 + 0x120)
  = lock_for_pointer gcc_ppc32 (2 ^ 31 + 0x12f).
Proof.
  apply (same_line_same_lock gcc_ppc32 (2 ^ 31 + 0x120) (2 ^ 31 + 0x12f));
    [simpl; lia | simpl; lia | simpl; lia | reflexivity].
Defined.

(** X2. With a table of N = 2^k slots, k <= 16, two addresses of one aligned
    window of 16*N bytes that use the same lock slot lie in the same
    16-byte line: inside such a window distinct lines never collide. *)
Theorem one_window_no_collision (cfg : Target) (k p q : Z) :
  0 <= k <= 16 ->
  SPINLOCK_COUNT cfg = 2 ^ k ->
  k + 20 <= INTPTR_BITS cfg ->
  p / 2 ^ (k + 4) = q / 2 ^ (k + 4) ->
  lock_for_pointer cfg p = lock_for_pointer cfg q ->
  p / 16 = q / 16.
Proof.
  intros Hk HN HB Hwin Hlock.
  assert (Hhigh : forall j, k + 4 <= j -> Z.testbit p j = Z.testbit q j).
  { intros j Hj. replace j with ((j - (k + 4)) + (k + 4)) by lia.
    rewrite <- !Z.div_pow2_bits by lia. rewrite Hwin. reflexivity. }
  change 16 with (2 ^ 4). apply Z.bits_inj'. intros i Hi.
  rewrite !Z.div_pow2_bits by lia.
  destruct (Z.lt_ge_cases i k) as [Hlt | Hge]; [|apply Hhigh; lia].
  pose proof (lock_for_pointer_address_bits cfg k (proj1 Hk) HN p i HB Hi) as Bp.
  pose proof (lock_for_pointer_address_bits cfg k (proj1 Hk) HN q i HB Hi) as Bq.
  rewrite Hlock in Bp. rewrite Bp in Bq.
  replace (i <? k) with true in Bq by (symmetry; apply Z.ltb_lt; exact Hlt).
  rewrite (Hhigh (i + 20)) in Bq by lia. simpl in Bq.
  destruct (Z.testbit p (i + 4)), (Z.testbit q (i + 4)), (Z.testbit q (i + 20));
    simpl in Bq; congruence.
Qed.

Lemma one_window_no_collision_witness :
  0x4120 / 16 = 0x412f / 16.
Proof.
  apply (one_window_no_collision clang_x86_64 10 0x4120 0x412f);
    [lia | reflexivity | simpl; lia | reflexivity | reflexivity].
Defined.

(** ** Calls in sequence *)

Lemma critical_sections_app (xs ys : list event) :
  critical_sections xs = true -> critical_sections ys = true ->
  critical_sections (xs ++ ys) = true.
Proof.
  revert xs. fix IH 1. intros [|[i|i] [|[j|j] rest]]; simpl; intros Hx Hy;
    try discriminate; [exact Hy|].
  apply andb_prop in Hx. destruct Hx as [Hij Hrest].
  rewrite Hij. simpl. apply IH; assumption.
Qed.

Lemma run_returns (cfg : Target) (c : call) (s : State) :
  locks s (lock_for_pointer cfg (target c)) = false ->
  0 <= call_size c ->
  exists r s',
    run cfg c s = Ret r s'
    /\ (forall i, locks s' i = locks s i)
    /\ (exists evs, trace s' = trace s ++ evs /\ critical_sections evs = true)
    /\ (forall a, outside c a -> mem s' a = mem s a).
Proof.
  intros Hl Hs. destruct (is_lock_free cfg (call_size c)) eqn:Hf.
  - destruct (run_fast cfg c s Hf) as (r & s' & Hr & _ & Hlk & Ht & Hm).
    exists r, s'. split; [exact Hr|]. split; [intros i; rewrite Hlk; reflexivity|].
    split; [|exact Hm]. exists []. rewrite app_nil_r. auto.
  - destruct (run_slow cfg c s Hf Hl Hs) as (r & s' & Hr & Hlk & Ht & _ & Hm).
    exists r, s'. split; [exact Hr|]. split; [exact Hlk|]. split; [|exact Hm].
    eexists. split; [exact Ht|]. cbn [critical_sections]. rewrite Z.eqb_refl. reflexivity.
Qed.

(** X3. A thread that starts with every lock slot free and issues any
    sequence of calls of non-negative size never blocks: every call
    returns, every slot is free again afterwards, and the lock events it
    recorded are complete critical sections (each acquire directly followed
    by the release of the same slot). *)
Theorem calls_in_sequence_never_block (cfg : Target) (cs : list call) (s : State) :
  (forall i, locks s i = false) ->
  Forall (fun c => 0 <= call_size c) cs ->
  exists rs s',
    run_all cfg cs s = Ret rs s'
    /\ length rs = length cs
    /\ (forall i, locks s' i = false)
    /\ (exists evs, trace s' = trace s ++ evs /\ critical_sections evs = true).
Proof.
  revert s. induction cs as [|c rest IH]; intros s Hfree Hsz.
  - exists [], s. repeat split; auto. exists []. rewrite app_nil_r. auto.
  - apply Forall_cons_iff in Hsz. destruct Hsz as [Hc Hrest].
    destruct (run_returns cfg c s (Hfree _) Hc) as (r & s1 & Hr & Hlk & (e1 & Ht1 & Hb1) & _).
    destruct (IH s1) as (rs & s2 & Hrs & Hlen & Hfree2 & (e2 & Ht2 & Hb2));
      [intros i; rewrite Hlk; apply Hfree | exact Hrest |].
    exists (r :: rs), s2. cbn [run_all]. unfold bind at 1. rewrite Hr.
    unfold bind at 1. rewrite Hrs. split; [reflexivity|].
    split; [cbn [length]; rewrite Hlen; reflexivity|]. split; [exact Hfree2|].
    exists (e1 ++ e2). rewrite Ht2, Ht1, app_assoc. split; [reflexivity|].
    apply critical_sections_app; assumption.
Qed.

Lemma calls_in_sequence_never_block_witness :
  exists rs s',
    run_all gcc_ppc32
      [Store_N W8 64 7 5; Fetch_N Add W8 64 1 5; Load_c 3 64 128 5;
       Fetch_N Xor W4 0 255 5] sample_state = Ret rs s'
    /\ length rs = 4%nat
    /\ (forall i, locks s' i = false)
    /\ (exists evs,
          trace s' = trace sample_state ++ evs /\ critical_sections evs = true).
Proof.
  apply (calls_in_sequence_never_block gcc_ppc32
           [Store_N W8 64 7 5; Fetch_N Add W8 64 1 5; Load_c 3 64 128 5;
            Fetch_N Xor W4 0 255 5] sample_state).
  - reflexivity.
  - repeat constructor; simpl; lia.
Defined.

(** X4. No cross-talk: a value stored at [p] is still what a load of [p]
    returns after any other call that returns and whose atomic object and
    result buffers do not overlap the object at [p], even when that call
    hashes to the same lock slot. *)
Theorem no_cross_talk
    (cfg : Target) (w : width) (p X model1 model2 : Z) (c : call) (s : State) :
  locks s (lock_for_pointer cfg p) = false ->
  locks s (lock_for_pointer cfg (target c)) = false ->
  0 <= call_size c ->
  0 <= X < modulus w ->
  (forall a, p <= a < p + sizeof w -> outside c a) ->
  exists s1 r s2 s3,
    __atomic_store_N cfg w p X model1 s = Ret tt s1
    /\ run cfg c s1 = Ret r s2
    /\ __atomic_load_N cfg w p model2 s2 = Ret X s3.
Proof.
  intros Hp Hc Hs HX Hout.
  destruct (run_returns cfg (Store_N w p X model1) s Hp) as (r1 & s1 & Hr1 & Hl1 & _ & _);
    [cbn [call_size]; pose proof (sizeof_pos w); lia|].
  cbn [run] in Hr1. unfold bind, ret in Hr1.
  destruct (__atomic_store_N cfg w p X model1 s) as [[] s1'| |] eqn:Hst;
    try discriminate. injection Hr1 as _ <-.
  assert (Hval : read_uint cfg w (mem s1') p = X).
  { destruct (lockfree cfg w) eqn:Hf.
    - rewrite (store_N_fast cfg _ _ _ _ s Hf) in Hst. injection Hst as <-.
      cbn [mem set_mem]. rewrite read_write_same. apply wrap_small. exact HX.
    - rewrite (store_N_slow cfg _ _ _ _ s Hf Hp) in Hst. injection Hst as <-.
      cbn [mem after_cs]. rewrite read_write_same. apply wrap_small. exact HX. }
  destruct (run_returns cfg c s1') as (r & s2 & Hr2 & Hl2 & _ & Hm2);
    [rewrite Hl1; exact Hc | exact Hs |].
  assert (Hval2 : read_uint cfg w (mem s2) p = X).
  { rewrite <- Hval. unfold read_uint. f_equal. apply load_bytes_ext.
    intros a Ha. apply Hm2, Hout.
    rewrite Z2Nat.id in Ha by (pose proof (sizeof_pos w); lia). exact Ha. }
  destruct (run_returns cfg (Load_N w p model2) s2) as (r3 & s3 & Hr3 & _);
    [cbn [target]; rewrite Hl2, Hl1; exact Hp
    | cbn [call_size]; pose proof (sizeof_pos w); lia |].
  cbn [run] in Hr3. unfold bind, ret in Hr3.
  destruct (__atomic_load_N cfg w p model2 s2) as [v s3'| |] eqn:Hld;
    try discriminate.
  exists s1', r, s2, s3'. split; [reflexivity|]. split; [exact Hr2|].
  rewrite Hld. f_equal.
  destruct (lockfree cfg w) eqn:Hf.
  - rewrite (load_N_fast cfg _ _ _ s2 Hf) in Hld. injection Hld as <- _.
    exact Hval2.
  - rewrite (load_N_slow cfg _ _ _ s2 Hf) in Hld
      by (rewrite Hl2, Hl1; exact Hp).
    injection Hld as <- _. exact Hval2.
Qed.

Lemma no_cross_talk_witness :
  lock_for_pointer no_native 0 = lock_for_pointer no_native (2 ^ 20 + 16)
  /\ exists s1 r s2 s3,
       __atomic_store_N no_native W8 0 42 5 sample_state = Ret tt s1
       /\ run no_native (Store_N W8 (2 ^ 20 + 16) 99 5) s1 = Ret r s2
       /\ __atomic_load_N no_native W8 0 5 s2 = Ret 42 s3.
Proof.
  split; [reflexivity|].
  apply (no_cross_talk no_native W8 0 42 5 5 (Store_N W8 (2 ^ 20 + 16) 99 5)
           sample_state).
  - reflexivity.
  - reflexivity.
  - simpl; lia.
  - unfold modulus; simpl; lia.
  - intros a Ha. unfold outside. simpl in *. split; [lia | constructor].
Defined.

(** ** Exchange with aliased buffers *)

(** X5. When the caller passes the same buffer as [val] and [old] (not
    overlapping [ptr]), the two paths of the generic exchange differ: the
    lock-free path stores the new value and hands back the old one, the
    locked path copies the old value over the new one first and so leaves
    [ptr] with its prior contents. *)
Theorem exchange_c_aliased_buffers
    (cfg : Target) (size ptr buf model : Z) (s : State) :
  0 <= size ->
  locks s (lock_for_pointer cfg ptr) = false ->
  disjoint buf size ptr size ->
  exists s',
    __atomic_exchange_c cfg size ptr buf buf model s = Ret tt s'
    /\ load_bytes (mem s') buf (Z.to_nat size)
       = load_bytes (mem s) ptr (Z.to_nat size)
    /\ load_bytes (mem s') ptr (Z.to_nat size)
       = if is_lock_free cfg size
         then load_bytes (mem s) buf (Z.to_nat size)
         else load_bytes (mem s) ptr (Z.to_nat size).
Proof.
  intros Hs Hl Hd.
  destruct (LOCK_FREE_CASES cfg size) as [ty|] eqn:Hc.
  - destruct (LOCK_FREE_CASES_Some cfg size ty Hc) as (Hsz & _ & Hlf & _).
    rewrite (exchange_c_fast cfg _ _ _ _ _ ty s Hc), Hlf.
    eexists; split; [reflexivity|]. cbn [mem set_mem]. subst size. split.
    + rewrite load_write_uint. apply encode_read_uint.
    + unfold write_uint at 1.
      rewrite load_store_disjoint;
        [| exact Hs | apply encode_length | apply disjoint_sym; exact Hd].
      rewrite load_write_uint. apply encode_read_uint.
  - pose proof (proj1 (LOCK_FREE_CASES_None cfg size) Hc) as Hlf.
    rewrite (exchange_c_slow cfg _ _ _ _ _ s Hc Hs Hl), Hlf.
    eexists; split; [reflexivity|]. cbn [mem after_cs]. cbv zeta.
    rewrite (load_store_same_n (mem s) buf _ (Z.to_nat size))
      by apply load_bytes_length.
    split.
    + rewrite load_store_disjoint;
        [| exact Hs | apply load_bytes_length | exact Hd].
      apply load_store_same_n, load_bytes_length.
    + apply load_store_same_n, load_bytes_length.
Qed.

Lemma exchange_c_aliased_buffers_witness :
  exists s',
    __atomic_exchange_c gcc_ppc32 8 64 0 0 5 sample_state = Ret tt s'
    /\ load_bytes (mem s') 0 (Z.to_nat 8)
       = load_bytes (mem sample_state) 64 (Z.to_nat 8)
    /\ load_bytes (mem s') 64 (Z.to_nat 8)
       = if is_lock_free gcc_ppc32 8
         then load_bytes (mem sample_state) 0 (Z.to_nat 8)
         else load_bytes (mem sample_state) 64 (Z.to_nat 8).
Proof.
  apply (exchange_c_aliased_buffers gcc_ppc32 8 64 0 5 sample_state);
    [lia | reflexivity | unfold disjoint; lia].
Defined.

(** ** Compare-exchange off the weak path *)

Lemma compare_exchange_c_strong_paths_witness :
  exists s',
    __atomic_compare_exchange_c gcc_ppc32 8 64 128 0 5 5 sample_state = Ret 1 s'
    /\ load_bytes (mem s') 64 (Z.to_nat 8)
       = load_bytes (mem sample_state) 0 (Z.to_nat 8)
    /\ load_bytes (mem s') 128 (Z.to_nat 8)
       = load_bytes (mem sample_state) 128 (Z.to_nat 8).
Proof.
  apply (compare_exchange_c_strong_paths gcc_ppc32 8 64 128 0 5 5 sample_state);
    [lia | reflexivity | unfold disjoint; lia | left; reflexivity | reflexivity].
Defined.

Section CompareExchangeOutcome.

Variable cfg : Target.

Lemma store_bytes_same_contents (m : memory) (p : Z) (n : nat) (a : Z) :
  store_bytes m p (load_bytes m p n) a = m a.
Proof.
  unfold store_bytes, in_range. rewrite load_bytes_length.
  destruct (p <=? a) eqn:E1; destruct (a <? p + Z.of_nat n) eqn:E2; simpl; auto.
  apply Z.leb_le in E1. apply Z.ltb_lt in E2. unfold load_bytes.
  rewrite nth_indep with (d' := (fun i => m (p + Z.of_nat i)) O)
    by (rewrite length_map, length_seq; lia).
  rewrite (map_nth (fun i => m (p + Z.of_nat i))).
  rewrite seq_nth by lia. simpl. f_equal. lia.
Qed.

Lemma store_bytes_twice (m : memory) (p : Z) (xs ys : list byte) (a : Z) :
  length xs = length ys ->
  store_bytes (store_bytes m p xs) p ys a = store_bytes m p ys a.
Proof.
  intros H. unfold store_bytes. rewrite H.
  destruct (in_range p (Z.of_nat (length ys)) a); reflexivity.
Qed.

Lemma bytes_test_eq (xs ys : list byte) :
  length xs = length ys ->
  (compare_bytes xs ys =? 0) = true <-> xs = ys.
Proof. intros H. rewrite Z.eqb_eq. apply compare_bytes_eq. exact H. Qed.

(** The generic compare-exchange, both paths at once, when no attempt can
    fail spuriously. *)
Lemma compare_exchange_c_outcome
    (size ptr expected desired success failure : Z) (s : State) :
  0 <= size ->
  locks s (lock_for_pointer cfg ptr) = false ->
  is_lock_free cfg size = false \/ GNUC_NOT_CLANG cfg = false ->
  let n := Z.to_nat size in
  let same := compare_bytes (load_bytes (mem s) ptr n)
                            (load_bytes (mem s) expected n) =? 0 in
  exists s',
    __atomic_compare_exchange_c cfg size ptr expected desired success failure s
    = Ret (if same then 1 else 0) s'
    /\ mem s' = (if same
                 then store_bytes (mem s) ptr (load_bytes (mem s) desired n)
                 else store_bytes (mem s) expected (load_bytes (mem s) ptr n))
    /\ (forall i, locks s' i = locks s i).
Proof.
  intros Hs Hl Hpath n same.
  destruct (LOCK_FREE_CASES cfg size) as [ty|] eqn:Hc.
  - destruct (LOCK_FREE_CASES_Some cfg size ty Hc) as (Hsz & _ & Hlf & _).
    destruct Hpath as [Hno | Hg]; [congruence|].
    rewrite (compare_exchange_c_fast cfg _ _ _ _ _ _ ty s Hc), Hg.
    unfold builtin_atomic_compare_exchange, strong_compare_exchange.
    subst size. subst n same.
    destruct (read_uint cfg ty (mem s) ptr =? read_uint cfg ty (mem s) expected) eqn:E.
    + apply Z.eqb_eq, read_uint_eq_iff in E.
      replace (compare_bytes _ _ =? 0) with true
        by (symmetry; apply bytes_test_eq;
            [rewrite !load_bytes_length; reflexivity | exact E]).
      eexists. split; [reflexivity|]. cbn [mem locks set_mem].
      unfold write_uint. rewrite encode_read_uint. auto.
    + replace (compare_bytes _ _ =? 0) with false.
      2:{ symmetry. apply Z.eqb_neq. intros C. apply Z.eqb_neq in E. apply E.
          apply read_uint_eq_iff. apply compare_bytes_eq in C; [exact C|].
          rewrite !load_bytes_length. reflexivity. }
      eexists. split; [reflexivity|]. cbn [mem locks set_mem].
      unfold write_uint. rewrite encode_read_uint. auto.
  - rewrite (compare_exchange_c_slow cfg _ _ _ _ _ _ s Hc Hs Hl).
    subst n same. destruct (compare_bytes _ _ =? 0);
      (eexists; split; [reflexivity|]; split; [reflexivity|];
       intros i; apply after_cs_locks; exact Hl).
Qed.

End CompareExchangeOutcome.

(** X7. Off the weak path (a locked width, or a clang build) the sized
    compare-exchange is strong: it returns true exactly when the value at
    [ptr] equals the value at [expected]; on success [ptr] holds [desired]
    (reduced to the width) and [expected] is untouched; on failure [ptr]
    is untouched and [expected] holds the value found at [ptr]. *)
Theorem compare_exchange_N_strong
    (cfg : Target) (w : width) (ptr expected desired success failure : Z)
    (s : State) :
  locks s (lock_for_pointer cfg ptr) = false ->
  lockfree cfg w = false \/ GNUC_NOT_CLANG cfg = false ->
  disjoint ptr (sizeof w) expected (sizeof w) ->
  exists b s',
    __atomic_compare_exchange_N cfg w ptr expected desired success failure s
    = Ret b s'
    /\ (b = true <-> read_uint cfg w (mem s) ptr = read_uint cfg w (mem s) expected)
    /\ read_uint cfg w (mem s') ptr
       = (if b then desired mod 2 ^ (8 * sizeof w) else read_uint cfg w (mem s) ptr)
    /\ read_uint cfg w (mem s') expected
       = (if b then read_uint cfg w (mem s) expected
          else read_uint cfg w (mem s) ptr).
Proof.
  intros Hl Hpath Hd.
  assert (Hres : __atomic_compare_exchange_N cfg w ptr expected desired success failure s
    = if read_uint cfg w (mem s) ptr =? read_uint cfg w (mem s) expected
      then Ret true (if lockfree cfg w
                     then set_mem (write_uint cfg w (mem s) ptr desired) s
                     else after_cs (lock_for_pointer cfg ptr)
                            (write_uint cfg w (mem s) ptr desired) s)
      else Ret false (if lockfree cfg w
                      then set_mem (write_uint cfg w (mem s) expected
                                      (read_uint cfg w (mem s) ptr)) s
                      else after_cs (lock_for_pointer cfg ptr)
                             (write_uint cfg w (mem s) expected
                                (read_uint cfg w (mem s) ptr)) s)).
  { destruct (lockfree cfg w) eqn:Hf.
    - destruct Hpath as [Hno | Hg]; [discriminate|].
      rewrite (compare_exchange_N_fast cfg _ _ _ _ _ _ s Hf), Hg. reflexivity.
    - apply (compare_exchange_N_slow cfg _ _ _ _ _ _ s Hf Hl). }
  rewrite Hres.
  destruct (read_uint cfg w (mem s) ptr =? read_uint cfg w (mem s) expected) eqn:E.
  - apply Z.eqb_eq in E. exists true. eexists. split; [reflexivity|].
    split; [tauto|].
    assert (Hm : forall t, mem (if lockfree cfg w
                    then set_mem (write_uint cfg w (mem s) ptr desired) s
                    else after_cs t (write_uint cfg w (mem s) ptr desired) s)
                 = write_uint cfg w (mem s) ptr desired)
      by (intros; destruct (lockfree cfg w); reflexivity).
    rewrite Hm. split; [apply read_write_same|].
    unfold read_uint, write_uint. f_equal.
    apply load_store_disjoint;
      [pose proof (sizeof_pos w); lia | apply encode_length
      | apply disjoint_sym; exact Hd].
  - apply Z.eqb_neq in E. exists false. eexists. split; [reflexivity|].
    split; [split; [discriminate | contradiction]|].
    assert (Hm : forall t, mem (if lockfree cfg w
                    then set_mem (write_uint cfg w (mem s) expected
                                    (read_uint cfg w (mem s) ptr)) s
                    else after_cs t (write_uint cfg w (mem s) expected
                                       (read_uint cfg w (mem s) ptr)) s)
                 = write_uint cfg w (mem s) expected (read_uint cfg w (mem s) ptr))
      by (intros; destruct (lockfree cfg w); reflexivity).
    rewrite Hm. split.
    + unfold write_uint.
      set (bs := encode cfg w (read_uint cfg w (mem s) ptr)).
      unfold read_uint. f_equal.
      apply load_store_disjoint;
        [pose proof (sizeof_pos w); lia | apply encode_length | exact Hd].
    + rewrite read_write_same. apply wrap_small, read_uint_range.
Qed.

Lemma compare_exchange_N_strong_witness :
  exists b s',
    __atomic_compare_exchange_N clang_x86_64 W4 0 64 7 5 5 sample_state = Ret b s'
    /\ (b = true <-> read_uint clang_x86_64 W4 (mem sample_state) 0
                     = read_uint clang_x86_64 W4 (mem sample_state) 64)
    /\ read_uint clang_x86_64 W4 (mem s') 0
       = (if b then 7 mod 2 ^ (8 * sizeof W4)
          else read_uint clang_x86_64 W4 (mem sample_state) 0)
    /\ read_uint clang_x86_64 W4 (mem s') 64
       = (if b then read_uint clang_x86_64 W4 (mem sample_state) 64
          else read_uint clang_x86_64 W4 (mem sample_state) 0).
Proof.
  apply (compare_exchange_N_strong clang_x86_64 W4 0 64 7 5 5 sample_state);
    [reflexivity | right; reflexivity | unfold disjoint; simpl; lia].
Defined.

Lemma load_c_outcome
    (cfg : Target) (size src dest model : Z) (s : State) :
  0 <= size ->
  locks s (lock_for_pointer cfg src) = false ->
  exists s',
    __atomic_load_c cfg size src dest model s = Ret tt s'
    /\ mem s' = store_bytes (mem s) dest (load_bytes (mem s) src (Z.to_nat size))
    /\ (forall i, locks s' i = locks s i).
Proof.
  intros Hs Hl. destruct (LOCK_FREE_CASES cfg size) as [ty|] eqn:Hc.
  - destruct (LOCK_FREE_CASES_Some cfg size ty Hc) as (-> & _).
    rewrite (load_c_fast cfg _ _ _ _ ty s Hc). eexists. split; [reflexivity|].
    cbn [mem locks set_mem]. unfold write_uint. rewrite encode_read_uint. auto.
  - rewrite (load_c_slow cfg _ _ _ _ s Hc Hs Hl). eexists. split; [reflexivity|].
    split; [reflexivity|]. intros i. apply after_cs_locks. exact Hl.
Qed.

(** X8. Load, then compare-exchange against what was loaded: with nothing
    in between, and off the weak path, the compare-exchange succeeds and
    [ptr] ends up holding the bytes of [desired]. *)
Theorem load_then_compare_exchange_succeeds
    (cfg : Target) (size ptr expected desired model success failure : Z)
    (s : State) :
  0 <= size ->
  locks s (lock_for_pointer cfg ptr) = false ->
  is_lock_free cfg size = false \/ GNUC_NOT_CLANG cfg = false ->
  disjoint ptr size expected size ->
  disjoint desired size expected size ->
  exists s1 s2,
    __atomic_load_c cfg size ptr expected model s = Ret tt s1
    /\ __atomic_compare_exchange_c cfg size ptr expected desired success failure s1
       = Ret 1 s2
    /\ load_bytes (mem s2) ptr (Z.to_nat size)
       = load_bytes (mem s) desired (Z.to_nat size).
Proof.
  intros Hs Hl Hpath Hpe Hde.
  destruct (load_c_outcome cfg size ptr expected model s Hs Hl) as (s1 & Hr1 & Hm1 & Hl1).
  destruct (compare_exchange_c_outcome cfg size ptr expected desired success failure s1 Hs)
    as (s2 & Hr2 & Hm2 & _); [rewrite Hl1; exact Hl | exact Hpath |].
  cbv zeta in Hr2, Hm2. rewrite Hm1 in Hr2, Hm2.
  rewrite (load_store_same_n (mem s) expected _ (Z.to_nat size)) in Hr2, Hm2
    by apply load_bytes_length.
  rewrite (load_store_disjoint (mem s) expected ptr size) in Hr2, Hm2
    by (auto using load_bytes_length).
  rewrite (load_store_disjoint (mem s) expected desired size) in Hm2
    by (auto using load_bytes_length).
  replace (compare_bytes _ _ =? 0) with true in Hr2, Hm2
    by (symmetry; apply bytes_test_eq; reflexivity).
  exists s1, s2. split; [exact Hr1|]. split; [exact Hr2|].
  rewrite Hm2. apply load_store_same_n, load_bytes_length.
Qed.

Lemma load_then_compare_exchange_succeeds_witness :
  exists s1 s2,
    __atomic_load_c no_native 4 0 64 5 sample_state = Ret tt s1
    /\ __atomic_compare_exchange_c no_native 4 0 64 4 5 5 s1 = Ret 1 s2
    /\ load_bytes (mem s2) 0 (Z.to_nat 4)
       = load_bytes (mem sample_state) 4 (Z.to_nat 4).
Proof.
  apply (load_then_compare_exchange_succeeds no_native 4 0 64 4 5 5 5 sample_state);
    [lia | reflexivity | left; reflexivity | unfold disjoint; lia
    | unfold disjoint; lia].
Defined.

(** X9. The retry of a compare-exchange loop: when a compare-exchange fails
    (the bytes at [ptr] differ from those at [expected]) it refreshes
    [expected], so that repeating the very same call, with nothing in
    between and off the weak path, succeeds and stores [desired]. *)
Theorem compare_exchange_retry_succeeds
    (cfg : Target) (size ptr expected desired success failure : Z) (s : State) :
  0 <= size ->
  locks s (lock_for_pointer cfg ptr) = false ->
  is_lock_free cfg size = false \/ GNUC_NOT_CLANG cfg = false ->
  disjoint ptr size expected size ->
  disjoint desired size expected size ->
  load_bytes (mem s) ptr (Z.to_nat size)
  <> load_bytes (mem s) expected (Z.to_nat size) ->
  exists s1 s2,
    __atomic_compare_exchange_c cfg size ptr expected desired success failure s
    = Ret 0 s1
    /\ __atomic_compare_exchange_c cfg size ptr expected desired success failure s1
       = Ret 1 s2
    /\ load_bytes (mem s2) ptr (Z.to_nat size)
       = load_bytes (mem s) desired (Z.to_nat size)
    /\ load_bytes (mem s2) expected (Z.to_nat size)
       = load_bytes (mem s) ptr (Z.to_nat size).
Proof.
  intros Hs Hl Hpath Hpe Hde Hneq.
  destruct (compare_exchange_c_outcome cfg size ptr expected desired success failure s
              Hs Hl Hpath) as (s1 & Hr1 & Hm1 & Hl1).
  cbv zeta in Hr1, Hm1.
  replace (compare_bytes _ _ =? 0) with false in Hr1, Hm1.
  2:{ symmetry. apply not_true_iff_false. intros C. apply Hneq.
      apply bytes_test_eq in C; [exact C|]. rewrite !load_bytes_length. reflexivity. }
  destruct (compare_exchange_c_outcome cfg size ptr expected desired success failure s1 Hs)
    as (s2 & Hr2 & Hm2 & _); [rewrite Hl1; exact Hl | exact Hpath |].
  cbv zeta in Hr2, Hm2. rewrite Hm1 in Hr2, Hm2.
  rewrite (load_store_same_n (mem s) expected _ (Z.to_nat size)) in Hr2, Hm2
    by apply load_bytes_length.
  rewrite (load_store_disjoint (mem s) expected ptr size) in Hr2, Hm2
    by (auto using load_bytes_length).
  rewrite (load_store_disjoint (mem s) expected desired size) in Hm2
    by (auto using load_bytes_length).
  replace (compare_bytes _ _ =? 0) with true in Hr2, Hm2
    by (symmetry; apply bytes_test_eq; reflexivity).
  exists s1, s2. split; [exact Hr1|]. split; [exact Hr2|].
  rewrite Hm2. split.
  - apply load_store_same_n, load_bytes_length.
  - rewrite load_store_disjoint;
      [| exact Hs | apply load_bytes_length | apply disjoint_sym; exact Hpe].
    apply load_store_same_n, load_bytes_length.
Qed.

Lemma compare_exchange_retry_succeeds_witness :
  exists s1 s2,
    __atomic_compare_exchange_c no_native 4 0 64 4 5 5 sample_state = Ret 0 s1
    /\ __atomic_compare_exchange_c no_native 4 0 64 4 5 5 s1 = Ret 1 s2
    /\ load_bytes (mem s2) 0 (Z.to_nat 4)
       = load_bytes (mem sample_state) 4 (Z.to_nat 4)
    /\ load_bytes (mem s2) 64 (Z.to_nat 4)
       = load_bytes (mem sample_state) 0 (Z.to_nat 4).
Proof.
  apply (compare_exchange_retry_succeeds no_native 4 0 64 4 5 5 sample_state);
    [lia | reflexivity | left; reflexivity | unfold disjoint; lia
    | unfold disjoint; lia | vm_compute; discriminate].
Defined.

(** ** Fetch-ops that undo each other *)

Lemma wrap_add_sub (w : width) (old v : Z) :
  0 <= old < modulus w ->
  apply_op Sub w (apply_op Add w old v) v = old.
Proof.
  intros Ho. unfold apply_op, wrap. pose proof (modulus_pos w) as Hm.
  rewrite Zminus_mod_idemp_l.
  replace (old + v - v) with old by lia. apply Z.mod_small. exact Ho.
Qed.

Lemma wrap_xor_xor (w : width) (old v : Z) :
  0 <= old < modulus w ->
  apply_op Xor w (apply_op Xor w old v) v = old.
Proof.
  intros Ho. unfold apply_op, wrap, modulus in *.
  assert (Hb : 0 <= 8 * sizeof w) by (pose proof (sizeof_pos w); lia).
  rewrite <- (Z.mod_small old (2 ^ (8 * sizeof w))) at 2 by exact Ho.
  rewrite <- !Z.land_ones by exact Hb.
  apply Z.bits_inj'. intros i Hi.
  rewrite !Z.land_spec, !Z.lxor_spec, !Z.land_spec, !Z.lxor_spec.
  destruct (Z.testbit old i), (Z.testbit v i), (Z.testbit (Z.ones (8 * sizeof w)) i);
    reflexivity.
Qed.

Lemma fetch_twice_restores
    (cfg : Target) (o1 o2 : rmw) (w : width) (ptr v model1 model2 : Z) (s : State) :
  (forall old, 0 <= old < modulus w ->
     apply_op o2 w (apply_op o1 w old v) v = old) ->
  locks s (lock_for_pointer cfg ptr) = false ->
  exists s1 s2,
    __atomic_fetch_N cfg o1 w ptr v model1 s
    = Ret (read_uint cfg w (mem s) ptr) s1
    /\ __atomic_fetch_N cfg o2 w ptr v model2 s1
       = Ret (apply_op o1 w (read_uint cfg w (mem s) ptr) v) s2
    /\ (forall a, mem s2 a = mem s a).
Proof.
  intros Hinv Hl.
  destruct (fetch_N_spec cfg o1 w ptr v model1 s Hl) as (s1 & Hr1 & Hm1 & Hl1 & _).
  destruct (fetch_N_spec cfg o2 w ptr v model2 s1) as (s2 & Hr2 & Hm2 & _);
    [rewrite Hl1; exact Hl|].
  assert (Hv1 : read_uint cfg w (mem s1) ptr
                = apply_op o1 w (read_uint cfg w (mem s) ptr) v).
  { rewrite Hm1, read_write_same. unfold apply_op, wrap.
    apply Z.mod_mod. pose proof (modulus_pos w). lia. }
  exists s1, s2. split; [exact Hr1|]. rewrite Hv1 in Hr2, Hm2.
  split; [exact Hr2|]. intros a. rewrite Hm2, Hm1.
  rewrite Hinv by apply read_uint_range. unfold write_uint.
  rewrite store_bytes_twice by (rewrite !encode_length; reflexivity).
  rewrite encode_read_uint. apply store_bytes_same_contents.
Qed.

(** X10. A fetch-add followed by a fetch-sub of the same operand, and a
    fetch-xor applied twice with the same operand, put every byte of memory
    back as it was; the second call returns the intermediate value
    (old + v, respectively old xor v, reduced to the width). *)
Theorem fetch_add_sub_and_xor_xor_restore
    (cfg : Target) (w : width) (ptr v model1 model2 : Z) (s : State) :
  locks s (lock_for_pointer cfg ptr) = false ->
  (exists s1 s2,
     __atomic_fetch_N cfg Add w ptr v model1 s
     = Ret (read_uint cfg w (mem s) ptr) s1
     /\ __atomic_fetch_N cfg Sub w ptr v model2 s1
        = Ret ((read_uint cfg w (mem s) ptr + v) mod 2 ^ (8 * sizeof w)) s2
     /\ (forall a, mem s2 a = mem s a))
  /\ (exists s1 s2,
        __atomic_fetch_N cfg Xor w ptr v model1 s
        = Ret (read_uint cfg w (mem s) ptr) s1
        /\ __atomic_fetch_N cfg Xor w ptr v model2 s1
           = Ret (Z.lxor (read_uint cfg w (mem s) ptr) v mod 2 ^ (8 * sizeof w)) s2
        /\ (forall a, mem s2 a = mem s a)).
Proof.
  intros Hl. split.
  - apply (fetch_twice_restores cfg Add Sub w ptr v model1 model2 s); [|exact Hl].
    intros old Ho. apply wrap_add_sub. exact Ho.
  - apply (fetch_twice_restores cfg Xor Xor w ptr v model1 model2 s); [|exact Hl].
    intros old Ho. apply wrap_xor_xor. exact Ho.
Qed.

Lemma fetch_add_sub_and_xor_xor_restore_witness :
  exists s1 s2,
    __atomic_fetch_N gcc_ppc32 Add W2 0 61166 5 sample_state
    = Ret (read_uint gcc_ppc32 W2 (mem sample_state) 0) s1
    /\ __atomic_fetch_N gcc_ppc32 Sub W2 0 61166 5 s1
       = Ret ((read_uint gcc_ppc32 W2 (mem sample_state) 0 + 61166)
              mod 2 ^ (8 * sizeof W2)) s2
    /\ (forall a, mem s2 a = mem sample_state a).
Proof.
  apply (fetch_add_sub_and_xor_xor_restore gcc_ppc32 W2 0 61166 5 5 sample_state).
  reflexivity.
Defined.

(** ** The lock under interleaving *)

Lemma unfinished_has_steps (ts : list thread) :
  finished ts = false -> (0 < total steps_left ts)%nat.
Proof.
  induction ts as [|t r IH]; [discriminate|]. cbn [finished forallb total].
  intros H. apply andb_false_iff in H. destruct H as [H | H].
  - apply Nat.eqb_neq in H. unfold steps_left. destruct (now t); lia.
  - specialize (IH H). lia.
Qed.

(** X11. Mutual exclusion: however N threads running the locked fetch-add
    are interleaved, at most one of them is between its [lock] and its
    [unlock], and the slot is held exactly when one is. *)
Theorem lock_gives_mutual_exclusion
    (cfg : Target) (w : width) (ptr : Z) (N M : nat) (s0 : State)
    (sched : list nat) :
  locks s0 (lock_for_pointer cfg ptr) = false ->
  let c := run_schedule cfg w ptr sched (spawn N M, s0) in
  (total in_cs (fst c) <= 1)%nat
  /\ (total in_cs (fst c) = 1%nat
      <-> locks (snd c) (lock_for_pointer cfg ptr) = true).
Proof.
  intros Hl c.
  destruct (run_schedule_invariant cfg w ptr M _ sched _
              (spawn_invariant cfg w ptr N M s0 Hl)) as [(_ & _ & Hcs) _].
  fold c in Hcs. rewrite Hcs.
  destruct (locks (snd c) (lock_for_pointer cfg ptr)); split; try lia;
    split; intros; try reflexivity; try discriminate; lia.
Qed.

Lemma lock_gives_mutual_exclusion_witness :
  let c := run_schedule no_native W4 0 [0; 1; 2; 0; 1]%nat
             (spawn 3 2, initial_state) in
  (total in_cs (fst c) <= 1)%nat
  /\ (total in_cs (fst c) = 1%nat
      <-> locks (snd c) (lock_for_pointer no_native 0) = true).
Proof.
  apply (lock_gives_mutual_exclusion no_native W4 0 3 2 initial_state
           [0; 1; 2; 0; 1]%nat).
  reflexivity.
Defined.

(** X12. No deadlock: in every configuration the interleaved threads can
    reach, as long as some thread has calls left there is a thread whose
    next step makes progress. *)
Theorem lock_never_deadlocks
    (cfg : Target) (w : width) (ptr : Z) (N M : nat) (s0 : State)
    (sched : list nat) :
  locks s0 (lock_for_pointer cfg ptr) = false ->
  let c := run_schedule cfg w ptr sched (spawn N M, s0) in
  finished (fst c) = false ->
  exists i,
    (total steps_left (fst (sched_step cfg w ptr i c))
     < total steps_left (fst c))%nat.
Proof.
  intros Hl c Hfin.
  destruct (run_schedule_invariant cfg w ptr M _ sched _
              (spawn_invariant cfg w ptr N M s0 Hl)) as [HI _].
  fold c in HI. pose proof (unfinished_has_steps _ Hfin) as Hpos.
  destruct (total steps_left (fst c)) as [|k] eqn:Ek; [lia|].
  destruct c as [ts s]. cbn [fst] in *.
  destruct (some_thread_moves cfg w ptr M _ ts s k HI Ek) as [i Hi].
  exists i. rewrite Hi. lia.
Qed.

Lemma lock_never_deadlocks_witness :
  exists i,
    (total steps_left
       (fst (sched_step no_native W4 0 i
               (run_schedule no_native W4 0 [0; 1; 2; 0; 1]%nat
                  (spawn 3 2, initial_state))))
     < total steps_left
         (fst (run_schedule no_native W4 0 [0; 1; 2; 0; 1]%nat
                 (spawn 3 2, initial_state))))%nat.
Proof.
  apply (lock_never_deadlocks no_native W4 0 3 2 initial_state [0; 1; 2; 0; 1]%nat);
    reflexivity.
Defined.

(** * Further properties of the OS version probe *)

Module VersionFacts.

Import OSVersion.

Lemma answer_iff (min_required_1060 : bool) (host : option (list Z))
    (Major Minor Subminor : Z) (g : Globals) :
  fst (__isOSVersionAtLeast min_required_1060 host Major Minor Subminor g) = 1
  <-> lex_le (Major, Minor, Subminor) (cached (populate min_required_1060 host g)).
Proof.
  unfold __isOSVersionAtLeast, lex_le, cached. cbn [fst].
  set (g' := populate min_required_1060 host g).
  destruct (Major <? GlobalMajor g') eqn:E1;
    [apply Z.ltb_lt in E1; split; intros; lia|].
  apply Z.ltb_ge in E1.
  destruct (GlobalMajor g' <? Major) eqn:E2;
    [apply Z.ltb_lt in E2; split; intros; lia|].
  apply Z.ltb_ge in E2.
  destruct (Minor <? GlobalMinor g') eqn:E3;
    [apply Z.ltb_lt in E3; split; intros; lia|].
  apply Z.ltb_ge in E3.
  destruct (GlobalMinor g' <? Minor) eqn:E4;
    [apply Z.ltb_lt in E4; split; intros; lia|].
  apply Z.ltb_ge in E4.
  destruct (Subminor <=? GlobalSubminor g') eqn:E5;
    [apply Z.leb_le in E5 | apply Z.leb_gt in E5]; split; intros; lia.
Qed.

Lemma answer_is_0_or_1 (min_required_1060 : bool) (host : option (list Z))
    (Major Minor Subminor : Z) (g : Globals) :
  fst (__isOSVersionAtLeast min_required_1060 host Major Minor Subminor g) = 1
  \/ fst (__isOSVersionAtLeast min_required_1060 host Major Minor Subminor g) = 0.
Proof.
  unfold __isOSVersionAtLeast. cbn [fst].
  repeat match goal with |- context [if ?b then _ else _] => destruct b end; auto.
Qed.

Lemma store_scanned_idempotent (fields : list Z) (g : Globals) :
  store_scanned fields (store_scanned fields g) = store_scanned fields g.
Proof. destruct fields as [|a [|b [|c r]]]; reflexivity. Qed.

Lemma populate_idempotent (min_required_1060 : bool) (host : option (list Z))
    (g : Globals) :
  populate min_required_1060 host (populate min_required_1060 host g)
  = populate min_required_1060 host g.
Proof.
  unfold populate. destruct min_required_1060.
  - destruct (DispatchOnceCounter g) eqn:E; cbn [DispatchOnceCounter];
      [rewrite E|]; reflexivity.
  - destruct (GlobalMajor g =? 0) eqn:E; [|rewrite E; reflexivity].
    destruct (GlobalMajor (parseSystemVersionPList host g) =? 0); [|reflexivity].
    destruct host as [fields|]; [apply store_scanned_idempotent | reflexivity].
Qed.

Lemma populate_once_frozen (host host' : option (list Z)) (g : Globals) :
  populate true host' (populate true host g) = populate true host g.
Proof.
  unfold populate. destruct (DispatchOnceCounter g) eqn:E;
    cbn [DispatchOnceCounter]; [rewrite E|]; reflexivity.
Qed.

End VersionFacts.

(** X13. With [dispatch_once] (deployment target 10.6 or later) the host is
    probed by the first call only: a later call leaves the three globals as
    the first call set them and its answer does not depend on what the host
    would say then, also when the first probe failed. *)
Theorem version_probe_runs_once
    (host1 host2 host3 : option (list Z))
    (M1 m1 s1 Major Minor Subminor : Z) (g : OSVersion.Globals) :
  let g1 := snd (OSVersion.__isOSVersionAtLeast true host1 M1 m1 s1 g) in
  snd (OSVersion.__isOSVersionAtLeast true host2 Major Minor Subminor g1) = g1
  /\ OSVersion.__isOSVersionAtLeast true host2 Major Minor Subminor g1
     = OSVersion.__isOSVersionAtLeast true host3 Major Minor Subminor g1.
Proof.
  intros g1. unfold g1, OSVersion.__isOSVersionAtLeast. cbn [snd].
  rewrite !VersionFacts.populate_once_frozen. split; reflexivity.
Qed.

(** X14. A failed probe (no symbol, no property list, nothing converted)
    leaves the globals at 0.0.0.  After such a first call from a fresh
    process, a second call on a host that now answers a.b.c still compares
    against 0.0.0 under [dispatch_once], whereas the [GlobalMajor == 0] test
    of the older branch probes again and compares against a.b.c. *)
Theorem failed_probe_cached_or_retried
    (min_required_1060 : bool) (a b c M1 m1 s1 Major Minor Subminor : Z) :
  let g1 := snd (OSVersion.__isOSVersionAtLeast min_required_1060 None M1 m1 s1
                   OSVersion.startup) in
  OSVersion.cached g1 = (0, 0, 0)
  /\ OSVersion.cached
       (snd (OSVersion.__isOSVersionAtLeast min_required_1060 (Some [a; b; c])
               Major Minor Subminor g1))
     = (if min_required_1060 then (0, 0, 0) else (a, b, c)).
Proof.
  intros g1. destruct min_required_1060; split; reflexivity.
Qed.

(** X15. When the version cannot be read in a fresh process, every query
    for a version whose major number is at least 1 is answered 0, and the
    query 0.0.0 is answered 1. *)
Theorem unreadable_version_answers_no
    (min_required_1060 : bool) (Major Minor Subminor : Z) :
  1 <= Major ->
  fst (OSVersion.__isOSVersionAtLeast min_required_1060 None Major Minor Subminor
         OSVersion.startup) = 0
  /\ fst (OSVersion.__isOSVersionAtLeast min_required_1060 None 0 0 0
            OSVersion.startup) = 1.
Proof.
  intros HM. split; [|destruct min_required_1060; reflexivity].
  unfold OSVersion.__isOSVersionAtLeast. cbn [fst].
  replace (OSVersion.GlobalMajor
             (OSVersion.populate min_required_1060 None OSVersion.startup))
    with 0 by (destruct min_required_1060; reflexivity).
  replace (Major <? 0) with false by (symmetry; apply Z.ltb_ge; lia).
  replace (0 <? Major) with true by (symmetry; apply Z.ltb_lt; lia).
  reflexivity.
Qed.

Lemma unreadable_version_answers_no_witness :
  fst (OSVersion.__isOSVersionAtLeast true None 10 4 0 OSVersion.startup) = 0
  /\ fst (OSVersion.__isOSVersionAtLeast true None 0 0 0 OSVersion.startup) = 1.
Proof.
  apply (unreadable_version_answers_no true 10 4 0). lia.
Defined.

(** X16. The answers are downward closed: once a call has answered 1 for a
    version, a following call on the same host answers 1 for every version
    that is lexicographically no later. *)
Theorem version_answers_downward_closed
    (min_required_1060 : bool) (host : option (list Z))
    (Major Minor Subminor Major' Minor' Subminor' : Z) (g : OSVersion.Globals) :
  OSVersion.lex_le (Major', Minor', Subminor') (Major, Minor, Subminor) ->
  fst (OSVersion.__isOSVersionAtLeast min_required_1060 host Major Minor Subminor g)
  = 1 ->
  fst (OSVersion.__isOSVersionAtLeast min_required_1060 host Major' Minor' Subminor'
         (snd (OSVersion.__isOSVersionAtLeast min_required_1060 host
                 Major Minor Subminor g)))
  = 1.
Proof.
  intros Hle H1. apply VersionFacts.answer_iff in H1.
  apply VersionFacts.answer_iff.
  unfold OSVersion.__isOSVersionAtLeast at 1. cbn [snd].
  rewrite VersionFacts.populate_idempotent.
  unfold OSVersion.lex_le, OSVersion.cached in *. lia.
Qed.

Lemma version_answers_downward_closed_witness :
  fst (OSVersion.__isOSVersionAtLeast false (Some [10; 6; 8]) 10 5 8
         (snd (OSVersion.__isOSVersionAtLeast false (Some [10; 6; 8]) 10 6 0
                 OSVersion.startup)))
  = 1.
Proof.
  apply (version_answers_downward_closed false (Some [10; 6; 8]) 10 6 0 10 5 8
           OSVersion.startup).
  - unfold OSVersion.lex_le. lia.
  - reflexivity.
Defined.

(** X17. A product version with two fields only, "a.b", leaves the third
    global at its static zero in a fresh process: the query a.b.c is
    answered 1 exactly when c <= 0. *)
Theorem two_field_version_has_subminor_zero
    (min_required_1060 : bool) (a b c : Z) :
  fst (OSVersion.__isOSVersionAtLeast min_required_1060 (Some [a; b]) a b c
         OSVersion.startup) = 1
  <-> c <= 0.
Proof.
  rewrite VersionFacts.answer_iff.
  replace (OSVersion.cached
             (OSVersion.populate min_required_1060 (Some [a; b]) OSVersion.startup))
    with (a, b, 0) by (destruct min_required_1060; reflexivity).
  unfold OSVersion.lex_le. lia.
Qed.

(** * Clocks *)

Module ChronoFacts.

Import Chrono.

Lemma checked_in_range (z : Z) :
  INT64_MIN <= z <= INT64_MAX -> checked z = Ticks z.
Proof.
  intros [H1 H2]. unfold checked.
  replace (INT64_MIN <=? z) with true by (symmetry; apply Z.leb_le; exact H1).
  replace (z <=? INT64_MAX) with true by (symmetry; apply Z.leb_le; exact H2).
  reflexivity.
Qed.

Lemma checked_out_of_range (z : Z) :
  z < INT64_MIN \/ INT64_MAX < z -> checked z = Overflow.
Proof.
  intros H. unfold checked.
  destruct (INT64_MIN <=? z) eqn:E1; [|reflexivity].
  destruct (z <=? INT64_MAX) eqn:E2; [|reflexivity].
  apply Z.leb_le in E1, E2. lia.
Qed.

Lemma checked_Ticks (z v : Z) :
  checked z = Ticks v -> v = z /\ INT64_MIN <= z <= INT64_MAX.
Proof.
  unfold checked.
  destruct (INT64_MIN <=? z) eqn:E1; [|discriminate].
  destruct (z <=? INT64_MAX) eqn:E2; [|discriminate].
  apply Z.leb_le in E1, E2. intros [= <-]. auto.
Qed.

Lemma time_t_of_id (bits x : Z) :
  1 <= bits -> is_time_t bits x -> time_t_of bits x = x.
Proof.
  unfold is_time_t, time_t_of. intros Hb Hx.
  assert (Hp : 2 ^ bits = 2 * 2 ^ (bits - 1)).
  { replace bits with (1 + (bits - 1)) at 1 by lia.
    rewrite Z.pow_add_r by lia. reflexivity. }
  assert (Hpos : 0 < 2 ^ (bits - 1)) by (apply Z.pow_pos_nonneg; lia).
  destruct (Z.lt_ge_cases x 0) as [Hneg | Hnn].
  - replace (x mod 2 ^ bits) with (x + 2 ^ bits).
    2:{ apply Z.mod_unique with (q := -1); lia. }
    replace (x + 2 ^ bits <? 2 ^ (bits - 1)) with false
      by (symmetry; apply Z.ltb_ge; lia).
    lia.
  - rewrite Z.mod_small by lia.
    replace (x <? 2 ^ (bits - 1)) with true by (symmetry; apply Z.ltb_lt; lia).
    reflexivity.
Qed.

End ChronoFacts.

(** X18. [from_time_t] is defined exactly for the times whose microsecond
    count fits 64 bits, that is from -9223372036854 to 9223372036854, and
    [to_time_t] then gives the time back. *)
Theorem time_t_round_trip (time_t_bits t : Z) :
  1 <= time_t_bits ->
  Chrono.is_time_t time_t_bits t ->
  (- 9223372036854 <= t <= 9223372036854
   <-> Chrono.from_time_t t = Chrono.Ticks (t * 1000000))
  /\ (t < - 9223372036854 \/ 9223372036854 < t
      <-> Chrono.from_time_t t = Chrono.Overflow)
  /\ Chrono.to_time_t time_t_bits (t * 1000000) = t.
Proof.
  intros Hb Ht. unfold Chrono.from_time_t. split; [|split].
  - split.
    + intros H. apply ChronoFacts.checked_in_range.
      unfold Chrono.INT64_MIN, Chrono.INT64_MAX. lia.
    + intros H. apply ChronoFacts.checked_Ticks in H.
      unfold Chrono.INT64_MIN, Chrono.INT64_MAX in H. lia.
  - split.
    + intros H. apply ChronoFacts.checked_out_of_range.
      unfold Chrono.INT64_MIN, Chrono.INT64_MAX. lia.
    + intros H.
      destruct (Z.lt_ge_cases t (- 9223372036854)) as [|H1]; [auto|].
      destruct (Z.lt_ge_cases 9223372036854 t) as [|H2]; [auto|].
      rewrite ChronoFacts.checked_in_range in H; [discriminate|].
      unfold Chrono.INT64_MIN, Chrono.INT64_MAX. lia.
  - unfold Chrono.to_time_t. rewrite Z.quot_mul by lia.
    apply ChronoFacts.time_t_of_id; assumption.
Qed.

Lemma time_t_round_trip_witness :
  Chrono.to_time_t 32 (1700000000 * 1000000) = 1700000000.
Proof.
  apply (time_t_round_trip 32 1700000000);
    [lia | unfold Chrono.is_time_t; simpl; lia].
Defined.

(** X19. When [clock_gettime(CLOCK_REALTIME)] succeeds, [system_clock::now]
    is the second count times 10^6 plus the nanoseconds divided by 1000 (the
    sub-microsecond part is dropped).  [to_time_t] of it is [tv_sec] for
    instants at or after the epoch; for an instant before the epoch with at
    least one microsecond of fraction it is [tv_sec + 1], the conversion
    truncating towards zero. *)
Theorem system_clock_now_seconds (time_t_bits tv_sec tv_nsec : Z) :
  1 <= time_t_bits ->
  Chrono.is_time_t time_t_bits tv_sec ->
  - 9223372036854 <= tv_sec <= 9223372036853 ->
  Chrono.valid_nsec tv_nsec ->
  Chrono.system_clock_now 0 tv_sec tv_nsec
  = Chrono.Ticks (tv_sec * 1000000 + tv_nsec / 1000)
  /\ Chrono.to_time_t time_t_bits (tv_sec * 1000000 + tv_nsec / 1000)
     = if (tv_sec <? 0) && (1000 <=? tv_nsec) then tv_sec + 1 else tv_sec.
Proof.
  intros Hb Ht Hr Hn. unfold Chrono.valid_nsec in Hn.
  assert (Hq : Z.quot tv_nsec 1000 = tv_nsec / 1000)
    by (apply Z.quot_div_nonneg; lia).
  assert (Hu : 0 <= tv_nsec / 1000 <= 999999).
  { split; [apply Z.div_pos; lia|].
    apply Z.lt_succ_r. apply Z.div_lt_upper_bound; lia. }
  split.
  - unfold Chrono.system_clock_now, Chrono.seconds_plus_microseconds. cbn [Z.eqb].
    rewrite Hq.
    rewrite ChronoFacts.checked_in_range
      by (unfold Chrono.INT64_MIN, Chrono.INT64_MAX; lia).
    cbn [Chrono.and_then].
    apply ChronoFacts.checked_in_range.
    unfold Chrono.INT64_MIN, Chrono.INT64_MAX. lia.
  - unfold Chrono.to_time_t. set (u := tv_nsec / 1000) in *.
    destruct (tv_sec <? 0) eqn:Es; [apply Z.ltb_lt in Es | apply Z.ltb_ge in Es].
    + destruct (1000 <=? tv_nsec) eqn:En;
        [apply Z.leb_le in En | apply Z.leb_gt in En]; cbn [andb].
      * assert (1 <= u) by (unfold u; apply Z.div_le_lower_bound; lia).
        replace (Z.quot (tv_sec * 1000000 + u) 1000000) with (tv_sec + 1).
        2:{ symmetry. rewrite <- (Z.opp_involutive (tv_sec * 1000000 + u)).
            rewrite Z.quot_opp_l by lia.
            rewrite Z.quot_div_nonneg by lia.
            replace (- (tv_sec * 1000000 + u))
              with ((- tv_sec - 1) * 1000000 + (1000000 - u)) by lia.
            rewrite Z.div_add_l by lia. rewrite Z.div_small by lia. lia. }
        apply ChronoFacts.time_t_of_id; [exact Hb|].
        unfold Chrono.is_time_t in *.
        assert (0 < 2 ^ (time_t_bits - 1)) by (apply Z.pow_pos_nonneg; lia). lia.
      * assert (u = 0) by (unfold u; apply Z.div_small; lia).
        replace (tv_sec * 1000000 + u) with (tv_sec * 1000000) by lia.
        rewrite Z.quot_mul by lia.
        apply ChronoFacts.time_t_of_id; assumption.
    + cbn [andb]. rewrite Z.quot_div_nonneg by lia.
      rewrite Z.div_add_l by lia. rewrite (Z.div_small u) by lia.
      rewrite Z.add_0_r. apply ChronoFacts.time_t_of_id; assumption.
Qed.

Lemma system_clock_now_seconds_witness :
  Chrono.system_clock_now 0 (-1) 500000000
  = Chrono.Ticks (-1 * 1000000 + 500000000 / 1000)
  /\ Chrono.to_time_t 64 (-1 * 1000000 + 500000000 / 1000)
     = if (-1 <? 0) && (1000 <=? 500000000) then -1 + 1 else -1.
Proof.
  apply (system_clock_now_seconds 64 (-1) 500000000);
    [lia | unfold Chrono.is_time_t; simpl; lia | lia
    | unfold Chrono.valid_nsec; lia].
Defined.

(** X20. [steady_clock::now] keeps the order of the instants the system
    reports: for two successful reads with valid nanosecond fields whose
    results are representable, an earlier [timespec] gives a strictly
    smaller reading. *)
Theorem steady_clock_now_monotone (sec1 nsec1 sec2 nsec2 v1 v2 : Z) :
  Chrono.valid_nsec nsec1 ->
  Chrono.valid_nsec nsec2 ->
  sec1 < sec2 \/ (sec1 = sec2 /\ nsec1 < nsec2) ->
  Chrono.steady_clock_now 0 sec1 nsec1 = Chrono.Ticks v1 ->
  Chrono.steady_clock_now 0 sec2 nsec2 = Chrono.Ticks v2 ->
  v1 < v2.
Proof.
  unfold Chrono.valid_nsec, Chrono.steady_clock_now,
    Chrono.seconds_plus_nanoseconds. cbn [Z.eqb].
  intros Hn1 Hn2 Hlt H1 H2.
  destruct (Chrono.checked (sec1 * 1000000000)) as [a1| | |] eqn:E1;
    try discriminate.
  destruct (Chrono.checked (sec2 * 1000000000)) as [a2| | |] eqn:E2;
    try discriminate.
  cbn [Chrono.and_then] in H1, H2.
  apply ChronoFacts.checked_Ticks in E1, E2, H1, H2. lia.
Qed.

Lemma steady_clock_now_monotone_witness : 5 * 1000000000 + 999999999 < 6 * 1000000000 + 0.
Proof.
  apply (steady_clock_now_monotone 5 999999999 6 0);
    [unfold Chrono.valid_nsec; lia | unfold Chrono.valid_nsec; lia | lia
    | reflexivity | reflexivity].
Defined.

(** X21. The Windows [steady_clock::now] multiplies the performance counter
    by 10^9 before dividing by the frequency: for a positive frequency it
    returns counter * 10^9 / freq as long as the counter is at most
    9223372036, and overflows the signed 64-bit product for every larger
    counter, which at 10 MHz is reached after 922 seconds. *)
Theorem steady_clock_win32_overflow (freq counter : Z) :
  0 < freq ->
  0 <= counter ->
  (counter <= 9223372036 ->
   Chrono.steady_clock_now_win32 freq counter
   = Chrono.Ticks (counter * 1000000000 / freq))
  /\ (9223372036 < counter ->
      Chrono.steady_clock_now_win32 freq counter = Chrono.Overflow).
Proof.
  intros Hf Hc. unfold Chrono.steady_clock_now_win32. split; intros H.
  - rewrite ChronoFacts.checked_in_range
      by (unfold Chrono.INT64_MIN, Chrono.INT64_MAX; lia).
    cbn [Chrono.and_then].
    replace (freq =? 0) with false by (symmetry; apply Z.eqb_neq; lia).
    rewrite Z.quot_div_nonneg by lia. reflexivity.
  - rewrite ChronoFacts.checked_out_of_range
      by (unfold Chrono.INT64_MIN, Chrono.INT64_MAX; lia).
    reflexivity.
Qed.

Lemma steady_clock_win32_overflow_witness :
  Chrono.steady_clock_now_win32 10000000 (923 * 10000000) = Chrono.Overflow.
Proof.
  apply (steady_clock_win32_overflow 10000000 (923 * 10000000)); lia.
Defined.
